(** * Go_api_strick: the in-memory user store and the WebSocket hub

    A shallow embedding of [server/server.go] (the HTTP handlers over the
    package-level [store]) and of the [websocket] package (the hub, its
    central loop and its shutdown), followed by the properties of the
    specification that concern them.

    Conventions of the embedding.
    - Go's [int] is the 64-bit two's complement integer: values are [Z] and
      every arithmetic result goes through [Int.wrap].
    - Go strings are byte strings: [string] of the Standard Library.
    - [time.Time] is an instant on a totally ordered time line: [Z].  Every
      call of [time.Now()] in the source is an explicit argument of the
      function that makes it.
    - [map[K]V] is [gmap K V]; a [range] over a map visits its entries in an
      unspecified order, so every function that ranges takes the order of
      the visit as an argument, and the theorems quantify over every order
      that is a permutation of the map's entries.
    - A bounded channel is its buffer, its capacity and its closed flag; a
      blocking operation that cannot proceed in the current state has the
      outcome [Blocked], a run-time panic the outcome [Panic].
    - A transition is what runs without another goroutine in between: a
      handler of the store holds [store.mu] over its read-modify-write and
      is one transition; [Shutdown] holds [h.mu] and is one transition; the
      register and unregister cases of [Run] are two sections each, split
      where the source reads or writes the hub outside [h.mu], and what
      the other goroutines do between the two sections is an argument. *)

From Stdlib Require Import ZArith String Ascii List Bool Lia Sorting.Sorted.
From stdpp Require Import gmap strings list fin_maps.

Local Open Scope string_scope.
Local Open Scope Z_scope.

(* ===================================================================== *)
(** ** Go primitives                                                      *)
(* ===================================================================== *)

Module Int.

Definition max_int : Z := 9223372036854775807.
Definition min_int : Z := -9223372036854775808.

(** Two's complement reduction to 64 bits. *)
Definition wrap (z : Z) : Z := (z + 2 ^ 63) mod 2 ^ 64 - 2 ^ 63.

Definition add (a b : Z) : Z := wrap (a + b).
Definition sub (a b : Z) : Z := wrap (a - b).
Definition mul (a b : Z) : Z := wrap (a * b).
(** Go's [/] truncates toward zero. *)
Definition div (a b : Z) : Z := wrap (Z.quot a b).

Definition in_range (z : Z) : Prop := min_int <= z <= max_int.

End Int.

Module Strings.

Definition byte_val (c : ascii) : Z := Z.of_nat (nat_of_ascii c).

Definition is_upper (c : ascii) : bool :=
  (65 <=? byte_val c) && (byte_val c <=? 90).

Definition lower_byte (c : ascii) : ascii :=
  if is_upper c then ascii_of_nat (nat_of_ascii c + 32) else c.

Fixpoint is_ascii (s : string) : bool :=
  match s with
  | EmptyString => true
  | String c s' => (byte_val c <? 128) && is_ascii s'
  end.

Fixpoint map_bytes (f : ascii -> ascii) (s : string) : string :=
  match s with
  | EmptyString => EmptyString
  | String c s' => String (f c) (map_bytes f s')
  end.

(** [strings.ToLower].  On a string of ASCII bytes the standard library
    maps [A-Z] to [a-z] byte by byte; on any other string it applies
    [unicode.ToLower] rune by rune, through the Unicode tables, which are
    taken as the argument [unicode_lower]. *)
Definition ToLower (unicode_lower : string -> string) (s : string) : string :=
  if is_ascii s then map_bytes lower_byte s else unicode_lower s.

Fixpoint HasPrefix (s prefix : string) : bool :=
  match prefix, s with
  | EmptyString, _ => true
  | String _ _, EmptyString => false
  | String p prefix', String c s' =>
      if Ascii.eqb p c then HasPrefix s' prefix' else false
  end.

(** [strings.Contains]: [substr] occurs in [s] as a run of bytes. *)
Fixpoint Contains (s substr : string) : bool :=
  HasPrefix s substr ||
  match s with
  | EmptyString => false
  | String _ s' => Contains s' substr
  end.

(** The order of [<] on Go strings: lexicographic on bytes. *)
Fixpoint ltb (a b : string) : bool :=
  match a, b with
  | _, EmptyString => false
  | EmptyString, String _ _ => true
  | String x a', String y b' =>
      if byte_val x <? byte_val y then true
      else if byte_val y <? byte_val x then false
      else ltb a' b'
  end.

End Strings.

Module Strconv.

(** [strconv.ParseBool]: the value and whether the error is [nil]. *)
Definition ParseBool (str : string) : bool * bool :=
  if existsb (String.eqb str) ["1"; "t"; "T"; "TRUE"; "true"; "True"]
  then (true, true)
  else if existsb (String.eqb str) ["0"; "f"; "F"; "FALSE"; "false"; "False"]
  then (false, true)
  else (false, false).

Definition digit (c : ascii) : option Z :=
  let v := Strings.byte_val c in
  if (48 <=? v) && (v <=? 57) then Some (v - 48) else None.

Fixpoint digits (acc : Z) (s : string) : option Z :=
  match s with
  | EmptyString => Some acc
  | String c s' =>
      match digit c with
      | Some d => digits (10 * acc + d) s'
      | None => None
      end
  end.

(** [strconv.Atoi]: an optional sign and at least one decimal digit;
    [None] stands for a non-nil error (syntax or range). *)
Definition Atoi (s : string) : option Z :=
  let '(neg, body) :=
    match s with
    | String "-" s' => (true, s')
    | String "+" s' => (false, s')
    | _ => (false, s)
    end in
  match body with
  | EmptyString => None
  | _ =>
      match digits 0 body with
      | Some n =>
          let v := if neg then - n else n in
          if (Int.min_int <=? v) && (v <=? Int.max_int) then Some v else None
      | None => None
      end
  end.

End Strconv.

Module Regexp.

(** Regular expressions over bytes, matched by derivatives.  The classes
    of the source's pattern contain ASCII bytes only, so matching bytes
    and matching runes agree. *)
Inductive regex : Type :=
| Void
| Eps
| Class (p : ascii -> bool)
| Cat (r1 r2 : regex)
| Alt (r1 r2 : regex)
| Star (r : regex).

Definition Plus (r : regex) : regex := Cat r (Star r).

Fixpoint nullable (r : regex) : bool :=
  match r with
  | Void => false
  | Eps => true
  | Class _ => false
  | Cat r1 r2 => nullable r1 && nullable r2
  | Alt r1 r2 => nullable r1 || nullable r2
  | Star _ => true
  end.

Fixpoint deriv (c : ascii) (r : regex) : regex :=
  match r with
  | Void => Void
  | Eps => Void
  | Class p => if p c then Eps else Void
  | Cat r1 r2 =>
      if nullable r1
      then Alt (Cat (deriv c r1) r2) (deriv c r2)
      else Cat (deriv c r1) r2
  | Alt r1 r2 => Alt (deriv c r1) (deriv c r2)
  | Star r' => Cat (deriv c r') (Star r')
  end.

(** [re.MatchString] for a pattern anchored by [^] and [$]: the whole
    string is in the language. *)
Fixpoint MatchString (r : regex) (s : string) : bool :=
  match s with
  | EmptyString => nullable r
  | String c s' => MatchString (deriv c r) s'
  end.



Definition between (lo hi : Z) (c : ascii) : bool :=
  (lo <=? Strings.byte_val c) && (Strings.byte_val c <=? hi).

Definition one_of (cs : list ascii) (c : ascii) : bool :=
  existsb (Ascii.eqb c) cs.

Definition lower_letter : ascii -> bool := between 97 122.
Definition dec_digit : ascii -> bool := between 48 57.

End Regexp.

(* ===================================================================== *)
(** ** Package websocket: messages, channels, the hub                     *)
(* ===================================================================== *)

Module Websocket.

Abbreviation time := Z (only parsing).
Abbreviation ptr := nat (only parsing).

(** The values stored in [Message.Data], an [interface{}]: the shapes
    that [encoding/json] distinguishes. *)
#[local] Unset Elimination Schemes.
Inductive any : Type :=
| AnyString (s : string)
| AnyInt (n : Z)
| AnyBool (b : bool)
| AnyTime (t : time)
| AnyObject (fields : list (string * any)).
#[local] Set Elimination Schemes.

Record Message : Type := mkMessage {
  Type_ : string;
  Data : any;
  Timestamp : time
}.

(** *** Buffered channels of messages *)

Record chan : Type := mkChan {
  buf : list Message;
  cap : nat;
  closed : bool
}.

(** [make(chan Message, n)] *)
Definition make_chan (n : nat) : chan :=
  {| buf := []; cap := n; closed := false |}.

Inductive outcome (A : Type) : Type :=
| Done (a : A)
| Panic
| Blocked.
Arguments Done {A} a.
Arguments Panic {A}.
Arguments Blocked {A}.

Definition bind {A B : Type} (o : outcome A) (k : A -> outcome B) : outcome B :=
  match o with
  | Done a => k a
  | Panic => Panic
  | Blocked => Blocked
  end.

Definition full (ch : chan) : bool := (cap ch <=? length (buf ch))%nat.

Definition push (m : Message) (ch : chan) : chan :=
  {| buf := buf ch ++ [m]; cap := cap ch; closed := closed ch |}.

(** [ch <- m]: panics on a closed channel, waits while the buffer is
    full. *)
Definition send (m : Message) (ch : chan) : outcome chan :=
  if closed ch then Panic
  else if full ch then Blocked
  else Done (push m ch).

(** [select { case ch <- m: ... default: ... }]: the boolean tells
    whether the send case was taken. *)
Definition try_send (m : Message) (ch : chan) : outcome (chan * bool) :=
  if closed ch then Panic
  else if full ch then Done (ch, false)
  else Done (push m ch, true).

(** [close(ch)]: panics on a channel that is closed already. *)
Definition close (ch : chan) : outcome chan :=
  if closed ch then Panic
  else Done {| buf := buf ch; cap := cap ch; closed := true |}.

(** [m, ok := <-ch]: ready when the buffer holds a message or the
    channel is closed; [None] stands for [ok = false]. *)
Definition recv (ch : chan) : outcome (option Message * chan) :=
  match buf ch with
  | m :: rest =>
      Done (Some m, {| buf := rest; cap := cap ch; closed := closed ch |})
  | [] => if closed ch then Done (None, ch) else Blocked
  end.

(** *** Clients and the hub *)

(** The transport [*websocket.Conn], as far as the hub uses it. *)
Record websocket_Conn : Type := mkConn { conn_closed : bool }.

Definition Conn_Close (c : websocket_Conn) : websocket_Conn :=
  {| conn_closed := true |}.

(** A [Client] cell of the heap; the channel [Send], which no code
    reassigns, is kept in the cell of its client. *)
Record Client : Type := mkClient {
  ID : string;
  Conn : websocket_Conn;
  Send : chan
}.

Definition set_Send (cl : Client) (ch : chan) : Client :=
  {| ID := ID cl; Conn := Conn cl; Send := ch |}.

Definition set_Conn (cl : Client) (c : websocket_Conn) : Client :=
  {| ID := ID cl; Conn := c; Send := Send cl |}.

(** The client that [handleWebSocket] allocates for a new connection. *)
Definition new_client (id : string) : Client :=
  {| ID := id; Conn := {| conn_closed := false |}; Send := make_chan 256 |}.

(** The hub and the heap of the clients it points to.  [register] and
    [unregister] are unbuffered: a value passes in the iteration of [Run]
    that receives it, so they carry no state. *)
Record State : Type := mkState {
  clients : gmap nat bool;
  broadcast : chan;
  heap : gmap nat Client
}.

Definition NewHub (h : gmap nat Client) : State :=
  {| clients := ∅; broadcast := make_chan 256; heap := h |}.

Definition set_clients (st : State) (cs : gmap nat bool) : State :=
  {| clients := cs; broadcast := broadcast st; heap := heap st |}.

Definition set_broadcast (st : State) (ch : chan) : State :=
  {| clients := clients st; broadcast := ch; heap := heap st |}.

Definition set_heap (st : State) (h : gmap nat Client) : State :=
  {| clients := clients st; broadcast := broadcast st; heap := h |}.

(** [h.BroadcastMessage(msg)]: a blocking send on [h.broadcast]. *)
Definition BroadcastMessage (msg : Message) (st : State) : outcome State :=
  bind (send msg (broadcast st)) (fun ch => Done (set_broadcast st ch)).

(** [h.SendToClient(client, msg)] *)
Definition SendToClient (client : ptr) (msg : Message) (st : State)
  : outcome State :=
  match heap st !! client with
  | None => Panic
  | Some cl =>
      bind (try_send msg (Send cl)) (fun '(ch, sent) =>
        if sent then Done (set_heap st (<[client := set_Send cl ch]> (heap st)))
        else
          bind (close (Send cl)) (fun ch' =>
            let st' := set_heap st (<[client := set_Send cl ch']> (heap st)) in
            Done (set_clients st' (delete client (clients st')))))
  end.

(** The body of the loop of the broadcast case of [Run], for one
    [client] of the range. *)
Definition broadcast_body (message : Message) (client : ptr) (st : State)
  : outcome State :=
  match heap st !! client with
  | None => Panic
  | Some cl =>
      bind (try_send message (Send cl)) (fun '(ch, sent) =>
        if sent then Done (set_heap st (<[client := set_Send cl ch]> (heap st)))
        else
          bind (close (Send cl)) (fun ch' =>
            let st' := set_heap st (<[client := set_Send cl ch']> (heap st)) in
            Done (set_clients st' (delete client (clients st')))))
  end.

(** [for client := range h.clients { ... }], the clients visited in the
    order [order]. *)
Fixpoint broadcast_range (message : Message) (order : list ptr) (st : State)
  : outcome State :=
  match order with
  | [] => Done st
  | client :: order' =>
      bind (broadcast_body message client st) (broadcast_range message order')
  end.

Definition welcome (id : string) (now : time) : Message :=
  {| Type_ := "welcome";
     Data := AnyObject
       [("message", AnyString "Добро пожаловать в Go Showcase WebSocket!");
        ("id", AnyString id)];
     Timestamp := now |}.

(** [server_time] is the string that [time.Now().Format(time.RFC3339)]
    returns. *)
Definition heartbeat (active_clients : Z) (server_time : string) (now : time)
  : Message :=
  {| Type_ := "heartbeat";
     Data := AnyObject
       [("active_clients", AnyInt active_clients);
        ("server_time", AnyString server_time)];
     Timestamp := now |}.

Definition shutdownMsg (now : time) : Message :=
  {| Type_ := "shutdown";
     Data := AnyObject
       [("message", AnyString "Server is shutting down gracefully")];
     Timestamp := now |}.

(** The case that the [select] of [Run] takes in one iteration, with
    what the iteration reads from outside the hub: the value received,
    the readings of the clock, the order of the range. *)
Inductive select_case : Type :=
| case_register (client : ptr) (now : time)
| case_unregister (client : ptr)
| case_broadcast (order : list ptr)
| case_ticker (server_time : string) (now : time).

(** *** The sections of the register and unregister cases *)

(** The register case up to its [h.mu.Unlock()]:
    [h.clients[client] = true]. *)
Definition register_insert (client : ptr) (st : State) : State :=
  set_clients st (<[client := true]> (clients st)).

(** The rest of the register case, which runs after the unlock: the
    welcome, through [h.SendToClient]. *)
Definition register_welcome (client : ptr) (now : time) (st : State)
  : outcome State :=
  match heap st !! client with
  | None => Panic
  | Some cl => SendToClient client (welcome (ID cl) now) st
  end.

(** The test [_, ok := h.clients[client]] of the unregister case, which
    the source makes before [h.mu.Lock()]. *)
Definition unregister_test (client : ptr) (st : State) : bool :=
  match clients st !! client with
  | Some _ => true
  | None => false
  end.

(** The body of the [if ok] of the unregister case, under [h.mu]:
    [delete(h.clients, client)] and [close(client.Send)]. *)
Definition unregister_locked (client : ptr) (st : State) : outcome State :=
  match heap st !! client with
  | None => Panic
  | Some cl =>
      let st1 := set_clients st (delete client (clients st)) in
      bind (close (Send cl)) (fun ch =>
        Done (set_heap st1 (<[client := set_Send cl ch]> (heap st1))))
  end.

(** One iteration of the [for { select { ... } }] of [h.Run()] during
    which no other goroutine touches the hub: the sections of the case,
    one after the other.  The broadcast case, which holds [h.mu.RLock()]
    over its loop, is one section; it is ready only when [h.broadcast]
    holds a message.  [Run_register] and [Run_unregister] below are the
    register and unregister cases with other goroutines in between. *)
Definition Run_iteration (c : select_case) (st : State) : outcome State :=
  match c with
  | case_register client now =>
      register_welcome client now (register_insert client st)
  | case_unregister client =>
      if unregister_test client st then unregister_locked client st
      else Done st
  | case_broadcast order =>
      match buf (broadcast st) with
      | [] => Blocked
      | message :: rest =>
          let ch := {| buf := rest; cap := cap (broadcast st);
                       closed := closed (broadcast st) |} in
          broadcast_range message order (set_broadcast st ch)
      end
  | case_ticker server_time now =>
      BroadcastMessage
        (heartbeat (Z.of_nat (size (clients st))) server_time now) st
  end.

(** The body of the loop of [Shutdown], for one [client]. *)
Definition Shutdown_body (msg : Message) (client : ptr) (st : State)
  : outcome State :=
  match heap st !! client with
  | None => Panic
  | Some cl =>
      bind (send msg (Send cl)) (fun ch =>
      bind (close ch) (fun ch' =>
        let cl' := set_Conn (set_Send cl ch') (Conn_Close (Conn cl)) in
        Done (set_heap st (<[client := cl']> (heap st)))))
  end.

Fixpoint Shutdown_range (msg : Message) (order : list ptr) (st : State)
  : outcome State :=
  match order with
  | [] => Done st
  | client :: order' =>
      bind (Shutdown_body msg client st) (Shutdown_range msg order')
  end.

(** [h.Shutdown()] *)
Definition Shutdown (now : time) (order : list ptr) (st : State)
  : outcome State :=
  bind (Shutdown_range (shutdownMsg now) order st) (fun st' =>
    Done (set_clients st' ∅)).

(** *** The hub between the sections of [Run] *)

(** What another goroutine does to the hub, as one transition: a handler
    or a read pump returns from [BroadcastMessage], [StartServer] returns
    from [Shutdown].  The receives of the write pumps, which take
    messages from the head of a queue and touch nothing else, are with
    the pumps. *)
Inductive foreign : Type :=
| Publishes (msg : Message)
| Shuts_down (now : time) (order : list ptr).

Definition foreign_step (f : foreign) (st : State) : outcome State :=
  match f with
  | Publishes msg => BroadcastMessage msg st
  | Shuts_down now order => Shutdown now order st
  end.

Fixpoint foreign_run (fs : list foreign) (st : State) : outcome State :=
  match fs with
  | [] => Done st
  | f :: fs' => bind (foreign_step f st) (foreign_run fs')
  end.

(** The register case of [Run], with what the other goroutines do
    between its unlock and the welcome. *)
Definition Run_register (client : ptr) (now : time) (between : list foreign)
    (st : State) : outcome State :=
  bind (foreign_run between (register_insert client st))
       (register_welcome client now).

(** The unregister case of [Run], with what the other goroutines do
    between its test and its lock. *)
Definition Run_unregister (client : ptr) (between : list foreign)
    (st : State) : outcome State :=
  if unregister_test client st
  then bind (foreign_run between st) (unregister_locked client)
  else Done st.

(** The receive of the first case of the [select] of [c.WritePump()]:
    the message that the pump goes on to write to the transport, or
    [None] when the queue is closed and empty and the pump exits. *)
Definition WritePump_receive (c : ptr) (st : State)
  : outcome (option Message * State) :=
  match heap st !! c with
  | None => Panic
  | Some cl =>
      bind (recv (Send cl)) (fun '(m, ch) =>
        Done (m, set_heap st (<[c := set_Send cl ch]> (heap st))))
  end.

(** The keys of [h.clients] in some order. *)
Definition range_of (st : State) (order : list ptr) : Prop :=
  order ≡ₚ (map_to_list (clients st)).*1.

(** Every registered client is allocated and its queue is open. *)
Definition hub_wf (st : State) : Prop :=
  ∀ c b, clients st !! c = Some b →
    ∃ cl, heap st !! c = Some cl ∧ closed (Send cl) = false.

End Websocket.

(* ===================================================================== *)
(** ** Package server: the store and its handlers                         *)
(* ===================================================================== *)

Module Server.

Abbreviation time := Z (only parsing).

Record User : Type := mkUser {
  ID : Z;
  Name : string;
  Email : string;
  Age : Z;
  Country : string;
  Active : bool;
  CreatedAt : time;
  UpdatedAt : time
}.

Record PaginatedResponse : Type := mkPaginatedResponse {
  Data : list User;
  Page : Z;
  PerPage : Z;
  Total : Z;
  TotalPages : Z
}.

(** The fields of [Stats] that the package writes; [AvgResponseTime], a
    [float64] that no code assigns, is left out. *)
Record Stats : Type := mkStats {
  TotalRequests : Z;
  TotalUsers : Z;
  ActiveUsers : Z;
  UsersByCountry : gmap string Z;
  RequestsByPath : gmap string Z;
  StartTime : time;
  Uptime : string
}.

Record Store : Type := mkStore {
  users : gmap Z User;
  nextID : Z;
  stats : Stats
}.

(** The package-level [store] as its initialiser leaves it. *)
Definition store (start : time) : Store :=
  {| users := ∅;
     nextID := 1;
     stats := {| TotalRequests := 0; TotalUsers := 0; ActiveUsers := 0;
                 UsersByCountry := ∅; RequestsByPath := ∅;
                 StartTime := start; Uptime := "" |} |}.

Definition set_users (s : Store) (m : gmap Z User) : Store :=
  {| users := m; nextID := nextID s; stats := stats s |}.

Definition set_nextID (s : Store) (n : Z) : Store :=
  {| users := users s; nextID := n; stats := stats s |}.

Definition set_Name (u : User) (v : string) : User :=
  {| ID := ID u; Name := v; Email := Email u; Age := Age u;
     Country := Country u; Active := Active u;
     CreatedAt := CreatedAt u; UpdatedAt := UpdatedAt u |}.

Definition set_Email (u : User) (v : string) : User :=
  {| ID := ID u; Name := Name u; Email := v; Age := Age u;
     Country := Country u; Active := Active u;
     CreatedAt := CreatedAt u; UpdatedAt := UpdatedAt u |}.

Definition set_Age (u : User) (v : Z) : User :=
  {| ID := ID u; Name := Name u; Email := Email u; Age := v;
     Country := Country u; Active := Active u;
     CreatedAt := CreatedAt u; UpdatedAt := UpdatedAt u |}.

Definition set_Country (u : User) (v : string) : User :=
  {| ID := ID u; Name := Name u; Email := Email u; Age := Age u;
     Country := v; Active := Active u;
     CreatedAt := CreatedAt u; UpdatedAt := UpdatedAt u |}.

Definition set_Active (u : User) (v : bool) : User :=
  {| ID := ID u; Name := Name u; Email := Email u; Age := Age u;
     Country := Country u; Active := v;
     CreatedAt := CreatedAt u; UpdatedAt := UpdatedAt u |}.

Definition set_UpdatedAt (u : User) (v : time) : User :=
  {| ID := ID u; Name := Name u; Email := Email u; Age := Age u;
     Country := Country u; Active := Active u;
     CreatedAt := CreatedAt u; UpdatedAt := v |}.

(** What a handler writes: [respondJSON(w, status, data)] or
    [respondError(w, status, message)]. *)
Inductive Response (A : Type) : Type :=
| respondJSON (status : Z) (data : A)
| respondError (status : Z) (message : string).
Arguments respondJSON {A} status data.
Arguments respondError {A} status message.

Definition StatusOK : Z := 200.
Definition StatusCreated : Z := 201.
Definition StatusBadRequest : Z := 400.
Definition StatusNotFound : Z := 404.

(** A handler returns or panics (the panic is recovered by the
    middleware). *)
Inductive result (A : Type) : Type :=
| Returns (a : A)
| Panics.
Arguments Returns {A} a.
Arguments Panics {A}.

(** The class [[a-z0-9._%+\-]]. *)
Definition local_byte (c : ascii) : bool :=
  Regexp.lower_letter c || Regexp.dec_digit c ||
  Regexp.one_of ["."; "_"; "%"; "+"; "-"]%char c.

(** The class [[a-z0-9.\-]]. *)
Definition domain_byte (c : ascii) : bool :=
  Regexp.lower_letter c || Regexp.dec_digit c ||
  Regexp.one_of ["."; "-"]%char c.

(** [^[a-z0-9._%+\-]+@[a-z0-9.\-]+\.[a-z]{2,}$] *)
Definition emailRegex : Regexp.regex :=
  let letter := Regexp.Class Regexp.lower_letter in
  Regexp.Cat (Regexp.Plus (Regexp.Class local_byte))
 (Regexp.Cat (Regexp.Class (Ascii.eqb "@"))
 (Regexp.Cat (Regexp.Plus (Regexp.Class domain_byte))
 (Regexp.Cat (Regexp.Class (Ascii.eqb "."))
 (Regexp.Cat letter (Regexp.Cat letter (Regexp.Star letter)))))).

(** The user as the value of [Message.Data]. *)
Definition user_data (u : User) : Websocket.any :=
  Websocket.AnyObject
    [("id", Websocket.AnyInt (ID u));
     ("name", Websocket.AnyString (Name u));
     ("email", Websocket.AnyString (Email u));
     ("age", Websocket.AnyInt (Age u));
     ("country", Websocket.AnyString (Country u));
     ("active", Websocket.AnyBool (Active u));
     ("created_at", Websocket.AnyTime (CreatedAt u));
     ("updated_at", Websocket.AnyTime (UpdatedAt u))].

Definition nonempty (s : string) : bool := negb (String.eqb s "").

Section Handlers.

(** [unicode.ToLower] applied rune by rune, see [Strings.ToLower]. *)
Variable unicode_lower : string -> string.

Definition valid_email (email : string) : bool :=
  Regexp.MatchString emailRegex (Strings.ToLower unicode_lower email).

(** *** createUser *)

Record CreateInput : Type := mkCreateInput {
  in_Name : string;
  in_Email : string;
  in_Age : Z;
  in_Country : string
}.

(** [body] is the result of decoding the request body, [None] for a
    decoding error; [now] and [now_msg] are the two readings of the
    clock.  The third component is the message handed to
    [hub.BroadcastMessage]. *)
Definition createUser (now now_msg : time) (body : option CreateInput)
    (s : Store) : Store * Response User * option Websocket.Message :=
  match body with
  | None => (s, respondError StatusBadRequest "Invalid JSON format", None)
  | Some input =>
      if String.eqb (in_Name input) "" || String.eqb (in_Email input) ""
      then (s, respondError StatusBadRequest "Name and email are required", None)
      else if negb (valid_email (in_Email input))
      then (s, respondError StatusBadRequest "Invalid email format", None)
      else if (in_Age input <? 0) || (in_Age input >? 150)
      then (s, respondError StatusBadRequest "Age must be between 0 and 150", None)
      else
        let user :=
          {| ID := nextID s;
             Name := in_Name input;
             Email := in_Email input;
             Age := in_Age input;
             Country := in_Country input;
             Active := true;
             CreatedAt := now;
             UpdatedAt := now |} in
        let s1 := set_users s (<[nextID s := user]> (users s)) in
        let s2 := set_nextID s1 (Int.add (nextID s1) 1) in
        (s2, respondJSON StatusCreated user,
         Some {| Websocket.Type_ := "user_created";
                 Websocket.Data := user_data user;
                 Websocket.Timestamp := now_msg |})
  end.

(** *** getUser *)

(** [id] is the result of [strconv.Atoi] on the path variable. *)
Definition getUser (id : option Z) (s : Store) : Response User :=
  match id with
  | None => respondError StatusBadRequest "Неверный ID"
  | Some id =>
      match users s !! id with
      | None => respondError StatusNotFound "Пользователь не найден"
      | Some user => respondJSON StatusOK user
      end
  end.

(** *** updateUser *)

Record UpdateInput : Type := mkUpdateInput {
  up_Name : string;
  up_Email : string;
  up_Age : option Z;
  up_Country : string
}.

Definition updateUser (now : time) (id : option Z)
    (body : option UpdateInput) (s : Store) : Store * Response User :=
  match id with
  | None => (s, respondError StatusBadRequest "Invalid ID")
  | Some id =>
  match body with
  | None => (s, respondError StatusBadRequest "Invalid JSON format")
  | Some input =>
  match users s !! id with
  | None => (s, respondError StatusNotFound "User not found")
  | Some user =>
      let user :=
        if nonempty (up_Name input) then set_Name user (up_Name input)
        else user in
      if nonempty (up_Email input) && negb (valid_email (up_Email input))
      then (s, respondError StatusBadRequest "Invalid email format")
      else
      let user :=
        if nonempty (up_Email input) then set_Email user (up_Email input)
        else user in
      match
        match up_Age input with
        | Some age =>
            if (age <? 0) || (age >? 150) then None
            else Some (set_Age user age)
        | None => Some user
        end
      with
      | None => (s, respondError StatusBadRequest "Age must be between 0 and 150")
      | Some user =>
          let user :=
            if nonempty (up_Country input)
            then set_Country user (up_Country input) else user in
          let user := set_UpdatedAt user now in
          (set_users s (<[id := user]> (users s)), respondJSON StatusOK user)
      end
  end end end.

(** *** deleteUser *)

Definition deleteUser (id : option Z) (s : Store) : Store * Response string :=
  match id with
  | None => (s, respondError StatusBadRequest "Неверный ID")
  | Some id =>
      match users s !! id with
      | None => (s, respondError StatusNotFound "Пользователь не найден")
      | Some _ =>
          (set_users s (delete id (users s)),
           respondJSON StatusOK "Пользователь удален")
      end
  end.

(** *** activateUser, deactivateUser *)

Definition activateUser (now : time) (id : option Z) (s : Store)
  : Store * Response User :=
  match id with
  | None => (s, respondError StatusBadRequest "Invalid ID")
  | Some id =>
      match users s !! id with
      | None => (s, respondError StatusNotFound "User not found")
      | Some user =>
          let user := set_Active user true in
          let user := set_UpdatedAt user now in
          (set_users s (<[id := user]> (users s)), respondJSON StatusOK user)
      end
  end.

Definition deactivateUser (now : time) (id : option Z) (s : Store)
  : Store * Response User :=
  match id with
  | None => (s, respondError StatusBadRequest "Invalid ID")
  | Some id =>
      match users s !! id with
      | None => (s, respondError StatusNotFound "User not found")
      | Some user =>
          let user := set_Active user false in
          let user := set_UpdatedAt user now in
          (set_users s (<[id := user]> (users s)), respondJSON StatusOK user)
      end
  end.

(** *** getUsers *)

(** [allUsers[i], allUsers[j] = allUsers[j], allUsers[i]] *)
Definition swap (l : list User) (i j : nat) : list User :=
  match l !! i, l !! j with
  | Some a, Some b => <[j := a]> (<[i := b]> l)
  | _, _ => l
  end.

(** The test of the inner loop, on [allUsers[i]] and [allUsers[j]]. *)
Definition test_at (test : User -> User -> bool) (l : list User)
    (i j : nat) : bool :=
  match l !! i, l !! j with
  | Some a, Some b => test a b
  | _, _ => false
  end.

(** [for j := ...; j < len(allUsers); j++ { if test { swap } }]; the
    loop makes at most [fuel] iterations. *)
Fixpoint inner_loop (test : User -> User -> bool) (i j fuel : nat)
    (l : list User) : list User :=
  match fuel with
  | O => l
  | S fuel' =>
      if (j <? length l)%nat
      then inner_loop test i (S j) fuel'
             (if test_at test l i j then swap l i j else l)
      else l
  end.

(** [for i := ...; i < len(allUsers); i++ { for j := i + 1; ... }] *)
Fixpoint outer_loop (test : User -> User -> bool) (i fuel : nat)
    (l : list User) : list User :=
  match fuel with
  | O => l
  | S fuel' =>
      if (i <? length l)%nat
      then outer_loop test (S i) fuel'
             (inner_loop test i (S i) (length l) l)
      else l
  end.

Definition exchange_sort (test : User -> User -> bool) (l : list User)
  : list User :=
  outer_loop test 0 (length l) l.

(** The [switch sortBy] of [getUsers]. *)
Definition sort_users (sortBy order : string) (allUsers : list User)
  : list User :=
  if String.eqb sortBy "name" then
    if String.eqb order "desc"
    then exchange_sort (fun a b => Strings.ltb (Name a) (Name b)) allUsers
    else exchange_sort (fun a b => Strings.ltb (Name b) (Name a)) allUsers
  else if String.eqb sortBy "age" then
    if String.eqb order "desc"
    then exchange_sort (fun a b => Age a <? Age b) allUsers
    else exchange_sort (fun a b => Age a >? Age b) allUsers
  else if String.eqb sortBy "created" then
    if String.eqb order "desc"
    then exchange_sort (fun a b => CreatedAt a <? CreatedAt b) allUsers
    else exchange_sort (fun a b => CreatedAt a >? CreatedAt b) allUsers
  else allUsers.

(** The query string of [GET /api/users]; an absent parameter is the
    empty string. *)
Record ListQuery : Type := mkListQuery {
  q_page : string;
  q_per_page : string;
  q_sort : string;
  q_order : string
}.

Definition parse_page (pageStr : string) : Z :=
  if nonempty pageStr then
    match Strconv.Atoi pageStr with
    | Some p => if p >? 0 then p else 1
    | None => 1
    end
  else 1.

Definition parse_perPage (perPageStr : string) : Z :=
  if nonempty perPageStr then
    match Strconv.Atoi perPageStr with
    | Some pp => if (pp >? 0) && (pp <=? 100) then pp else 10
    | None => 10
    end
  else 10.

(** [l[lo:hi]] on a slice whose capacity is its length. *)
Definition slice {A : Type} (l : list A) (lo hi : Z) : result (list A) :=
  if (0 <=? lo) && (lo <=? hi) && (hi <=? Z.of_nat (length l))
  then Returns (take (Z.to_nat (hi - lo)) (drop (Z.to_nat lo) l))
  else Panics.

(** [visit] is the order in which [range store.users] yields the
    entries of the table. *)
Definition getUsers (q : ListQuery) (visit : list (Z * User))
  : result (Response PaginatedResponse) :=
  let page := parse_page (q_page q) in
  let perPage := parse_perPage (q_per_page q) in
  let allUsers := visit.*2 in
  let allUsers :=
    if nonempty (q_sort q) then sort_users (q_sort q) (q_order q) allUsers
    else allUsers in
  let total := Z.of_nat (length allUsers) in
  let totalPages := Int.div (Int.sub (Int.add total perPage) 1) perPage in
  let start := Int.mul (Int.sub page 1) perPage in
  let end_ := Int.add start perPage in
  if start >=? total then
    Returns (respondJSON StatusOK
      {| Data := []; Page := page; PerPage := perPage;
         Total := total; TotalPages := totalPages |})
  else
    let end_ := if end_ >? total then total else end_ in
    match slice allUsers start end_ with
    | Panics => Panics
    | Returns data =>
        Returns (respondJSON StatusOK
          {| Data := data; Page := page; PerPage := perPage;
             Total := total; TotalPages := totalPages |})
    end.

(** *** searchUsers *)

Record SearchQuery : Type := mkSearchQuery {
  sq_q : string;
  sq_country : string;
  sq_active : string
}.

(** The body of the loop of [searchUsers]: [false] where the source
    takes a [continue]. *)
Definition search_keeps (query country activeStr : string) (user : User)
  : bool :=
  if nonempty query &&
     (negb (Strings.Contains (Strings.ToLower unicode_lower (Name user)) query) &&
      negb (Strings.Contains (Strings.ToLower unicode_lower (Email user)) query))
  then false
  else if nonempty country && negb (String.eqb (Country user) country)
  then false
  else if nonempty activeStr
  then
    let '(active, _) := Strconv.ParseBool activeStr in
    if negb (Bool.eqb (Active user) active) then false else true
  else true.

Record SearchResponse : Type := mkSearchResponse {
  results : list User;
  count : Z
}.

Definition searchUsers (q : SearchQuery) (visit : list (Z * User))
  : Response SearchResponse :=
  let query := Strings.ToLower unicode_lower (sq_q q) in
  let country := sq_country q in
  let activeStr := sq_active q in
  let results := filter (fun u => search_keeps query country activeStr u = true)
                        visit.*2 in
  respondJSON StatusOK
    {| results := results; count := Z.of_nat (length results) |}.

(** *** batchCreateUsers, batchDeleteUsers *)

Record BatchCreateResponse : Type := mkBatchCreateResponse {
  created : list User;
  created_count : Z
}.

(** The loop of [batchCreateUsers]; each request comes with the
    reading of the clock of its iteration. *)
Fixpoint batch_create_loop (reqs : list (CreateInput * time))
    (createdUsers : list User) (s : Store) : Store * list User :=
  match reqs with
  | [] => (s, createdUsers)
  | (userReq, now) :: reqs' =>
      if String.eqb (in_Name userReq) "" || String.eqb (in_Email userReq) ""
      then batch_create_loop reqs' createdUsers s
      else if negb (valid_email (in_Email userReq))
      then batch_create_loop reqs' createdUsers s
      else
        let user :=
          {| ID := nextID s;
             Name := in_Name userReq;
             Email := in_Email userReq;
             Age := in_Age userReq;
             Country := in_Country userReq;
             Active := true;
             CreatedAt := now;
             UpdatedAt := now |} in
        let s1 := set_users s (<[nextID s := user]> (users s)) in
        let s2 := set_nextID s1 (Int.add (nextID s1) 1) in
        batch_create_loop reqs' (createdUsers ++ [user]) s2
  end.

Definition batchCreateUsers (body : option (list (CreateInput * time)))
    (s : Store) : Store * Response BatchCreateResponse :=
  match body with
  | None => (s, respondError StatusBadRequest "Invalid request format")
  | Some reqs =>
      if (length reqs =? 0)%nat
      then (s, respondError StatusBadRequest "No users provided")
      else if (100 <? length reqs)%nat
      then (s, respondError StatusBadRequest "Maximum 100 users per batch")
      else
        let '(s', createdUsers) := batch_create_loop reqs [] s in
        (s', respondJSON StatusCreated
               {| created := createdUsers;
                  created_count := Z.of_nat (length createdUsers) |})
  end.

Record BatchDeleteResponse : Type := mkBatchDeleteResponse {
  deleted : list Z;
  deleted_count : Z
}.

Fixpoint batch_delete_loop (ids : list Z) (deleted : list Z) (s : Store)
  : Store * list Z :=
  match ids with
  | [] => (s, deleted)
  | id :: ids' =>
      match users s !! id with
      | Some _ =>
          batch_delete_loop ids' (deleted ++ [id])
            (set_users s (delete id (users s)))
      | None => batch_delete_loop ids' deleted s
      end
  end.

Definition batchDeleteUsers (body : option (list Z)) (s : Store)
  : Store * Response BatchDeleteResponse :=
  match body with
  | None => (s, respondError StatusBadRequest "Invalid request format")
  | Some ids =>
      if (length ids =? 0)%nat
      then (s, respondError StatusBadRequest "No IDs provided")
      else
        let '(s', deleted) := batch_delete_loop ids [] s in
        (s', respondJSON StatusOK
               {| deleted := deleted;
                  deleted_count := Z.of_nat (length deleted) |})
  end.

(** *** initTestData *)

Definition initTestData (now : time) (s : Store) : Store :=
  let seed (id : Z) (name email : string) (age : Z) (country : string)
           (active : bool) : User :=
    {| ID := id; Name := name; Email := email; Age := age;
       Country := country; Active := active;
       CreatedAt := now; UpdatedAt := now |} in
  let m := users s in
  let m := <[1 := seed 1 "Иван Петров" "ivan@example.com" 30 "Russia" true]> m in
  let m := <[2 := seed 2 "Мария Сидорова" "maria@example.com" 25 "Russia" true]> m in
  let m := <[3 := seed 3 "Петр Иванов" "petr@example.com" 35 "Ukraine" false]> m in
  let m := <[4 := seed 4 "John Smith" "john@example.com" 28 "USA" true]> m in
  let m := <[5 := seed 5 "Anna Schmidt" "anna@example.com" 32 "Germany" true]> m in
  {| users := m;
     nextID := 6;
     stats := {| TotalRequests := TotalRequests (stats s);
                 TotalUsers := TotalUsers (stats s);
                 ActiveUsers := ActiveUsers (stats s);
                 UsersByCountry := ∅;
                 RequestsByPath := RequestsByPath (stats s);
                 StartTime := StartTime (stats s);
                 Uptime := Uptime (stats s) |} |}.

End Handlers.

(** The entries of the table in some order: what a [range] can yield. *)
Definition range_of (s : Store) (visit : list (Z * User)) : Prop :=
  visit ≡ₚ map_to_list (users s).

(** The store when [StartServer] begins to serve. *)
Definition fresh_server (start now : time) : Store :=
  initTestData now (store start).

End Server.


(* ===================================================================== *)
(** ** What the properties are stated with                                *)
(* ===================================================================== *)

Module StoreSpec.

Import Server.

Local Open Scope list_scope.
Local Open Scope Z_scope.

(** Sequential calls of [createUser], each on the store that the call
    before it left. *)
Fixpoint create_seq (unicode_lower : string -> string)
    (reqs : list (Z * Z * CreateInput)) (s : Store)
  : Store * list (Response User) :=
  match reqs with
  | [] => (s, [])
  | (now, now_msg, input) :: reqs' =>
      let '(s1, r, _) := createUser unicode_lower now now_msg (Some input) s in
      let '(s2, rs) := create_seq unicode_lower reqs' s1 in
      (s2, r :: rs)
  end.


(** The input passes the four checks of [createUser]. *)
Definition valid_input (unicode_lower : string -> string)
    (input : CreateInput) : Prop :=
  in_Name input ≠ "" ∧ in_Email input ≠ "" ∧
  valid_email unicode_lower (in_Email input) = true ∧
  0 <= in_Age input <= 150.

Definition alice : CreateInput :=
  {| in_Name := "Alice"; in_Email := "alice@example.com";
     in_Age := 28; in_Country := "" |}.

Definition bob : CreateInput :=
  {| in_Name := "Bob"; in_Email := "Bob.Builder@Example.org";
     in_Age := 0; in_Country := "USA" |}.

(** A request that can change the store, with the readings of the clock
    and the decoded input that its handler receives. *)
Inductive request : Type :=
| POST_users (now now_msg : Z) (body : option CreateInput)
| PUT_user (now : Z) (id : option Z) (body : option UpdateInput)
| DELETE_user (id : option Z)
| PATCH_activate (now : Z) (id : option Z)
| PATCH_deactivate (now : Z) (id : option Z)
| POST_users_batch (body : option (list (CreateInput * Z)))
| DELETE_users_batch (body : option (list Z)).

(** The identifiers of the records that an answer reports as created. *)
Definition ids_of_created (r : Response User) : list Z :=
  match r with
  | respondJSON _ user => [ID user]
  | respondError _ _ => []
  end.

Definition ids_of_batch (r : Response BatchCreateResponse) : list Z :=
  match r with
  | respondJSON _ resp => ID <$> created resp
  | respondError _ _ => []
  end.

(** The store that the handler of the request leaves and the identifiers
    that it assigned. *)
Definition handle (unicode_lower : string -> string) (r : request) (s : Store)
  : Store * list Z :=
  match r with
  | POST_users now now_msg body =>
      let '(s', resp, _) := createUser unicode_lower now now_msg body s in
      (s', ids_of_created resp)
  | PUT_user now id body => ((updateUser unicode_lower now id body s).1, [])
  | DELETE_user id => ((deleteUser id s).1, [])
  | PATCH_activate now id => ((activateUser now id s).1, [])
  | PATCH_deactivate now id => ((deactivateUser now id s).1, [])
  | POST_users_batch body =>
      let '(s', resp) := batchCreateUsers unicode_lower body s in
      (s', ids_of_batch resp)
  | DELETE_users_batch body => ((batchDeleteUsers body s).1, [])
  end.

(** The readings of the clock that come with the request. *)
Definition readings (r : request) : list Z :=
  match r with
  | POST_users now now_msg _ => [now; now_msg]
  | PUT_user now _ _ => [now]
  | PATCH_activate now _ => [now]
  | PATCH_deactivate now _ => [now]
  | POST_users_batch (Some reqs) => reqs.*2
  | _ => []
  end.

(** How many records the request can create at most. *)
Definition creations (r : request) : nat :=
  match r with
  | POST_users _ _ _ => 1
  | POST_users_batch (Some reqs) => length reqs
  | _ => 0
  end.

(** The store together with the latest reading of the clock and the log,
    oldest first, of the identifiers assigned so far. *)
Record World : Type := mkWorld {
  w_store : Store;
  w_clock : Z;
  w_assigned : list Z
}.

Definition init_world (start now : Z) : World :=
  {| w_store := fresh_server start now;
     w_clock := now;
     w_assigned := [1; 2; 3; 4; 5] |}.

Definition step (unicode_lower : string -> string) (r : request) (w : World)
  : World :=
  let '(s', ids) := handle unicode_lower r (w_store w) in
  {| w_store := s';
     w_clock := foldr Z.max (w_clock w) (readings r);
     w_assigned := w_assigned w ++ ids |}.

(** The clock does not run backwards. *)
Definition clock_ok (r : request) (w : World) : Prop :=
  Forall (λ t, w_clock w <= t) (readings r).

(** The counter stays within [int] while the request is handled. *)
Definition no_overflow (r : request) (w : World) : Prop :=
  nextID (w_store w) + Z.of_nat (creations r) <= Int.max_int.

Inductive reachable (unicode_lower : string -> string) : World → Prop :=
| reach_init start now : reachable unicode_lower (init_world start now)
| reach_step r w :
    reachable unicode_lower w → clock_ok r w → no_overflow r w →
    reachable unicode_lower (step unicode_lower r w).

(** The invariant of the store, for the clock [clk] and the log [log]. *)
Definition store_inv (clk : Z) (log : list Z) (s : Store) : Prop :=
  (∀ id u, users s !! id = Some u →
     ID u = id ∧ CreatedAt u <= UpdatedAt u ∧ UpdatedAt u <= clk ∧ id ∈ log) ∧
  Forall (λ i, i < nextID s) log ∧
  StronglySorted Z.lt log ∧
  Int.min_int <= nextID s.

Definition inv (w : World) : Prop :=
  store_inv (w_clock w) (w_assigned w) (w_store w).

(** The record that a successful [createUser] builds. *)
Definition created_user (now : Z) (input : CreateInput) (s : Store) : User :=
  {| ID := nextID s; Name := in_Name input; Email := in_Email input;
     Age := in_Age input; Country := in_Country input; Active := true;
     CreatedAt := now; UpdatedAt := now |}.

(** The record that a successful [updateUser] stores. *)
Definition updated_user (now : Z) (input : UpdateInput) (u : User) : User :=
  {| ID := ID u;
     Name := if nonempty (up_Name input) then up_Name input else Name u;
     Email := if nonempty (up_Email input) then up_Email input else Email u;
     Age := match up_Age input with Some age => age | None => Age u end;
     Country := if nonempty (up_Country input) then up_Country input
                else Country u;
     Active := Active u;
     CreatedAt := CreatedAt u;
     UpdatedAt := now |}.

(** The supplied fields pass the checks of [updateUser]. *)
Definition valid_update (unicode_lower : string -> string)
    (input : UpdateInput) : Prop :=
  (up_Email input = "" ∨
   valid_email unicode_lower (up_Email input) = true) ∧
  (∀ age, up_Age input = Some age → 0 <= age <= 150).

(** The list that [getUsers] pages: the visit of the table, sorted when
    the query asks for it. *)
Definition collected (q : ListQuery) (visit : list (Z * User)) : list User :=
  if nonempty (q_sort q) then sort_users (q_sort q) (q_order q) visit.*2
  else visit.*2.

(** The Unicode tables are not consulted on the strings of the
    examples below, which are ASCII wherever [strings.ToLower] decides
    the result; the examples take the identity for them. *)
Definition no_unicode (s : string) : string := s.

Definition eve : CreateInput :=
  {| in_Name := "Eve"; in_Email := "eve@example"; in_Age := 20;
     in_Country := "" |}.

(** The fourth test user as [initTestData] stores it at instant 0. *)
Definition john : User :=
  {| ID := 4; Name := "John Smith"; Email := "john@example.com"; Age := 28;
     Country := "USA"; Active := true; CreatedAt := 0; UpdatedAt := 0 |}.

(** A partial update: the age only. *)
Definition age_29 : UpdateInput :=
  {| up_Name := ""; up_Email := ""; up_Age := Some 29; up_Country := "" |}.

Definition age_200 : UpdateInput :=
  {| up_Name := "Johnny"; up_Email := ""; up_Age := Some 200;
     up_Country := "" |}.

Definition second_page_by_age : ListQuery :=
  {| q_page := "2"; q_per_page := "2"; q_sort := "age"; q_order := "desc" |}.

(** A page whose window start overflows [int]. *)
Definition huge_page : ListQuery :=
  {| q_page := "4611686018427387904"; q_per_page := "4";
     q_sort := ""; q_order := "" |}.

(** A page size above the largest that [getUsers] accepts. *)
Definition wide_page : ListQuery :=
  {| q_page := "1"; q_per_page := "200"; q_sort := ""; q_order := "" |}.

(** The seeded store after six more users have been created. *)
Definition eleven_users : Store :=
  (create_seq no_unicode (replicate 6 (10, 11, alice)) (fresh_server 0 0)).1.

Definition filter_maybe : SearchQuery :=
  {| sq_q := ""; sq_country := ""; sq_active := "maybe" |}.

End StoreSpec.

Module HubSpec.

Import Websocket.

Local Open Scope list_scope.
Local Open Scope Z_scope.

(** What happens to the hub from outside and inside: an iteration of
    [Run] that takes the given case, or a call of [BroadcastMessage] by
    a handler or a read pump. *)
Inductive hub_event : Type :=
| Iterate (c : select_case)
| Publish (msg : Message).

Definition hub_step (ev : hub_event) (st : State) : outcome State :=
  match ev with
  | Iterate c => Run_iteration c st
  | Publish msg => BroadcastMessage msg st
  end.

Fixpoint hub_run (evs : list hub_event) (st : State) : outcome State :=
  match evs with
  | [] => Done st
  | ev :: evs' => bind (hub_step ev st) (hub_run evs')
  end.

(** *** The hub among the other goroutines *)

(** What happens to the hub: an iteration of [Run], its register and
    unregister cases with what the other goroutines do between their
    two sections, or a call of another goroutine between two
    iterations. *)
Inductive activity : Type :=
| Registers (client : ptr) (now : time) (between : list foreign)
| Unregisters (client : ptr) (between : list foreign)
| Services (order : list ptr)
| Ticks (server_time : string) (now : time)
| Calls (f : foreign).

Definition act (a : activity) (st : State) : outcome State :=
  match a with
  | Registers client now between => Run_register client now between st
  | Unregisters client between => Run_unregister client between st
  | Services order => Run_iteration (case_broadcast order) st
  | Ticks server_time now => Run_iteration (case_ticker server_time now) st
  | Calls f => foreign_step f st
  end.

Fixpoint act_run (acts : list activity) (st : State) : outcome State :=
  match acts with
  | [] => Done st
  | a :: acts' => bind (act a st) (act_run acts')
  end.

Definition is_publish (f : foreign) : bool :=
  match f with
  | Publishes _ => true
  | Shuts_down _ _ => false
  end.

(** No [Shutdown] returns between the two sections of the iteration. *)
Definition undisturbed (a : activity) : Prop :=
  match a with
  | Registers _ _ between | Unregisters _ between =>
      Forall (fun f => is_publish f = true) between
  | _ => True
  end.

(** The orders in which successive iterations of the broadcast case
    visit the clients: each is a range of [h.clients] as its iteration
    finds it. *)
Fixpoint serviced_by (orders : list (list ptr)) (st : State) : Prop :=
  match orders with
  | [] => True
  | order :: orders' =>
      range_of st order ∧
      ∀ st', Run_iteration (case_broadcast order) st = Done st' →
             serviced_by orders' st'
  end.

(** The queue of a client after the close of the default branch. *)
Definition closed_chan (ch : chan) : chan :=
  {| buf := buf ch; cap := cap ch; closed := true |}.

(** What the broadcast of [message] makes of a registered client. *)
Definition delivered (message : Message) (cl : Client) : Client :=
  if full (Send cl) then set_Send cl (closed_chan (Send cl))
  else set_Send cl (push message (Send cl)).

(** What [Shutdown] makes of a registered client whose queue has room. *)
Definition shut (msg : Message) (cl : Client) : Client :=
  {| ID := ID cl;
     Conn := {| conn_closed := true |};
     Send := closed_chan (push msg (Send cl)) |}.

(** The queues only grow at their tail: no step of the hub removes or
    reorders what it has enqueued (receiving is the write pump's). *)
Definition extends (st st' : State) : Prop :=
  ∀ c cl, heap st !! c = Some cl →
    ∃ cl' more,
      heap st' !! c = Some cl' ∧ buf (Send cl') = buf (Send cl) ++ more.

Definition two_clients : gmap nat Client :=
  {[ 1%nat := new_client "client_1"; 2%nat := new_client "client_2" ]}.

Definition note (n : Z) : Message :=
  {| Type_ := "note"; Data := AnyInt n; Timestamp := n |}.

(** [n] broadcasts, each published and then serviced, while client 1 is
    the only registered client. *)
Definition fill (n : nat) : list hub_event :=
  concat (replicate n [Publish (note 0); Iterate (case_broadcast [1%nat])]).

(** Client 1 registers and does not drain its queue while 255 messages
    are broadcast; then client 2 registers. *)
Definition stalled_history : list hub_event :=
  Iterate (case_register 1%nat 0) :: fill 255 ++
  [Iterate (case_register 2%nat 1)].

(** The hub after that history: client 1 is registered with 256 queued
    messages, its capacity; client 2 with its welcome. *)
Definition stalled_hub : State :=
  {| clients := {[ 1%nat := true; 2%nat := true ]};
     broadcast := make_chan 256;
     heap :=
       {[ 1%nat := {| ID := "client_1";
                      Conn := {| conn_closed := false |};
                      Send := {| buf := welcome "client_1" 0
                                        :: replicate 255 (note 0);
                                 cap := 256; closed := false |} |};
          2%nat := {| ID := "client_2";
                      Conn := {| conn_closed := false |};
                      Send := {| buf := [welcome "client_2" 1];
                                 cap := 256; closed := false |} |} ]} |}.

(** The hub once client 1 has registered. *)
Definition greeted_hub : State :=
  {| clients := {[ 1%nat := true ]};
     broadcast := make_chan 256;
     heap :=
       {[ 1%nat := {| ID := "client_1";
                      Conn := {| conn_closed := false |};
                      Send := {| buf := [welcome "client_1" 0];
                                 cap := 256; closed := false |} |};
          2%nat := new_client "client_2" ]} |}.

End HubSpec.

(* ===================================================================== *)
(** ** Package websocket, continued: the pumps of a client               *)
(* ===================================================================== *)

Module Pumps.

Import Websocket.

Local Open Scope list_scope.
Local Open Scope Z_scope.

(** [h.GetStats()] *)
Record HubStats : Type := mkHubStats {
  total_clients : Z;
  timestamp : time
}.

Definition GetStats (now : time) (st : State) : HubStats :=
  {| total_clients := Z.of_nat (size (clients st)); timestamp := now |}.

(** A [Message] as a value of [Message.Data], field by field. *)
Definition message_data (msg : Message) : any :=
  AnyObject [("type", AnyString (Type_ msg));
             ("data", Data msg);
             ("timestamp", AnyTime (Timestamp msg))].

Definition set_Timestamp (msg : Message) (t : time) : Message :=
  {| Type_ := Type_ msg; Data := Data msg; Timestamp := t |}.

(** The [response] that [ReadPump] builds for a message read. *)
Definition echo (id : string) (msg : Message) (now : time) : Message :=
  {| Type_ := "echo";
     Data := AnyObject [("received", message_data msg);
                        ("from", AnyString id)];
     Timestamp := now |}.

(** [c.Conn.Close()] on the client cell [c]. *)
Definition close_Conn (c : ptr) (st : State) : outcome State :=
  match heap st !! c with
  | None => Panic
  | Some cl =>
      Done (set_heap st (<[c := set_Conn cl (Conn_Close (Conn cl))]> (heap st)))
  end.

(** What [ReadPump] has done when it is observed: it waits in
    [ReadJSON], or it has run its deferred calls and returned. *)
Inductive pump_status : Type :=
| Reading
| Returned.

(** What [c.Conn.ReadJSON(&msg)] yields in an iteration: an error, or
    a message together with the two readings of the clock that the
    iteration makes. *)
Inductive read_result : Type :=
| read_error
| read_message (msg : Message) (now now_response : time).

(** [c.ReadPump(hub)] on the results of its reads, in order.  The
    deferred [hub.unregister <- c] is a rendezvous with [Run]: the
    iteration of [Run] that takes it is part of the transition. *)
Fixpoint ReadPump (c : ptr) (reads : list read_result) (st : State)
  : outcome (State * pump_status) :=
  match reads with
  | [] => Done (st, Reading)
  | read_error :: _ =>
      bind (Run_iteration (case_unregister c) st) (fun st1 =>
      bind (close_Conn c st1) (fun st2 => Done (st2, Returned)))
  | read_message msg now now_response :: reads' =>
      match heap st !! c with
      | None => Panic
      | Some cl =>
          let msg := set_Timestamp msg now in
          let response := echo (ID cl) msg now_response in
          bind (BroadcastMessage response st) (ReadPump c reads')
      end
  end.

(** What [WritePump] hands to [c.Conn.WriteMessage]. *)
Inductive frame : Type :=
| TextMessage (message : Message)
| PingMessage
| CloseMessage.

(** The case that the [select] of [WritePump] takes in an iteration,
    with what the transport answers: whether [json.Marshal] and
    [WriteMessage] return a nil error. *)
Inductive pump_case : Type :=
| case_Send (marshal_ok write_ok : bool)
| case_tick (write_ok : bool).

(** The state of a write pump: the hub and its heap, and the frames
    written to the transport so far, oldest first. *)
Record Writer : Type := mkWriter {
  hub : State;
  wire : list frame
}.

(** One iteration of the [for { select { ... } }] of [c.WritePump()];
    [Returned] when the iteration returns, after the deferred
    [c.Conn.Close()]. *)
Definition WritePump_iteration (c : ptr) (pc : pump_case) (w : Writer)
  : outcome (Writer * pump_status) :=
  let returns (w : Writer) : outcome (Writer * pump_status) :=
    bind (close_Conn c (hub w)) (fun st =>
      Done ({| hub := st; wire := wire w |}, Returned)) in
  match pc with
  | case_Send marshal_ok write_ok =>
      bind (WritePump_receive c (hub w)) (fun '(message, st) =>
        match message with
        | None =>
            returns {| hub := st;
                       wire := if write_ok then wire w ++ [CloseMessage]
                               else wire w |}
        | Some message =>
            if negb marshal_ok then returns {| hub := st; wire := wire w |}
            else if negb write_ok then returns {| hub := st; wire := wire w |}
            else Done ({| hub := st;
                          wire := wire w ++ [TextMessage message] |}, Reading)
        end)
  | case_tick write_ok =>
      if negb write_ok then returns w
      else Done ({| hub := hub w; wire := wire w ++ [PingMessage] |}, Reading)
  end.

(** [c.WritePump()] on the cases of its iterations, in order; the
    status [Reading] stands for a pump that is still in its loop. *)
Fixpoint WritePump (c : ptr) (cases : list pump_case) (w : Writer)
  : outcome (Writer * pump_status) :=
  match cases with
  | [] => Done (w, Reading)
  | pc :: cases' =>
      bind (WritePump_iteration c pc w) (fun '(w', status) =>
        match status with
        | Returned => Done (w', Returned)
        | Reading => WritePump c cases' w'
        end)
  end.

End Pumps.

(* ===================================================================== *)
(** ** Package server, continued: the reports and the hub                *)
(* ===================================================================== *)

Module Reports.

Import Server.

Local Open Scope list_scope.
Local Open Scope Z_scope.

(** [m[key]++] on a [map[string]int]: a missing key reads as 0. *)
Definition incr (key : string) (m : gmap string Z) : gmap string Z :=
  <[key := Int.add (default 0 (m !! key)) 1]> m.

Definition set_TotalUsers (st : Stats) (v : Z) : Stats :=
  {| TotalRequests := TotalRequests st; TotalUsers := v;
     ActiveUsers := ActiveUsers st; UsersByCountry := UsersByCountry st;
     RequestsByPath := RequestsByPath st; StartTime := StartTime st;
     Uptime := Uptime st |}.

Definition set_ActiveUsers (st : Stats) (v : Z) : Stats :=
  {| TotalRequests := TotalRequests st; TotalUsers := TotalUsers st;
     ActiveUsers := v; UsersByCountry := UsersByCountry st;
     RequestsByPath := RequestsByPath st; StartTime := StartTime st;
     Uptime := Uptime st |}.

Definition set_UsersByCountry (st : Stats) (v : gmap string Z) : Stats :=
  {| TotalRequests := TotalRequests st; TotalUsers := TotalUsers st;
     ActiveUsers := ActiveUsers st; UsersByCountry := v;
     RequestsByPath := RequestsByPath st; StartTime := StartTime st;
     Uptime := Uptime st |}.

Definition set_RequestsByPath (st : Stats) (v : gmap string Z) : Stats :=
  {| TotalRequests := TotalRequests st; TotalUsers := TotalUsers st;
     ActiveUsers := ActiveUsers st; UsersByCountry := UsersByCountry st;
     RequestsByPath := v; StartTime := StartTime st;
     Uptime := Uptime st |}.

Definition set_Uptime (st : Stats) (v : string) : Stats :=
  {| TotalRequests := TotalRequests st; TotalUsers := TotalUsers st;
     ActiveUsers := ActiveUsers st; UsersByCountry := UsersByCountry st;
     RequestsByPath := RequestsByPath st; StartTime := StartTime st;
     Uptime := v |}.

Definition set_stats (s : Store) (st : Stats) : Store :=
  {| users := users s; nextID := nextID s; stats := st |}.

Section Handlers.

(** [time.Since(t)] at the instant [now], [d.Round(time.Second)] and
    [d.String()], of the standard library. *)
Variable Since : time -> time -> Z.
Variable Round_Second : Z -> Z.
Variable Duration_String : Z -> string.

(** *** getStats *)

(** The body of the loop of [getStats]. *)
Definition getStats_body (st : Stats) (user : User) : Stats :=
  let st :=
    if Active user then set_ActiveUsers st (Int.add (ActiveUsers st) 1)
    else st in
  if nonempty (Country user)
  then set_UsersByCountry st (incr (Country user) (UsersByCountry st))
  else st.

Record StatsResponse : Type := mkStatsResponse {
  http : Stats;
  websocket : option Pumps.HubStats
}.

(** [hub] is [None] for the nil pointer; an empty object is then
    answered for ["websocket"]. *)
Definition getStats (now now_ws : time) (visit : list (Z * User))
    (hub : option Websocket.State) (s : Store) : Response StatsResponse :=
  let stats := stats s in
  let stats :=
    set_Uptime stats
      (Duration_String (Round_Second (Since now (StartTime stats)))) in
  let stats := set_TotalUsers stats (Z.of_nat (size (users s))) in
  let stats := set_ActiveUsers stats 0 in
  let stats := set_UsersByCountry stats ∅ in
  let stats := foldl getStats_body stats visit.*2 in
  let wsStats :=
    match hub with
    | Some h => Some (Pumps.GetStats now_ws h)
    | None => None
    end in
  respondJSON StatusOK {| http := stats; websocket := wsStats |}.

(** *** healthCheck *)

Record HealthResponse : Type := mkHealthResponse {
  status : string;
  health_timestamp : time;
  uptime : string;
  health_total_users : Z;
  health_active_users : Z
}.

Definition healthCheck (now now_since : time) (visit : list (Z * User))
    (s : Store) : Response HealthResponse :=
  let totalUsers := Z.of_nat (size (users s)) in
  let activeUsers :=
    foldl (fun activeUsers user =>
             if Active user then Int.add activeUsers 1 else activeUsers)
          0 visit.*2 in
  respondJSON StatusOK
    {| status := "healthy";
       health_timestamp := now;
       uptime := Duration_String (Since now_since (StartTime (stats s)));
       health_total_users := totalUsers;
       health_active_users := activeUsers |}.

(** *** getUserAnalytics *)

(** The variables that the loop of [getUserAnalytics] updates. *)
Record Tally : Type := mkTally {
  activeUsers : Z;
  inactiveUsers : Z;
  byCountry : gmap string Z;
  ageSum : Z;
  ageCount : Z
}.

Definition analytics_body (t : Tally) (user : User) : Tally :=
  let '(a, i) :=
    if Active user then (Int.add (activeUsers t) 1, inactiveUsers t)
    else (activeUsers t, Int.add (inactiveUsers t) 1) in
  let c :=
    if nonempty (Country user) then incr (Country user) (byCountry t)
    else byCountry t in
  let '(sum, cnt) :=
    if Age user >? 0
    then (Int.add (ageSum t) (Age user), Int.add (ageCount t) 1)
    else (ageSum t, ageCount t) in
  {| activeUsers := a; inactiveUsers := i; byCountry := c;
     ageSum := sum; ageCount := cnt |}.

Record AnalyticsResponse : Type := mkAnalyticsResponse {
  total_users : Z;
  active_users : Z;
  inactive_users : Z;
  users_by_country : gmap string Z;
  average_age : Z;
  analytics_timestamp : time
}.

Definition getUserAnalytics (now : time) (visit : list (Z * User))
    (s : Store) : Response AnalyticsResponse :=
  let totalUsers := Z.of_nat (size (users s)) in
  let t :=
    foldl analytics_body
      {| activeUsers := 0; inactiveUsers := 0; byCountry := ∅;
         ageSum := 0; ageCount := 0 |}
      visit.*2 in
  let avgAge :=
    if ageCount t >? 0 then Int.div (ageSum t) (ageCount t) else 0 in
  respondJSON StatusOK
    {| total_users := totalUsers;
       active_users := activeUsers t;
       inactive_users := inactiveUsers t;
       users_by_country := byCountry t;
       average_age := avgAge;
       analytics_timestamp := now |}.

End Handlers.

(** *** trackPerformance *)

(** [time.Duration] is an [int64] of nanoseconds. *)
Record PerformanceMetrics : Type := mkPerformanceMetrics {
  Path : string;
  Count : Z;
  TotalTime : Z;
  AverageTime : Z;
  MinTime : Z;
  MaxTime : Z
}.

(** The package-level [metrics], a map to cells that nothing else points
    to, and the store. *)
Record Tracked : Type := mkTracked {
  metrics : gmap string PerformanceMetrics;
  tracked_store : Store
}.

(** [trackPerformance(path, duration)]; the division panics on a zero
    count. *)
Definition trackPerformance (path : string) (duration : Z) (t : Tracked)
  : result Tracked :=
  let m :=
    match metrics t !! path with
    | Some m => m
    | None =>
        {| Path := path; Count := 0; TotalTime := 0; AverageTime := 0;
           MinTime := duration; MaxTime := duration |}
    end in
  let count := Int.add (Count m) 1 in
  let total := Int.add (TotalTime m) duration in
  if count =? 0 then Panics
  else
    let average := Int.div total count in
    let min := if duration <? MinTime m then duration else MinTime m in
    let max := if duration >? MaxTime m then duration else MaxTime m in
    let m := {| Path := Path m; Count := count; TotalTime := total;
                AverageTime := average; MinTime := min; MaxTime := max |} in
    let s := tracked_store t in
    Returns
      {| metrics := <[path := m]> (metrics t);
         tracked_store :=
           set_stats s
             (set_RequestsByPath (stats s)
                (incr path (RequestsByPath (stats s)))) |}.

(** Calls of [trackPerformance] for the same path, one after the
    other. *)
Fixpoint track_all (path : string) (durations : list Z) (t : Tracked)
  : result Tracked :=
  match durations with
  | [] => Returns t
  | d :: durations' =>
      match trackPerformance path d t with
      | Returns t' => track_all path durations' t'
      | Panics => Panics
      end
  end.

(** *** createUser and handleWebSocket with the hub *)

(** [createUser] up to its answer: the store is written first, then, when
    [hub] is not nil, the message is handed to [hub.BroadcastMessage],
    and only then the answer is written.  The store is the first
    component because it is written even when the send does not
    return. *)
Definition createUser_notify (unicode_lower : string -> string)
    (now now_msg : time) (body : option CreateInput) (s : Store)
    (hub : option Websocket.State)
  : Store * Websocket.outcome (Response User * option Websocket.State) :=
  let '(s', resp, published) := createUser unicode_lower now now_msg body s in
  match published, hub with
  | Some msg, Some h =>
      (s', Websocket.bind (Websocket.BroadcastMessage msg h)
             (fun h' => Websocket.Done (resp, Some h')))
  | _, _ => (s', Websocket.Done (resp, hub))
  end.


End Reports.

(* ===================================================================== *)
(** ** The handlers as a client sees them: vocabulary                    *)
(* ===================================================================== *)

Module HandlerSpec.

Import Server StoreSpec.

Local Open Scope list_scope.
Local Open Scope Z_scope.

(** The requests of a batch that pass the two checks of the loop of
    [batchCreateUsers]: a name, an email, and an email that matches. *)
Definition batch_accepts (unicode_lower : string -> string)
    (r : CreateInput * Z) : bool :=
  nonempty (in_Name r.1) && nonempty (in_Email r.1) &&
  valid_email unicode_lower (in_Email r.1).

(** The record of a request of a batch under the identifier [id]. *)
Definition batch_user (id : Z) (r : CreateInput * Z) : User :=
  {| ID := id; Name := in_Name r.1; Email := in_Email r.1;
     Age := in_Age r.1; Country := in_Country r.1; Active := true;
     CreatedAt := r.2; UpdatedAt := r.2 |}.

(** Consecutive identifiers from [id] on, one for each request. *)
Fixpoint batch_users (id : Z) (rs : list (CreateInput * Z)) : list User :=
  match rs with
  | [] => []
  | r :: rs' => batch_user id r :: batch_users (id + 1) rs'
  end.

(** A request of a batch as the arguments of a call of [createUser]. *)
Definition as_single (r : CreateInput * Z) : Z * Z * CreateInput :=
  (r.2, r.2, r.1).

(** The record that an answer of [createUser] carries. *)
Definition created_of (r : Response User) : list User :=
  match r with
  | respondJSON _ user => [user]
  | respondError _ _ => []
  end.

(** One pass of the inner loop of the sort, on the part of the slice from
    position [i] on: [x] is the element at [i], [done] the elements
    already compared with it, [todo] the elements still to compare. *)
Fixpoint select_pass (test : User -> User -> bool) (x : User)
    (done todo : list User) : User * list User :=
  match todo with
  | [] => (x, done)
  | y :: todo' =>
      if test x y then select_pass test y (done ++ [x]) todo'
      else select_pass test x (done ++ [y]) todo'
  end.

(** The passes of the outer loop, one for each position. *)
Fixpoint select_sort (test : User -> User -> bool) (fuel : nat)
    (l : list User) : list User :=
  match fuel, l with
  | S fuel', x :: rest =>
      let r := select_pass test x [] rest in
      r.1 :: select_sort test fuel' r.2
  | _, _ => l
  end.

(** The order of Go's [<=] on the names. *)
Definition name_le (a b : User) : Prop :=
  Strings.ltb (Name b) (Name a) = false.

(** A comparison of the sort never asks for a swap in both directions,
    and "no swap" is transitive. *)
Definition swap_test_ok (test : User -> User -> bool) : Prop :=
  (∀ a b, test a b = true → test b a = false) ∧
  (∀ a b c, test a b = false → test b c = false → test a c = false).

(** The order that a sort key and a direction ask for; [None] for a key
    that [getUsers] does not know. *)
Definition sort_order (sortBy order : string)
  : option (User -> User -> Prop) :=
  let dir (R : User -> User -> Prop) : User -> User -> Prop :=
    if String.eqb order "desc" then (fun a b => R b a) else R in
  if String.eqb sortBy "name" then Some (dir name_le)
  else if String.eqb sortBy "age" then Some (dir (fun a b => Age a <= Age b))
  else if String.eqb sortBy "created"
  then Some (dir (fun a b => CreatedAt a <= CreatedAt b))
  else None.


(** The smallest number of pages of [perPage] records that hold [total]
    records. *)
Definition pages_needed (total perPage : Z) : Z :=
  (total + perPage - 1) / perPage.

(** The table of the seeded store, in the order of its enumeration. *)
Definition seeded_visit : list (Z * User) :=
  map_to_list (users (fresh_server 0 0)).

(** A query none of whose paging parameters is usable. *)
Definition garbled_query : ListQuery :=
  {| q_page := "abc"; q_per_page := "-5"; q_sort := "age"; q_order := "desc" |}.


(** A batch whose second request has an email without a top-level
    domain. *)
Definition mixed_batch : list (CreateInput * Z) :=
  [(alice, 10); (eve, 11); (bob, 12)].

Definition methuselah : CreateInput :=
  {| in_Name := "Methuselah"; in_Email := "m@example.com"; in_Age := 969;
     in_Country := "" |}.

End HandlerSpec.

Module ReportSpec.

Import Server StoreSpec Reports.

Local Open Scope list_scope.
Local Open Scope Z_scope.

(** How many records of a list pass a test. *)
Definition count_where (P : User -> bool) (l : list User) : Z :=
  Z.of_nat (length (filter (fun u => P u = true) l)).

Definition in_country (c : string) (u : User) : bool :=
  String.eqb (Country u) c.

(** The records that count for the average age: those with a positive
    age. *)
Definition has_age (u : User) : bool := Age u >? 0.

Definition age_total (l : list User) : Z :=
  foldr Z.add 0 (Age <$> filter (fun u => has_age u = true) l).

(** The records of the table. *)
Definition records (s : Store) : list User := (map_to_list (users s)).*2.

(** The entry of the country [c] in a report over the records [l]:
    countries without a record, and the empty country, have none. *)
Definition country_entry (c : string) (l : list User) : option Z :=
  if decide (c ≠ "" ∧ 0 < count_where (in_country c) l)
  then Some (count_where (in_country c) l) else None.

(** The cell of a path that was tracked for the durations [ds], the
    first of which is [d0]. *)
Definition tracks (path : string) (d0 : Z) (ds : list Z)
    (m : PerformanceMetrics) : Prop :=
  Path m = path ∧
  Count m = Z.of_nat (length (d0 :: ds)) ∧
  TotalTime m = foldr Z.add 0 (d0 :: ds) ∧
  AverageTime m = Z.quot (TotalTime m) (Count m) ∧
  MinTime m = foldr Z.min d0 ds ∧
  MaxTime m = foldr Z.max d0 ds.

(** No metrics, and the store as [StartServer] leaves it. *)
Definition untracked : Tracked :=
  {| metrics := ∅; tracked_store := fresh_server 0 0 |}.

(** A clock for the examples: durations are differences of instants,
    taken as whole seconds and printed without their digits. *)
Definition since_example (now t : Z) : Z := now - t.
Definition round_example (d : Z) : Z := d.
Definition string_example (d : Z) : string := if d =? 0 then "0s" else "s".

(** The world after one creation on the seeded store. *)
Definition alice_world : World :=
  step no_unicode (POST_users 10 11 (Some alice)) (init_world 0 0).

End ReportSpec.

Module PumpSpec.

Import Websocket HubSpec Pumps.

Local Open Scope list_scope.
Local Open Scope Z_scope.

(** The events that the program can produce on the hub [st]: [Run]
    receives on [h.register] a client that [handleWebSocket] allocated
    and whose queue nobody has closed, and ranges over [h.clients]. *)
Definition admissible (ev : hub_event) (st : State) : Prop :=
  match ev with
  | Iterate (case_register c _) =>
      ∃ cl, heap st !! c = Some cl ∧ closed (Send cl) = false
  | Iterate (case_broadcast order) => range_of st order
  | _ => True
  end.

(** The same for an activity; [Shutdown] ranges over [h.clients]. *)
Definition possible (a : activity) (st : State) : Prop :=
  match a with
  | Registers c _ _ =>
      ∃ cl, heap st !! c = Some cl ∧ closed (Send cl) = false
  | Services order | Calls (Shuts_down _ order) => range_of st order
  | _ => True
  end.

(** The event cannot proceed on the hub [st]: the broadcast case with
    nothing to receive, a send on [h.broadcast] with a full buffer. *)
Definition hub_waits (ev : hub_event) (st : State) : Prop :=
  match ev with
  | Iterate (case_broadcast _) => buf (broadcast st) = []
  | Iterate (case_ticker _ _) | Publish _ => full (broadcast st) = true
  | _ => False
  end.

(** A channel with the messages [ms] enqueued. *)
Definition append (ms : list Message) (ch : chan) : chan :=
  {| buf := buf ch ++ ms; cap := cap ch; closed := closed ch |}.

(** The hub after the messages [ms] went to every registered client. *)
Definition fanned (ms : list Message) (st st' : State) : Prop :=
  clients st' = clients st ∧
  ∀ c, heap st' !! c =
       match clients st !! c with
       | Some _ => (fun cl => set_Send cl (append ms (Send cl))) <$> heap st !! c
       | None => heap st !! c
       end.

Definition is_ping (f : frame) : bool :=
  match f with
  | PingMessage => true
  | _ => false
  end.

(** The frames other than pings. *)
Definition payload (fs : list frame) : list frame :=
  filter (fun f => is_ping f = false) fs.

Definition is_Send (pc : pump_case) : bool :=
  match pc with
  | case_Send _ _ => true
  | case_tick _ => false
  end.

(** The transport reports no error in the iteration. *)
Definition succeeds (pc : pump_case) : bool :=
  match pc with
  | case_Send marshal_ok write_ok => marshal_ok && write_ok
  | case_tick write_ok => write_ok
  end.

(** A message read from the transport with the two readings of the
    clock of its iteration, and the echo that [ReadPump] publishes for
    it. *)
Definition as_read (r : Message * Z * Z) : read_result :=
  read_message r.1.1 r.1.2 r.2.

Definition echo_of (id : string) (r : Message * Z * Z) : Message :=
  echo id (set_Timestamp r.1.1 r.1.2) r.2.

(** The message that [createUser] publishes for a record. *)
Definition user_created (user : Server.User) (now_msg : Z) : Message :=
  {| Type_ := "user_created"; Data := Server.user_data user;
     Timestamp := now_msg |}.



(** A hub without clients on which 256 messages wait to be serviced:
    the buffer of [h.broadcast] is full. *)
Definition jammed_hub : State :=
  {| clients := ∅;
     broadcast := {| buf := replicate 256 (note 0); cap := 256;
                     closed := false |};
     heap := ∅ |}.

(** Client 1 after the unregister case, its welcome still queued. *)
Definition leaving_hub : State :=
  {| clients := ∅;
     broadcast := make_chan 256;
     heap :=
       {[ 1%nat := {| ID := "client_1";
                      Conn := {| conn_closed := false |};
                      Send := {| buf := [welcome "client_1" 0];
                                 cap := 256; closed := true |} |} ]} |}.

End PumpSpec.

(* ===================================================================== *)
(** ** The matcher decides the language of the expression                 *)
(* ===================================================================== *)

Module RegexpProofs.

Import Regexp.












End RegexpProofs.


(* ===================================================================== *)
(** ** Properties of the store                                            *)
(* ===================================================================== *)

Module StoreProofs.

Import Server StoreSpec.

Local Open Scope list_scope.
Local Open Scope Z_scope.

Lemma wrap_id (z : Z) : Int.in_range z → Int.wrap z = z.
Proof.
  unfold Int.in_range, Int.wrap, Int.min_int, Int.max_int. intros Hz.
  rewrite Z.mod_small; lia.
Qed.

Lemma add_1_no_overflow (n : Z) :
  Int.min_int <= n < Int.max_int → Int.add n 1 = n + 1.
Proof.
  intros Hn. unfold Int.add. apply wrap_id.
  unfold Int.in_range, Int.min_int, Int.max_int in *. lia.
Qed.

Lemma gtb_false_le (a b : Z) : (a >? b) = false ↔ a <= b.
Proof. rewrite Z.gtb_ltb, Z.ltb_ge. reflexivity. Qed.

Lemma gtb_true_lt (a b : Z) : (a >? b) = true ↔ b < a.
Proof. rewrite Z.gtb_ltb, Z.ltb_lt. reflexivity. Qed.

Lemma nonempty_true (s : string) : nonempty s = true ↔ s ≠ "".
Proof.
  unfold nonempty. rewrite negb_true_iff. apply String.eqb_neq.
Qed.

Lemma nonempty_false (s : string) : nonempty s = false ↔ s = "".
Proof.
  unfold nonempty. rewrite negb_false_iff. apply String.eqb_eq.
Qed.

(** *** The primitives on concrete inputs *)

Example ToLower_ascii :
  Strings.ToLower no_unicode "John.Smith@Example.COM" = "john.smith@example.com".
Proof. reflexivity. Qed.

Example Contains_examples :
  Strings.Contains "john smith" "smi" = true ∧
  Strings.Contains "john smith" "" = true ∧
  Strings.Contains "john smith" "smith " = false.
Proof. repeat split. Qed.

Example emailRegex_accepts :
  valid_email no_unicode "alice@example.com" = true ∧
  valid_email no_unicode "Bob.Builder+x@Mail.Example.org" = true ∧
  valid_email no_unicode "a_b%c-d@x-y.io" = true.
Proof. vm_compute. repeat split. Qed.

Example emailRegex_rejects :
  valid_email no_unicode "alice" = false ∧
  valid_email no_unicode "alice@example" = false ∧
  valid_email no_unicode "alice@example.c" = false ∧
  valid_email no_unicode "alice@example.c0m" = false ∧
  valid_email no_unicode "@example.com" = false ∧
  valid_email no_unicode "alice@.com" = false ∧
  valid_email no_unicode "al ice@example.com" = false ∧
  valid_email no_unicode "alice@exa_mple.com" = false ∧
  valid_email no_unicode "alice@@example.com" = false.
Proof. vm_compute. repeat split. Qed.

Example Atoi_examples :
  Strconv.Atoi "42" = Some 42 ∧ Strconv.Atoi "-7" = Some (-7) ∧
  Strconv.Atoi "+3" = Some 3 ∧ Strconv.Atoi "" = None ∧
  Strconv.Atoi "-" = None ∧ Strconv.Atoi "4x" = None ∧
  Strconv.Atoi "9223372036854775807" = Some Int.max_int ∧
  Strconv.Atoi "9223372036854775808" = None.
Proof. vm_compute. repeat split. Qed.

Example ParseBool_examples :
  Strconv.ParseBool "true" = (true, true) ∧
  Strconv.ParseBool "T" = (true, true) ∧
  Strconv.ParseBool "0" = (false, true) ∧
  Strconv.ParseBool "False" = (false, true) ∧
  Strconv.ParseBool "yes" = (false, false) ∧
  Strconv.ParseBool "tRuE" = (false, false).
Proof. repeat split. Qed.

Example wrap_examples :
  Int.wrap 5 = 5 ∧ Int.wrap (Int.max_int + 1) = Int.min_int ∧
  Int.mul (4611686018427387904 - 1) 4 = -4.
Proof. repeat split. Qed.

Example sort_by_age_desc :
  ID <$> sort_users "age" "desc" (map_to_list (users (fresh_server 0 0))).*2
    = [3; 5; 1; 4; 2].
Proof. vm_compute. reflexivity. Qed.

Example sort_by_name :
  Name <$> sort_users "name" "" (map_to_list (users (fresh_server 0 0))).*2
    = ["Anna Schmidt"; "John Smith"; "Иван Петров"; "Мария Сидорова";
       "Петр Иванов"]%string.
Proof. vm_compute. reflexivity. Qed.

Example getUser_after_delete :
  getUser (Some 2) (deleteUser (Some 2) (fresh_server 0 0)).1
    = respondError StatusNotFound "Пользователь не найден" ∧
  (deleteUser (Some 2) (deleteUser (Some 2) (fresh_server 0 0)).1).2
    = respondError StatusNotFound "Пользователь не найден".
Proof. vm_compute. repeat split. Qed.

Section WithLower.

Variable unicode_lower : string -> string.

Local Abbreviation createUser := (createUser unicode_lower).
Local Abbreviation updateUser := (updateUser unicode_lower).
Local Abbreviation valid_email := (valid_email unicode_lower).
Local Abbreviation valid_input := (valid_input unicode_lower).
Local Abbreviation create_seq := (create_seq unicode_lower).
Local Abbreviation valid_update := (valid_update unicode_lower).


Lemma createUser_valid now now_msg input s :
  valid_input input →
  ∃ msg,
    createUser now now_msg (Some input) s =
      ({| users := <[nextID s := created_user now input s]> (users s);
          nextID := Int.add (nextID s) 1;
          stats := stats s |},
       respondJSON StatusCreated (created_user now input s),
       Some msg).
Proof.
  intros (Hn & He & Hv & Ha).
  unfold Server.createUser.
  apply String.eqb_neq in Hn. apply String.eqb_neq in He.
  rewrite Hn, He. cbn [orb].
  fold (valid_email (in_Email input)). rewrite Hv. cbn [negb].
  assert ((in_Age input <? 0) = false) as -> by (apply Z.ltb_ge; lia).
  assert ((in_Age input >? 150) = false) as -> by (apply gtb_false_le; lia).
  cbn [orb]. eexists. reflexivity.
Qed.

Lemma createUser_invalid now now_msg input s :
  in_Name input = "" ∨ in_Email input = "" ∨
  valid_email (in_Email input) = false ∨
  in_Age input < 0 ∨ 150 < in_Age input →
  ∃ message,
    createUser now now_msg (Some input) s =
      (s, respondError StatusBadRequest message, None).
Proof.
  intros H. unfold Server.createUser.
  fold (valid_email (in_Email input)).
  destruct (String.eqb_spec (in_Name input) "") as [|Hn];
    [cbn; eauto|].
  destruct (String.eqb_spec (in_Email input) "") as [|He];
    [cbn; eauto|].
  cbn [orb].
  destruct (valid_email (in_Email input)) eqn:Hv; [|cbn; eauto].
  cbn [negb].
  destruct (Z.ltb_spec (in_Age input) 0); [cbn; eauto|].
  destruct (in_Age input >? 150) eqn:Hgt; [cbn; eauto|].
  apply gtb_false_le in Hgt.
  exfalso. destruct H as [?|[?|[?|[?|?]]]]; try congruence; lia.
Qed.



Lemma updateUser_valid now id input s u :
  users s !! id = Some u →
  valid_update input →
  updateUser now (Some id) (Some input) s =
    (set_users s (<[id := updated_user now input u]> (users s)),
     respondJSON StatusOK (updated_user now input u)).
Proof.
  intros Hu [He Ha]. unfold Server.updateUser. rewrite Hu.
  fold (valid_email (up_Email input)).
  assert (nonempty (up_Email input) && negb (valid_email (up_Email input))
          = false) as ->.
  { destruct He as [He|He].
    - apply nonempty_false in He. rewrite He. reflexivity.
    - rewrite He. apply andb_false_r. }
  unfold updated_user.
  destruct (up_Age input) as [age|] eqn:Hage.
  - specialize (Ha age eq_refl).
    assert ((age <? 0) = false) as -> by (apply Z.ltb_ge; lia).
    assert ((age >? 150) = false) as -> by (apply gtb_false_le; lia).
    cbn [orb].
    destruct u; destruct (nonempty (up_Name input)),
      (nonempty (up_Email input)), (nonempty (up_Country input)); reflexivity.
  - destruct u; destruct (nonempty (up_Name input)),
      (nonempty (up_Email input)), (nonempty (up_Country input)); reflexivity.
Qed.

Lemma updateUser_invalid now id input s u :
  users s !! id = Some u →
  ¬ valid_update input →
  ∃ message,
    updateUser now (Some id) (Some input) s =
      (s, respondError StatusBadRequest message).
Proof.
  intros Hu Hbad. unfold Server.updateUser. rewrite Hu.
  fold (valid_email (up_Email input)).
  destruct (nonempty (up_Email input) && negb (valid_email (up_Email input)))
    eqn:Hem; [eexists; reflexivity|].
  assert (up_Email input = "" ∨ valid_email (up_Email input) = true) as He.
  { apply andb_false_iff in Hem as [H|H];
      [left; apply nonempty_false; exact H
      |right; apply negb_false_iff; exact H]. }
  destruct (up_Age input) as [age|] eqn:Hage.
  - destruct ((age <? 0) || (age >? 150)) eqn:Hr; [eexists; reflexivity|].
    apply orb_false_iff in Hr as [H1 H2].
    apply Z.ltb_ge in H1. apply gtb_false_le in H2.
    exfalso. apply Hbad. split; [exact He|].
    intros a Ha. rewrite Hage in Ha. injection Ha as <-. lia.
  - exfalso. apply Hbad. split; [exact He|].
    intros a Ha. rewrite Hage in Ha. discriminate Ha.
Qed.

(** Every answer of [updateUser]: an error that leaves the store as it
    was, or the success described by [updateUser_valid]. *)
Lemma updateUser_cases now id body s :
  (∃ status message,
     updateUser now id body s = (s, respondError status message)) ∨
  (∃ i input u,
     id = Some i ∧ body = Some input ∧ users s !! i = Some u ∧
     valid_update input ∧
     updateUser now id body s =
       (set_users s (<[i := updated_user now input u]> (users s)),
        respondJSON StatusOK (updated_user now input u))).
Proof.
  destruct id as [i|]; [|left; cbn; eauto].
  destruct body as [input|]; [|left; cbn; eauto].
  destruct (users s !! i) as [u|] eqn:Hu;
    [|left; unfold Server.updateUser; rewrite Hu; eauto].
  assert (valid_update input ∨ ¬ valid_update input) as [Hv|Hv].
  { unfold valid_update.
    assert ((up_Email input = "" ∨ valid_email (up_Email input) = true) ∨
            ¬ (up_Email input = "" ∨ valid_email (up_Email input) = true))
      as Hdec_e.
    { destruct (String.eqb_spec (up_Email input) ""); [auto|].
      destruct (valid_email (up_Email input)); [auto|].
      right. intros [?|?]; congruence. }
    assert ((∀ age, up_Age input = Some age → 0 <= age <= 150) ∨
            ¬ (∀ age, up_Age input = Some age → 0 <= age <= 150))
      as Hdec_a.
    { destruct (up_Age input) as [a|]; [|left; intros ? [=]].
      destruct (Z_le_dec 0 a), (Z_le_dec a 150);
        try (right; intros H; specialize (H a eq_refl); lia).
      left. intros ? [= <-]. lia. }
    tauto. }
  - right. exists i, input, u.
    split; [reflexivity|]. split; [reflexivity|].
    split; [exact Hu|]. split; [exact Hv|].
    apply updateUser_valid; assumption.
  - left. destruct (updateUser_invalid now i input s u Hu Hv) as [m Hm].
    eauto.
Qed.

(** C4, as the code has it.  On an existing user, an [updateUser] whose
    supplied fields pass the checks succeeds (and only such a call
    succeeds); the stored and returned record has every field that was
    not supplied (empty string, nil age) equal to its value before,
    every supplied field equal to the supplied value, the same
    identifier, active flag and [created_at], and [updated_at] equal to
    the reading of the clock that the call takes: strictly later than
    the value before when the clock has advanced past it.  No other
    record of the table changes. *)
Theorem updateUser_frame (now id : Z) (input : UpdateInput) (s : Store) (u : User) :
  users s !! id = Some u →
  ((∃ u' s', updateUser now (Some id) (Some input) s
             = (s', respondJSON StatusOK u')) ↔ valid_update input) ∧
  (∀ u' s',
     updateUser now (Some id) (Some input) s = (s', respondJSON StatusOK u') →
     users s' !! id = Some u' ∧
     (∀ j, j ≠ id → users s' !! j = users s !! j) ∧
     nextID s' = nextID s ∧
     (up_Name input = "" → Name u' = Name u) ∧
     (up_Name input ≠ "" → Name u' = up_Name input) ∧
     (up_Email input = "" → Email u' = Email u) ∧
     (up_Email input ≠ "" → Email u' = up_Email input) ∧
     (up_Age input = None → Age u' = Age u) ∧
     (∀ age, up_Age input = Some age → Age u' = age) ∧
     (up_Country input = "" → Country u' = Country u) ∧
     (up_Country input ≠ "" → Country u' = up_Country input) ∧
     ID u' = ID u ∧ Active u' = Active u ∧
     CreatedAt u' = CreatedAt u ∧
     UpdatedAt u' = now ∧
     (UpdatedAt u < now → UpdatedAt u < UpdatedAt u')).
Proof.
  intros Hu. split.
  - split.
    + intros (u' & s' & Hup).
      destruct (updateUser_cases now (Some id) (Some input) s)
        as [(st & m & H)|(i & inp & u0 & Hi & Hb & _ & Hv & _)].
      * rewrite H in Hup. discriminate.
      * injection Hb as <-. exact Hv.
    + intros Hv. eexists _, _. apply updateUser_valid; eassumption.
  - intros u' s' Hup.
    destruct (updateUser_cases now (Some id) (Some input) s)
      as [(st & m & H)|(i & inp & u0 & Hi & Hb & Hu0 & Hv & H)].
    { rewrite H in Hup. discriminate. }
    injection Hi as <-. injection Hb as <-.
    rewrite Hu in Hu0. injection Hu0 as <-.
    rewrite H in Hup. injection Hup as <- <-.
    cbn [users set_users nextID].
    split; [apply lookup_insert_eq|].
    split; [intros j Hj; apply lookup_insert_ne; congruence|].
    split; [reflexivity|].
    cbn [updated_user ID Name Email Age Country Active CreatedAt UpdatedAt].
    repeat split.
    + intros ->. reflexivity.
    + intros Hn. apply nonempty_true in Hn. rewrite Hn. reflexivity.
    + intros ->. reflexivity.
    + intros Hn. apply nonempty_true in Hn. rewrite Hn. reflexivity.
    + intros ->. reflexivity.
    + intros age ->. reflexivity.
    + intros ->. reflexivity.
    + intros Hn. apply nonempty_true in Hn. rewrite Hn. reflexivity.
    + auto.
Qed.

(** C9.  Whenever [createUser] or [updateUser] answers an error, the
    store after the call is the store before it (the table, the counter
    and the statistics), and [createUser] publishes nothing; [createUser]
    on an input that fails a check and [updateUser] on a malformed email
    or an out-of-range age do answer such an error, with status 400. *)
Theorem validation_error_keeps_store (now now_msg : Z) (s : Store) :
  (∀ body s' status message published,
     createUser now now_msg body s
       = (s', respondError status message, published) →
     s' = s ∧ published = None) ∧
  (∀ id body s' status message,
     updateUser now id body s = (s', respondError status message) →
     s' = s) ∧
  (∀ input,
     ¬ valid_input input →
     ∃ message,
       createUser now now_msg (Some input) s
         = (s, respondError StatusBadRequest message, None)) ∧
  (∀ id input u,
     users s !! id = Some u →
     (up_Email input ≠ "" ∧ valid_email (up_Email input) = false) ∨
     (∃ age, up_Age input = Some age ∧ (age < 0 ∨ 150 < age)) →
     ∃ message,
       updateUser now (Some id) (Some input) s
         = (s, respondError StatusBadRequest message)).
Proof.
  split; [|split; [|split]].
  - intros body s' status message published H.
    destruct body as [input|]; [|cbn in H; split; congruence].
    assert (valid_input input ∨
            (in_Name input = "" ∨ in_Email input = "" ∨
             valid_email (in_Email input) = false ∨
             in_Age input < 0 ∨ 150 < in_Age input)) as [Hv|Hbad].
    { unfold StoreSpec.valid_input.
      destruct (String.eqb_spec (in_Name input) ""); [auto|].
      destruct (String.eqb_spec (in_Email input) ""); [auto|].
      destruct (valid_email (in_Email input)); [|auto].
      destruct (Z_lt_dec (in_Age input) 0); [auto 6|].
      destruct (Z_lt_dec 150 (in_Age input)); [auto 6|].
      left. repeat split; auto; lia. }
    + destruct (createUser_valid now now_msg input s Hv) as [m Hc].
      rewrite Hc in H. discriminate.
    + destruct (createUser_invalid now now_msg input s Hbad) as [m Hc].
      rewrite Hc in H. split; congruence.
  - intros id body s' status message H.
    destruct (updateUser_cases now id body s)
      as [(st & m & Hc)|(i & inp & u0 & _ & _ & _ & _ & Hc)];
      rewrite Hc in H; [congruence|discriminate].
  - intros input Hbad. apply createUser_invalid.
    unfold StoreSpec.valid_input in Hbad.
    destruct (String.eqb_spec (in_Name input) ""); [auto|].
    destruct (String.eqb_spec (in_Email input) ""); [auto|].
    destruct (valid_email (in_Email input)) eqn:Hv; [|auto].
    destruct (Z_lt_dec (in_Age input) 0); [auto 6|].
    destruct (Z_lt_dec 150 (in_Age input)); [auto 6|].
    exfalso. apply Hbad. repeat split; auto; lia.
  - intros id input u Hu Hbad. apply (updateUser_invalid now id input s u Hu).
    intros [He Ha]. destruct Hbad as [[Hne Hm]|(age & Hage & Hr)].
    + destruct He; congruence.
    + specialize (Ha age Hage). lia.
Qed.

(** *** The invariant of the store *)

Lemma foldr_max_ge (clk : Z) (l : list Z) : clk <= foldr Z.max clk l.
Proof. induction l as [|x l IH]; cbn; lia. Qed.

Lemma foldr_max_elem (clk : Z) (l : list Z) (x : Z) :
  x ∈ l → x <= foldr Z.max clk l.
Proof.
  induction l as [|y l IH]; intros Hx.
  - inversion Hx.
  - apply elem_of_cons in Hx as [->|Hx]; cbn; [lia|].
    specialize (IH Hx). lia.
Qed.

Lemma store_inv_clock (clk clk' : Z) (log : list Z) (s : Store) :
  clk <= clk' → store_inv clk log s → store_inv clk' log s.
Proof.
  intros Hle (Hent & Hlt & Hs & Hmin). repeat split; try assumption.
  all: destruct (Hent id u H) as (? & ? & ? & ?); try assumption. lia.
Qed.

Lemma sorted_snoc (log : list Z) (x : Z) :
  StronglySorted Z.lt log → Forall (λ i, i < x) log →
  StronglySorted Z.lt (log ++ [x]).
Proof.
  induction 1 as [|y log Hs IH Hy]; intros Hall; cbn.
  - repeat constructor.
  - apply Forall_cons in Hall as [Hyx Hall].
    constructor; [apply IH, Hall|].
    apply Forall_app. split; [exact Hy|]. repeat constructor. exact Hyx.
Qed.

Lemma sorted_app_lt (l1 l2 : list Z) (x y : Z) :
  StronglySorted Z.lt (l1 ++ l2) → x ∈ l1 → y ∈ l2 → x < y.
Proof.
  induction l1 as [|z l1 IH]; intros Hs Hx Hy.
  - inversion Hx.
  - cbn in Hs. apply StronglySorted_inv in Hs as [Hs Hz].
    apply elem_of_cons in Hx as [->|Hx]; [|apply IH; assumption].
    rewrite Forall_forall in Hz. apply Hz. apply elem_of_app. right. exact Hy.
Qed.

Lemma store_inv_touch (clk : Z) (log : list Z) (s : Store) (id : Z) (u u' : User) :
  store_inv clk log s →
  users s !! id = Some u →
  ID u' = ID u → CreatedAt u' <= UpdatedAt u' → UpdatedAt u' <= clk →
  store_inv clk log (set_users s (<[id := u']> (users s))).
Proof.
  intros (Hent & Hlt & Hs & Hmin) Hu Hid Hcu Huc.
  repeat split; try assumption.
  all: cbn [users set_users] in H;
    apply lookup_insert_Some in H as [[<- <-]|[Hne H]];
    [destruct (Hent _ _ Hu) as (? & ? & ? & ?)
    |destruct (Hent _ _ H) as (? & ? & ? & ?)];
    first [assumption | congruence].
Qed.

Lemma store_inv_delete (clk : Z) (log : list Z) (s : Store) (id : Z) :
  store_inv clk log s →
  store_inv clk log (set_users s (delete id (users s))).
Proof.
  intros (Hent & Hlt & Hs & Hmin). repeat split; try assumption.
  all: cbn [users set_users] in H;
    apply lookup_delete_Some in H as [Hne H];
    destruct (Hent _ _ H) as (? & ? & ? & ?); assumption.
Qed.

Lemma store_inv_create (clk : Z) (log : list Z) (s : Store) (u : User) :
  store_inv clk log s →
  ID u = nextID s → CreatedAt u <= UpdatedAt u → UpdatedAt u <= clk →
  nextID s < Int.max_int →
  store_inv clk (log ++ [nextID s])
    {| users := <[nextID s := u]> (users s);
       nextID := Int.add (nextID s) 1;
       stats := stats s |}.
Proof.
  intros (Hent & Hlt & Hs & Hmin) Hid Hcu Huc Hmax.
  assert (Int.add (nextID s) 1 = nextID s + 1) as Hnext
    by (apply add_1_no_overflow; lia).
  split; [|split; [|split]].
  - intros id u0 H. cbn [users] in H.
    apply lookup_insert_Some in H as [[<- <-]|[Hne H]].
    + repeat split; try assumption. apply elem_of_app. right. constructor.
    + destruct (Hent _ _ H) as (? & ? & ? & ?).
      repeat split; try assumption. apply elem_of_app. left. assumption.
  - cbn [nextID]. rewrite Hnext. apply Forall_app. split.
    + eapply Forall_impl; [exact Hlt|]. cbn. intros. lia.
    + repeat constructor. lia.
  - apply sorted_snoc; assumption.
  - cbn [nextID]. lia.
Qed.

Lemma batch_create_loop_inv (clk : Z) (reqs : list (CreateInput * Z)) :
  ∀ (s : Store) (acc : list User) (log : list Z),
    store_inv clk log s →
    Forall (λ t, t <= clk) reqs.*2 →
    nextID s + Z.of_nat (length reqs) <= Int.max_int →
    ∃ new,
      (batch_create_loop unicode_lower reqs acc s).2 = (acc ++ new)%list ∧
      store_inv clk (log ++ (ID <$> new))
        (batch_create_loop unicode_lower reqs acc s).1.
Proof.
  induction reqs as [|[userReq now] reqs IH]; intros s acc log Hinv Hclk Hmax.
  - exists []. cbn. rewrite !app_nil_r. auto.
  - rewrite fmap_cons in Hclk. apply Forall_cons in Hclk as [Hnow Hclk].
    cbn [snd] in Hnow. cbn [length] in Hmax.
    assert (Hinv' := Hinv). destruct Hinv' as (_ & _ & _ & Hmin).
    cbn [batch_create_loop].
    destruct (String.eqb (in_Name userReq) "" || String.eqb (in_Email userReq) "");
      [apply IH; [assumption|assumption|lia]|].
    destruct (negb (Server.valid_email unicode_lower (in_Email userReq)));
      [apply IH; [assumption|assumption|lia]|].
    set (user := {| ID := nextID s; Name := _ |}).
    unfold set_nextID, set_users. cbn [users nextID stats].
    destruct (IH {| users := <[nextID s := user]> (users s);
                    nextID := Int.add (nextID s) 1; stats := stats s |}
                 (acc ++ [user]) (log ++ [nextID s]))
      as (new & Hres & Hinv2).
    + apply store_inv_create; try assumption; try reflexivity;
        cbn [CreatedAt UpdatedAt user]; lia.
    + assumption.
    + cbn [nextID]. rewrite add_1_no_overflow by lia. lia.
    + exists (user :: new). rewrite Hres. split.
      * rewrite <- app_assoc. reflexivity.
      * rewrite fmap_cons. cbn [ID user].
        rewrite <- app_assoc in Hinv2. exact Hinv2.
Qed.

Lemma batch_delete_loop_inv (clk : Z) (log : list Z) (ids : list Z) :
  ∀ (s : Store) (acc : list Z),
    store_inv clk log s →
    store_inv clk log (batch_delete_loop ids acc s).1.
Proof.
  induction ids as [|id ids IH]; intros s acc Hinv; [exact Hinv|].
  cbn [batch_delete_loop]. destruct (users s !! id).
  - apply IH, store_inv_delete, Hinv.
  - apply IH, Hinv.
Qed.

Lemma valid_input_cases (input : CreateInput) :
  valid_input input ∨
  (in_Name input = "" ∨ in_Email input = "" ∨
   valid_email (in_Email input) = false ∨
   in_Age input < 0 ∨ 150 < in_Age input).
Proof.
  unfold StoreSpec.valid_input.
  destruct (String.eqb_spec (in_Name input) ""); [auto|].
  destruct (String.eqb_spec (in_Email input) ""); [auto|].
  destruct (Server.valid_email unicode_lower (in_Email input)); [|auto].
  destruct (Z_lt_dec (in_Age input) 0); [auto 6|].
  destruct (Z_lt_dec 150 (in_Age input)); [auto 6|].
  left. repeat split; auto; lia.
Qed.

Lemma inv_init (start now : Z) : inv (init_world start now).
Proof.
  unfold inv.
  cbv beta iota zeta delta
    [store_inv init_world fresh_server initTestData store
     w_store w_clock w_assigned users nextID].
  split; [|split; [|split]].
  - intros id u H.
    repeat (apply lookup_insert_Some in H as [[<- <-]|[? H]];
            [cbn; split; [reflexivity|]; split; [lia|]; split; [lia|];
             set_solver|]).
    rewrite lookup_empty in H. discriminate.
  - repeat constructor.
  - repeat constructor.
  - unfold Int.min_int. lia.
Qed.

Lemma inv_step (r : request) (w : World) :
  inv w → clock_ok r w → no_overflow r w → inv (step unicode_lower r w).
Proof.
  destruct w as [s clk log]. unfold inv, clock_ok, no_overflow, step.
  cbn [w_store w_clock w_assigned]. intros Hinv Hclk Hmax.
  pose proof (foldr_max_ge clk (readings r)) as Hge.
  assert (store_inv (foldr Z.max clk (readings r)) log s) as Hinv'
    by (eapply store_inv_clock; eassumption).
  destruct r as [now now_msg body|now id body|id|now id|now id|body|body];
    cbn [handle readings creations] in *.
  - (* createUser *)
    destruct body as [input|];
      [|cbn; rewrite app_nil_r; exact Hinv'].
    destruct (valid_input_cases input) as [Hv|Hbad].
    + destruct (createUser_valid now now_msg input s Hv) as [m ->].
      cbn [ids_of_created ID created_user w_store w_clock w_assigned].
      apply store_inv_create; try assumption; try reflexivity;
        cbn [created_user CreatedAt UpdatedAt foldr]; lia.
    + destruct (createUser_invalid now now_msg input s Hbad) as [m ->].
      cbn. rewrite app_nil_r. exact Hinv'.
  - (* updateUser *)
    rewrite app_nil_r. cbn [w_store w_clock w_assigned].
    apply Forall_cons in Hclk as [Hnow _].
    destruct (updateUser_cases now id body s)
      as [(st & m & ->)|(i & inp & u & _ & _ & Hu & _ & ->)];
      [exact Hinv'|]. cbn [fst].
    destruct Hinv as (Hent & _). destruct (Hent _ _ Hu) as (? & ? & ? & ?).
    eapply store_inv_touch; [exact Hinv'|exact Hu|..];
      cbn [updated_user ID CreatedAt UpdatedAt foldr]; lia.
  - (* deleteUser *)
    rewrite app_nil_r. cbn [w_store w_clock w_assigned].
    unfold deleteUser. destruct id as [i|]; [|exact Hinv'].
    destruct (users s !! i); [|exact Hinv'].
    apply store_inv_delete. exact Hinv'.
  - (* activateUser *)
    rewrite app_nil_r. cbn [w_store w_clock w_assigned].
    apply Forall_cons in Hclk as [Hnow _].
    unfold activateUser. destruct id as [i|]; [|exact Hinv'].
    destruct (users s !! i) as [u|] eqn:Hu; [|exact Hinv']. cbn [fst].
    destruct Hinv as (Hent & _). destruct (Hent _ _ Hu) as (? & ? & ? & ?).
    eapply store_inv_touch; [exact Hinv'|exact Hu|..];
      cbn [set_UpdatedAt set_Active ID CreatedAt UpdatedAt foldr]; lia.
  - (* deactivateUser *)
    rewrite app_nil_r. cbn [w_store w_clock w_assigned].
    apply Forall_cons in Hclk as [Hnow _].
    unfold deactivateUser. destruct id as [i|]; [|exact Hinv'].
    destruct (users s !! i) as [u|] eqn:Hu; [|exact Hinv']. cbn [fst].
    destruct Hinv as (Hent & _). destruct (Hent _ _ Hu) as (? & ? & ? & ?).
    eapply store_inv_touch; [exact Hinv'|exact Hu|..];
      cbn [set_UpdatedAt set_Active ID CreatedAt UpdatedAt foldr]; lia.
  - (* batchCreateUsers *)
    destruct body as [reqs|]; [|cbn; rewrite app_nil_r; exact Hinv'].
    unfold batchCreateUsers.
    destruct (length reqs =? 0)%nat; [cbn; rewrite app_nil_r; exact Hinv'|].
    destruct (100 <? length reqs)%nat; [cbn; rewrite app_nil_r; exact Hinv'|].
    destruct (batch_create_loop_inv (foldr Z.max clk reqs.*2) reqs s [] log)
      as (new & Hres & Hinv2); [exact Hinv'| |exact Hmax|].
    { apply Forall_forall. intros t Ht. apply foldr_max_elem. exact Ht. }
    destruct (batch_create_loop unicode_lower reqs [] s) as [s' createdUsers].
    cbn [fst snd app] in Hres, Hinv2. subst createdUsers.
    cbn [ids_of_batch created w_store w_clock w_assigned]. exact Hinv2.
  - (* batchDeleteUsers *)
    rewrite app_nil_r. cbn [w_store w_clock w_assigned].
    unfold batchDeleteUsers. destruct body as [ids|]; [|exact Hinv'].
    destruct (length ids =? 0)%nat; [exact Hinv'|].
    pose proof (batch_delete_loop_inv clk log ids s [] Hinv) as Hd.
    destruct (batch_delete_loop ids [] s) as [s' deleted]. exact Hd.
Qed.

(** C8.  The store as [StartServer] seeds it satisfies the invariant:
    every record is stored under its own identifier (so identifiers are
    unique keys), has [created_at <= updated_at], and the log of the
    identifiers assigned so far increases strictly and lies below the
    counter.  Every request that changes the store (create, update,
    delete, activate, deactivate and the two batch requests) preserves
    it and assigns only identifiers greater than every identifier assigned
    before, deleted or not, provided the clock does not run backwards
    and the counter does not overflow; hence the invariant holds in
    every state reached that way. *)
Theorem store_invariant :
  (∀ start now, inv (init_world start now)) ∧
  (∀ r w,
     inv w → clock_ok r w → no_overflow r w →
     inv (step unicode_lower r w) ∧
     ∀ old new,
       old ∈ w_assigned w →
       new ∈ (handle unicode_lower r (w_store w)).2 →
       old < new) ∧
  (∀ w,
     reachable unicode_lower w →
     inv w ∧
     (∀ id u, users (w_store w) !! id = Some u →
        ID u = id ∧ CreatedAt u <= UpdatedAt u) ∧
     (∀ id1 id2 u1 u2,
        users (w_store w) !! id1 = Some u1 →
        users (w_store w) !! id2 = Some u2 →
        ID u1 = ID u2 → id1 = id2) ∧
     StronglySorted Z.lt (w_assigned w)).
Proof.
  split; [apply inv_init|]. split.
  - intros r w Hinv Hclk Hmax.
    pose proof (inv_step r w Hinv Hclk Hmax) as Hstep.
    split; [exact Hstep|].
    intros old new Hold Hnew.
    destruct Hstep as (_ & _ & Hs & _).
    unfold step in Hs.
    destruct (handle unicode_lower r (w_store w)) as [s' ids].
    cbn [w_assigned snd] in *.
    eapply sorted_app_lt; eassumption.
  - intros w Hr.
    assert (inv w) as Hinv.
    { induction Hr as [start now|r w Hr IH Hclk Hmax];
        [apply inv_init|apply inv_step; assumption]. }
    split; [exact Hinv|].
    destruct Hinv as (Hent & _ & Hs & _).
    split; [|split; [|exact Hs]].
    + intros id u Hu. destruct (Hent _ _ Hu) as (? & ? & ? & ?). auto.
    + intros id1 id2 u1 u2 H1 H2 Heq.
      destruct (Hent _ _ H1) as (<- & _). destruct (Hent _ _ H2) as (<- & _).
      exact Heq.
Qed.

Lemma alice_valid : valid_input alice.
Proof.
  split; [discriminate|]. split; [discriminate|].
  split; [vm_compute; reflexivity|]. cbn. lia.
Qed.


(** C7, as the code has it.  On the store that [StartServer] has seeded
    with its five test users, the first [createUser], for Alice, answers
    a record with identifier 6, active, with equal timestamps; a
    [deactivateUser] of that identifier at a later reading of the clock
    answers the record inactive, with [created_at] unchanged and
    [updated_at] strictly later. *)
Theorem first_create_then_deactivate (start now0 now1 now_msg now2 : Z) :
  now1 < now2 →
  ∃ u s1 msg u' s2,
    createUser now1 now_msg (Some alice) (fresh_server start now0)
      = (s1, respondJSON StatusCreated u, Some msg) ∧
    ID u = 6 ∧ Active u = true ∧ CreatedAt u = UpdatedAt u ∧
    deactivateUser now2 (Some (ID u)) s1 = (s2, respondJSON StatusOK u') ∧
    ID u' = 6 ∧ Active u' = false ∧
    CreatedAt u' = CreatedAt u ∧ CreatedAt u' < UpdatedAt u'.
Proof.
  intros Hlt.
  destruct (createUser_valid now1 now_msg alice (fresh_server start now0)
              alice_valid) as [msg Hc].
  eexists _, _, msg, _, _. split; [exact Hc|].
  split; [reflexivity|]. split; [reflexivity|]. split; [reflexivity|].
  split.
  - unfold deactivateUser. cbn [users ID created_user].
    rewrite lookup_insert_eq. reflexivity.
  - cbn [set_UpdatedAt set_Active created_user ID Active CreatedAt UpdatedAt].
    repeat split; try reflexivity. exact Hlt.
Qed.

(** *** getUsers *)

Lemma swap_length (l : list User) (i j : nat) : length (swap l i j) = length l.
Proof.
  unfold swap. destruct (l !! i), (l !! j); try reflexivity.
  rewrite !length_insert. reflexivity.
Qed.

Lemma inner_loop_length test i fuel : ∀ j (l : list User),
  length (inner_loop test i j fuel l) = length l.
Proof.
  induction fuel as [|fuel IH]; intros j l; [reflexivity|].
  cbn [inner_loop]. destruct (j <? length l)%nat; [|reflexivity].
  rewrite IH. destruct (test_at test l i j); [apply swap_length|reflexivity].
Qed.

Lemma outer_loop_length test fuel : ∀ i (l : list User),
  length (outer_loop test i fuel l) = length l.
Proof.
  induction fuel as [|fuel IH]; intros i l; [reflexivity|].
  cbn [outer_loop]. destruct (i <? length l)%nat; [|reflexivity].
  rewrite IH. apply inner_loop_length.
Qed.

Lemma sort_users_length (sortBy order : string) (l : list User) :
  length (sort_users sortBy order l) = length l.
Proof.
  unfold sort_users, exchange_sort.
  repeat match goal with
         | |- context [if ?b then _ else _] => destruct b
         end; try apply outer_loop_length; reflexivity.
Qed.

Lemma insert_perm (l : list User) : ∀ (j : nat) (a b : User),
  l !! j = Some b → b :: <[j := a]> l ≡ₚ a :: l.
Proof.
  induction l as [|x l IH]; intros [|j] a b Hj; try discriminate.
  - injection Hj as ->. apply Permutation_swap.
  - cbn in Hj. cbn [insert list_insert].
    rewrite (Permutation_swap x b), (IH j a b Hj). apply Permutation_swap.
Qed.

Lemma swap_perm (l : list User) : ∀ i j : nat, swap l i j ≡ₚ l.
Proof.
  unfold swap. induction l as [|x l IH]; intros i j; [destruct i; reflexivity|].
  destruct i as [|i], j as [|j]; cbn [lookup list_lookup].
  - reflexivity.
  - destruct (l !! j) as [b|] eqn:Hj; [|reflexivity].
    cbn [insert list_insert]. apply insert_perm. exact Hj.
  - destruct (l !! i) as [a|] eqn:Hi; [|reflexivity].
    cbn [insert list_insert]. apply insert_perm. exact Hi.
  - specialize (IH i j). fold (@lookup nat User (list User) _) in *.
    destruct (l !! i) as [a|]; [|reflexivity].
    destruct (l !! j) as [b|]; [|reflexivity].
    cbn [insert list_insert]. rewrite IH. reflexivity.
Qed.

Lemma inner_loop_perm test i fuel : ∀ j (l : list User),
  inner_loop test i j fuel l ≡ₚ l.
Proof.
  induction fuel as [|fuel IH]; intros j l; [reflexivity|].
  cbn [inner_loop]. destruct (j <? length l)%nat; [|reflexivity].
  rewrite IH. destruct (test_at test l i j); [apply swap_perm|reflexivity].
Qed.

Lemma outer_loop_perm test fuel : ∀ i (l : list User),
  outer_loop test i fuel l ≡ₚ l.
Proof.
  induction fuel as [|fuel IH]; intros i l; [reflexivity|].
  cbn [outer_loop]. destruct (i <? length l)%nat; [|reflexivity].
  rewrite IH. apply inner_loop_perm.
Qed.

Lemma sort_users_perm (sortBy order : string) (l : list User) :
  sort_users sortBy order l ≡ₚ l.
Proof.
  unfold sort_users, exchange_sort.
  repeat match goal with
         | |- context [if ?b then _ else _] => destruct b
         end; try apply outer_loop_perm; reflexivity.
Qed.

Lemma Atoi_nonempty (str : string) (n : Z) :
  Strconv.Atoi str = Some n → nonempty str = true.
Proof. destruct str; [discriminate|reflexivity]. Qed.

(** The collected list holds the records of the table, each once. *)
Lemma collected_perm (q : ListQuery) (visit : list (Z * User)) (s : Store) :
  range_of s visit → collected q visit ≡ₚ (map_to_list (users s)).*2.
Proof.
  intros Hr. unfold collected. unfold range_of in Hr. rewrite <- Hr.
  destruct (nonempty (q_sort q)); [apply sort_users_perm|reflexivity].
Qed.

Lemma collected_length (q : ListQuery) (visit : list (Z * User)) (s : Store) :
  range_of s visit → length (collected q visit) = size (users s).
Proof.
  intros Hr. rewrite (collected_perm q visit s Hr), length_fmap.
  apply length_map_to_list.
Qed.

(** C5, as the code has it.  For a request whose [page] is at least 1,
    whose [per_page] is between 1 and 100 and whose window end
    [page * per_page] fits an [int], [getUsers] answers 200 with [total]
    the number of records of the table and with [data] the window
    [[(page-1)*perPage, min(total, page*perPage))] of the collected list,
    which holds the records of the table, each once, sorted when the
    query asks for it; the window of a page that starts at or past
    [total] is empty. *)
Theorem getUsers_window (q : ListQuery) (visit : list (Z * User)) (s : Store)
    (page perPage : Z) :
  range_of s visit →
  Strconv.Atoi (q_page q) = Some page →
  Strconv.Atoi (q_per_page q) = Some perPage →
  1 <= page → 1 <= perPage <= 100 → page * perPage <= Int.max_int →
  ∃ resp,
    getUsers q visit = Returns (respondJSON StatusOK resp) ∧
    Total resp = Z.of_nat (size (users s)) ∧
    Page resp = page ∧ PerPage resp = perPage ∧
    collected q visit ≡ₚ (map_to_list (users s)).*2 ∧
    Data resp =
      take (Z.to_nat (Z.min (Total resp) (page * perPage) - (page - 1) * perPage))
           (drop (Z.to_nat ((page - 1) * perPage)) (collected q visit)) ∧
    (Total resp <= (page - 1) * perPage → Data resp = []).
Proof.
  intros Hr Hp Hpp Hpage HperPage Hmax.
  pose proof (collected_length q visit s Hr) as Hlen.
  pose proof (collected_perm q visit s Hr) as Hperm.
  unfold getUsers. fold (collected q visit).
  unfold parse_page, parse_perPage.
  rewrite (Atoi_nonempty _ _ Hp), (Atoi_nonempty _ _ Hpp), Hp, Hpp.
  assert ((page >? 0) = true) as -> by (apply gtb_true_lt; lia).
  assert ((perPage >? 0) && (perPage <=? 100) = true) as ->.
  { apply andb_true_iff. split; [apply gtb_true_lt|apply Z.leb_le]; lia. }
  assert (Int.sub page 1 = page - 1) as ->.
  { unfold Int.sub. apply wrap_id. unfold Int.in_range, Int.min_int. nia. }
  assert (Int.mul (page - 1) perPage = (page - 1) * perPage) as ->.
  { unfold Int.mul. apply wrap_id. unfold Int.in_range, Int.min_int. nia. }
  assert (Int.add ((page - 1) * perPage) perPage = page * perPage) as ->.
  { unfold Int.add. replace ((page - 1) * perPage + perPage)
      with (page * perPage) by ring.
    apply wrap_id. unfold Int.in_range, Int.min_int. nia. }
  rewrite Hlen.
  set (total := Z.of_nat (size (users s))).
  assert (0 <= total) as Htot by (subst total; lia).
  destruct ((page - 1) * perPage >=? total) eqn:Hstart.
  - apply Z.geb_le in Hstart.
    eexists. split; [reflexivity|]. cbn [Total Page PerPage Data].
    repeat split; [exact Hperm|].
    replace (Z.to_nat (Z.min total (page * perPage) - (page - 1) * perPage))
      with 0%nat by lia.
    reflexivity.
  - assert ((page - 1) * perPage < total) as Hlt.
    { destruct (Z.geb_spec ((page - 1) * perPage) total); [discriminate|lia]. }
    assert ((if page * perPage >? total then total else page * perPage)
            = Z.min total (page * perPage)) as ->.
    { destruct (page * perPage >? total) eqn:Hend.
      - apply gtb_true_lt in Hend. lia.
      - apply gtb_false_le in Hend. lia. }
    unfold slice. rewrite Hlen. fold total.
    assert ((0 <=? (page - 1) * perPage)
            && ((page - 1) * perPage <=? Z.min total (page * perPage))
            && (Z.min total (page * perPage) <=? total) = true) as ->.
    { rewrite !andb_true_iff, !Z.leb_le. nia. }
    eexists. split; [reflexivity|]. cbn [Total Page PerPage Data].
    repeat split; [exact Hperm|]. intros Hle. lia.
Qed.

(** *** searchUsers *)

Lemma search_keeps_spec (query country activeStr : string) (u : User) :
  search_keeps unicode_lower query country activeStr u = true ↔
  (query = "" ∨
   Strings.Contains (Strings.ToLower unicode_lower (Name u)) query = true ∨
   Strings.Contains (Strings.ToLower unicode_lower (Email u)) query = true) ∧
  (country = "" ∨ Country u = country) ∧
  (activeStr = "" ∨ Active u = (Strconv.ParseBool activeStr).1).
Proof.
  unfold search_keeps.
  destruct (String.eqb_spec query "") as [Hq|Hq];
    destruct (String.eqb_spec country "") as [Hc|Hc];
    destruct (String.eqb_spec activeStr "") as [Ha|Ha];
    unfold nonempty;
    repeat match goal with
           | H : ?x = "" |- _ => rewrite (proj2 (String.eqb_eq x "") H)
           | H : ?x ≠ "" |- _ => rewrite (proj2 (String.eqb_neq x "") H)
           end; cbn [negb andb];
    destruct (Strings.Contains (Strings.ToLower unicode_lower (Name u)) query);
    destruct (Strings.Contains (Strings.ToLower unicode_lower (Email u)) query);
    cbn [negb andb];
    destruct (String.eqb_spec (Country u) country);
    cbn [negb andb];
    destruct (Strconv.ParseBool activeStr) as [active ok]; cbn [fst];
    destruct (Active u), active; cbn [Bool.eqb negb];
    intuition congruence.
Qed.

(** C10.  [searchUsers] answers 200 with the visited users that pass
    three filters at once: the lower-cased query occurs in the
    lower-cased name or email (when a query is given), the country is
    the requested one (when one is given), and the active flag is the
    value that [strconv.ParseBool] returned (when the parameter is
    given).  A parameter that does not parse, as ["maybe"], yields
    [false] with a discarded error, so the answer holds inactive users
    only; a parameter that parses filters on its value. *)
Theorem searchUsers_active_filter (q : SearchQuery) (visit : list (Z * User)) :
  let query := Strings.ToLower unicode_lower (sq_q q) in
  let matches (u : User) : Prop :=
    (query = "" ∨
     Strings.Contains (Strings.ToLower unicode_lower (Name u)) query = true ∨
     Strings.Contains (Strings.ToLower unicode_lower (Email u)) query = true) ∧
    (sq_country q = "" ∨ Country u = sq_country q) in
  Strconv.ParseBool "maybe" = (false, false) ∧
  ∃ rs,
    searchUsers unicode_lower q visit
      = respondJSON StatusOK {| results := rs; count := Z.of_nat (length rs) |} ∧
    sublist rs visit.*2 ∧
    (sq_active q ≠ "" → (Strconv.ParseBool (sq_active q)).2 = false →
     ∀ u, u ∈ rs ↔ u ∈ visit.*2 ∧ matches u ∧ Active u = false) ∧
    (∀ b, Strconv.ParseBool (sq_active q) = (b, true) →
     ∀ u, u ∈ rs ↔ u ∈ visit.*2 ∧ matches u ∧ Active u = b) ∧
    (sq_active q = "" →
     ∀ u, u ∈ rs ↔ u ∈ visit.*2 ∧ matches u).
Proof.
  intros query matches. split; [reflexivity|].
  unfold searchUsers. fold query. eexists. split; [reflexivity|].
  split; [apply sublist_filter|].
  split; [|split].
  - intros Hne Herr u. rewrite list_elem_of_filter, search_keeps_spec.
    assert ((Strconv.ParseBool (sq_active q)).1 = false) as ->.
    { revert Herr. unfold Strconv.ParseBool.
      repeat match goal with
             | |- context [if ?b then _ else _] => destruct b
             end; cbn; congruence. }
    subst matches. cbn beta. intuition.
  - intros b Hb u. rewrite list_elem_of_filter, search_keeps_spec, Hb.
    cbn [fst]. subst matches. cbn beta.
    assert (sq_active q ≠ "") as Hne.
    { intros Heq. rewrite Heq in Hb. discriminate Hb. }
    intuition.
  - intros Hempty u. rewrite list_elem_of_filter, search_keeps_spec.
    subst matches. cbn beta. intuition.
Qed.

End WithLower.

Lemma updateUser_frame_witness :
  users (fresh_server 0 0) !! 4 = Some john ∧
  ∃ u' s',
    updateUser no_unicode 7 (Some 4) (Some age_29) (fresh_server 0 0)
      = (s', respondJSON StatusOK u') ∧
    users s' !! 4 = Some u' ∧
    Name u' = "John Smith" ∧ Email u' = "john@example.com" ∧
    Country u' = "USA" ∧ Age u' = 29 ∧
    CreatedAt u' = 0 ∧ UpdatedAt john < UpdatedAt u'.
Proof.
  assert (users (fresh_server 0 0) !! 4 = Some john) as Hj
    by (vm_compute; reflexivity).
  split; [exact Hj|].
  destruct (updateUser_frame no_unicode 7 4 age_29 (fresh_server 0 0) john Hj)
    as [Hiff Hall].
  destruct (proj2 Hiff) as (u' & s' & Hup).
  { split; [left; reflexivity|]. intros age [= <-]. lia. }
  exists u', s'. split; [exact Hup|].
  destruct (Hall u' s' Hup)
    as (Hl & _ & _ & Hn & _ & He & _ & _ & Ha & Hc & _ & _ & _ & Hcr & _ & Hlt).
  split; [exact Hl|].
  split; [apply Hn; reflexivity|].
  split; [apply He; reflexivity|].
  split; [apply Hc; reflexivity|].
  split; [apply Ha; reflexivity|].
  split; [exact Hcr|].
  apply Hlt. cbn. lia.
Defined.

(** A user is created and updated within one tick of the clock: the
    update succeeds and leaves [updated_at] equal to, not strictly
    greater than, its value before. *)
Lemma updateUser_same_instant :
  ∃ u s1 msg u' s2,
    createUser no_unicode 10 10 (Some alice) (fresh_server 0 0)
      = (s1, respondJSON StatusCreated u, Some msg) ∧
    users s1 !! 6 = Some u ∧
    updateUser no_unicode 10 (Some 6) (Some age_29) s1
      = (s2, respondJSON StatusOK u') ∧
    users s2 !! 6 = Some u' ∧
    Age u' = 29 ∧
    UpdatedAt u' = UpdatedAt u ∧
    ¬ (UpdatedAt u < UpdatedAt u').
Proof.
  eexists _, _, _, _, _. split; [vm_compute; reflexivity|].
  split; [vm_compute; reflexivity|].
  split; [vm_compute; reflexivity|].
  split; [vm_compute; reflexivity|].
  split; [reflexivity|]. split; [reflexivity|]. cbn. lia.
Qed.

Lemma validation_error_keeps_store_witness :
  (∃ message,
     createUser no_unicode 10 11 (Some eve) (fresh_server 0 0)
       = (fresh_server 0 0, respondError StatusBadRequest message, None)) ∧
  (∃ message,
     updateUser no_unicode 10 (Some 4) (Some age_200) (fresh_server 0 0)
       = (fresh_server 0 0, respondError StatusBadRequest message)) ∧
  (∀ s' status message,
     updateUser no_unicode 10 (Some 4) (Some age_200) (fresh_server 0 0)
       = (s', respondError status message) →
     s' = fresh_server 0 0).
Proof.
  destruct (validation_error_keeps_store no_unicode 10 11 (fresh_server 0 0))
    as (_ & Hupd & Hcreate & Hupd400).
  split; [|split].
  - apply Hcreate. intros (_ & _ & Hv & _). vm_compute in Hv. discriminate Hv.
  - apply (Hupd400 4 age_200 john); [vm_compute; reflexivity|].
    right. exists 200. split; [reflexivity|]. right. lia.
  - intros s' status message H. exact (Hupd _ _ _ _ _ H).
Defined.

Lemma first_create_then_deactivate_witness :
  ∃ u s1 msg u' s2,
    createUser no_unicode 10 11 (Some alice) (fresh_server 0 0)
      = (s1, respondJSON StatusCreated u, Some msg) ∧
    ID u = 6 ∧ Active u = true ∧ CreatedAt u = UpdatedAt u ∧
    deactivateUser 20 (Some (ID u)) s1 = (s2, respondJSON StatusOK u') ∧
    ID u' = 6 ∧ Active u' = false ∧
    CreatedAt u' = CreatedAt u ∧ CreatedAt u' < UpdatedAt u'.
Proof.
  apply (first_create_then_deactivate no_unicode 0 0 10 11 20). lia.
Defined.

(** The first create on a freshly started server does not answer
    identifier 1: [initTestData] has taken 1 to 5.  And a deactivation
    handled at the reading of the clock of the creation leaves
    [updated_at] equal to [created_at]. *)
Lemma first_create_id_is_6 :
  ∃ u s1 msg,
    createUser no_unicode 10 11 (Some alice) (fresh_server 0 0)
      = (s1, respondJSON StatusCreated u, msg) ∧
    ID u = 6 ∧ ID u ≠ 1 ∧
    ∃ u' s2,
      deactivateUser 10 (Some (ID u)) s1 = (s2, respondJSON StatusOK u') ∧
      Active u' = false ∧
      ¬ (CreatedAt u' < UpdatedAt u').
Proof.
  destruct (createUser_valid no_unicode 10 11 alice (fresh_server 0 0)
              (alice_valid no_unicode)) as [msg Hc].
  eexists _, _, _. split; [exact Hc|]. split; [reflexivity|].
  split; [cbn; discriminate|].
  eexists _, _. split; [vm_compute; reflexivity|].
  split; [reflexivity|]. cbn. lia.
Qed.

Lemma store_invariant_witness :
  inv (init_world 0 0) ∧
  inv (step no_unicode (POST_users 10 11 (Some alice)) (init_world 0 0)) ∧
  (∀ old, old ∈ [1; 2; 3; 4; 5] → old < 6) ∧
  inv (step no_unicode (DELETE_user (Some 6))
         (step no_unicode (POST_users 10 11 (Some alice)) (init_world 0 0))).
Proof.
  destruct (store_invariant no_unicode) as (Hinit & Hstep & _).
  assert (clock_ok (POST_users 10 11 (Some alice)) (init_world 0 0)) as Hclk.
  { repeat constructor; cbn; lia. }
  assert (no_overflow (POST_users 10 11 (Some alice)) (init_world 0 0)) as Hmax.
  { vm_compute. discriminate. }
  destruct (Hstep _ _ (Hinit 0 0) Hclk Hmax) as [Hinv1 Hnew].
  split; [apply Hinit|]. split; [exact Hinv1|]. split.
  - intros old Hold. apply Hnew; [exact Hold|].
    vm_compute. constructor.
  - apply Hstep; [exact Hinv1|constructor|vm_compute; discriminate].
Defined.

Lemma getUsers_window_witness :
  ∃ resp,
    getUsers second_page_by_age (map_to_list (users (fresh_server 0 0)))
      = Returns (respondJSON StatusOK resp) ∧
    Total resp = 5 ∧ Page resp = 2 ∧ PerPage resp = 2 ∧
    Data resp =
      take 2 (drop 2 (collected second_page_by_age
                        (map_to_list (users (fresh_server 0 0))))).
Proof.
  destruct (getUsers_window second_page_by_age
              (map_to_list (users (fresh_server 0 0))) (fresh_server 0 0) 2 2)
    as (resp & Hresp & Htotal & Hpage & HperPage & _ & Hdata & _).
  - unfold range_of. reflexivity.
  - vm_compute. reflexivity.
  - vm_compute. reflexivity.
  - lia.
  - lia.
  - unfold Int.max_int. lia.
  - exists resp. split; [exact Hresp|]. split; [exact Htotal|].
    split; [exact Hpage|]. split; [exact HperPage|].
    rewrite Hdata, Htotal. reflexivity.
Defined.

(** Two requests with [page >= 1] and [per_page >= 1] on which
    [getUsers] does not answer the window that the specification
    describes.  With
    [page = 2^62] and [per_page = 4] the product [(page-1)*perPage]
    wraps to [-4], the test [start >= total] fails and the slice
    expression panics, although the window starts past [total].  With
    [per_page = 200] the handler keeps its default of 10 and answers 10
    of the 11 records, although the window [[0, min(11, 200))] holds
    all 11. *)
Lemma getUsers_window_fails :
  (Strconv.Atoi (q_page huge_page) = Some 4611686018427387904 ∧
   Strconv.Atoi (q_per_page huge_page) = Some 4 ∧
   getUsers huge_page (map_to_list (users (fresh_server 0 0))) = Panics ∧
   ¬ ∃ resp, getUsers huge_page (map_to_list (users (fresh_server 0 0)))
             = Returns resp) ∧
  (Strconv.Atoi (q_page wide_page) = Some 1 ∧
   Strconv.Atoi (q_per_page wide_page) = Some 200 ∧
   size (users eleven_users) = 11%nat ∧
   ∃ resp,
     getUsers wide_page (map_to_list (users eleven_users))
       = Returns (respondJSON StatusOK resp) ∧
     PerPage resp = 10 ∧ length (Data resp) = 10%nat ∧
     Data resp ≠
       take (Z.to_nat (Z.min 11 (1 * 200) - (1 - 1) * 200))
            (drop (Z.to_nat ((1 - 1) * 200))
               (collected wide_page (map_to_list (users eleven_users))))).
Proof.
  split.
  { split; [vm_compute; reflexivity|]. split; [vm_compute; reflexivity|].
    split; [vm_compute; reflexivity|].
    intros [resp H]. vm_compute in H. discriminate H. }
  split; [vm_compute; reflexivity|].
  split; [vm_compute; reflexivity|].
  split; [vm_compute; reflexivity|].
  eexists. split; [vm_compute; reflexivity|].
  split; [reflexivity|]. split; [reflexivity|].
  intros Heq. apply (f_equal length) in Heq. vm_compute in Heq.
  discriminate Heq.
Qed.

Lemma searchUsers_active_filter_witness :
  ∃ rs,
    searchUsers no_unicode filter_maybe (map_to_list (users (fresh_server 0 0)))
      = respondJSON StatusOK {| results := rs; count := Z.of_nat (length rs) |} ∧
    (∀ u, u ∈ rs → Active u = false) ∧
    ID <$> rs = [3].
Proof.
  destruct (searchUsers_active_filter no_unicode filter_maybe
              (map_to_list (users (fresh_server 0 0))))
    as (_ & rs & Hrs & _ & Hbad & _ & _).
  exists rs. split; [exact Hrs|]. split.
  - intros u Hu. apply (Hbad ltac:(discriminate) eq_refl u) in Hu. tauto.
  - vm_compute in Hrs. injection Hrs as <-. reflexivity.
Defined.

End StoreProofs.


(* ===================================================================== *)
(** ** Properties of the hub                                              *)
(* ===================================================================== *)

Module HubProofs.

Import Websocket HubSpec.

Local Open Scope list_scope.
Local Open Scope Z_scope.

(** *** The channel operations on concrete inputs *)

Example send_examples :
  send (note 1) (make_chan 1) = Done (push (note 1) (make_chan 1)) ∧
  send (note 2) (push (note 1) (make_chan 1)) = Blocked ∧
  send (note 1) (closed_chan (make_chan 1)) = Panic ∧
  try_send (note 2) (push (note 1) (make_chan 1))
    = Done (push (note 1) (make_chan 1), false) ∧
  close (closed_chan (make_chan 1)) = Panic.
Proof. repeat split. Qed.

Example register_on_new_hub :
  ∃ st,
    Run_iteration (case_register 1%nat 0) (NewHub two_clients) = Done st ∧
    clients st = {[ 1%nat := true ]} ∧
    Send <$> heap st !! 1%nat
      = Some {| buf := [welcome "client_1" 0]; cap := 256; closed := false |}.
Proof. eexists. split; [vm_compute; reflexivity|]. split; reflexivity. Qed.

Example Shutdown_after_a_receive :
  ∃ st1 st2,
    WritePump_receive 1%nat stalled_hub
      = Done (Some (welcome "client_1" 0), st1) ∧
    Shutdown 99 [1%nat; 2%nat] st1 = Done st2 ∧
    clients st2 = ∅.
Proof.
  eexists _, _. split; [vm_compute; reflexivity|].
  split; [vm_compute; reflexivity|]. reflexivity.
Qed.

Example unregister_twice :
  hub_run [Iterate (case_register 1%nat 0); Iterate (case_unregister 1%nat);
           Iterate (case_unregister 1%nat)] (NewHub two_clients)
  = hub_run [Iterate (case_register 1%nat 0); Iterate (case_unregister 1%nat)]
      (NewHub two_clients).
Proof. vm_compute. reflexivity. Qed.

Lemma broadcast_body_open (message : Message) (c : nat) (st : State) (cl : Client) :
  heap st !! c = Some cl → closed (Send cl) = false →
  broadcast_body message c st =
    Done {| clients := if full (Send cl) then delete c (clients st)
                       else clients st;
            broadcast := broadcast st;
            heap := <[c := delivered message cl]> (heap st) |}.
Proof.
  intros Hc Hopen. unfold broadcast_body, delivered, try_send, close.
  rewrite Hc, Hopen. destruct (full (Send cl)); reflexivity.
Qed.

Lemma SendToClient_eq_broadcast_body (client : nat) (msg : Message) (st : State) :
  SendToClient client msg st = broadcast_body msg client st.
Proof. reflexivity. Qed.

Lemma delivered_open (message : Message) (cl : Client) :
  full (Send cl) = false → closed (Send cl) = false →
  closed (Send (delivered message cl)) = false.
Proof. intros Hf Ho. unfold delivered. rewrite Hf. cbn. exact Ho. Qed.

(** The range of the broadcast case over distinct allocated clients with
    open queues. *)
Lemma broadcast_range_spec (message : Message) (order : list nat) :
  ∀ st : State,
    NoDup order →
    (∀ c, c ∈ order → ∃ cl, heap st !! c = Some cl ∧ closed (Send cl) = false) →
    ∃ st',
      broadcast_range message order st = Done st' ∧
      broadcast st' = broadcast st ∧
      (∀ c, c ∉ order →
         clients st' !! c = clients st !! c ∧ heap st' !! c = heap st !! c) ∧
      (∀ c cl, c ∈ order → heap st !! c = Some cl →
         heap st' !! c = Some (delivered message cl) ∧
         clients st' !! c = if full (Send cl) then None else clients st !! c).
Proof.
  induction order as [|c order IH]; intros st Hnd Hopen.
  - exists st. split; [reflexivity|]. split; [reflexivity|]. split.
    + auto.
    + intros c cl Hc. inversion Hc.
  - apply NoDup_cons in Hnd as [Hc Hnd].
    destruct (Hopen c) as (cl & Hcl & Ho); [left|].
    cbn [broadcast_range]. rewrite (broadcast_body_open _ _ _ _ Hcl Ho).
    cbn [bind].
    set (st1 := {| clients := _; broadcast := _; heap := _ |}).
    destruct (IH st1 Hnd) as (st' & Hrun & Hb & Hout & Hin).
    { intros c' Hc'. destruct (Hopen c') as (cl' & Hcl' & Ho'); [right; exact Hc'|].
      exists cl'. split; [|exact Ho'].
      subst st1. cbn [heap]. rewrite lookup_insert_ne; [exact Hcl'|].
      intros ->. contradiction. }
    exists st'. split; [exact Hrun|]. split; [rewrite Hb; reflexivity|]. split.
    + intros c' Hc'. apply not_elem_of_cons in Hc' as [Hne Hc'].
      destruct (Hout c' Hc') as [H1 H2]. rewrite H1, H2.
      subst st1. cbn [clients heap]. split.
      * destruct (full (Send cl)); [apply lookup_delete_ne; congruence|reflexivity].
      * apply lookup_insert_ne. congruence.
    + intros c' cl' Hc' Hcl'. apply elem_of_cons in Hc' as [->|Hc'].
      * rewrite Hcl in Hcl'. injection Hcl' as <-.
        destruct (Hout c Hc) as [H1 H2]. rewrite H1, H2.
        subst st1. cbn [clients heap]. split; [apply lookup_insert_eq|].
        destruct (full (Send cl)); [apply lookup_delete_eq|reflexivity].
      * assert (c' ≠ c) as Hne by (intros ->; contradiction).
        destruct (Hin c' cl' Hc') as [H1 H2].
        { subst st1. cbn [heap]. rewrite lookup_insert_ne; [exact Hcl'|congruence]. }
        split; [exact H1|]. rewrite H2.
        destruct (full (Send cl')); [reflexivity|].
        subst st1. cbn [clients].
        destruct (full (Send cl)); [apply lookup_delete_ne; congruence|reflexivity].
Qed.

Lemma range_of_NoDup (st : State) (order : list nat) :
  range_of st order → NoDup order.
Proof.
  unfold range_of. intros ->. apply NoDup_fst_map_to_list.
Qed.

Lemma range_of_elem (st : State) (order : list nat) (c : nat) :
  range_of st order → c ∈ order ↔ is_Some (clients st !! c).
Proof.
  unfold range_of. intros ->. rewrite list_elem_of_fmap. split.
  - intros ([c' b] & -> & Hin). apply elem_of_map_to_list in Hin.
    cbn. eauto.
  - intros [b Hb]. exists (c, b). split; [reflexivity|].
    apply elem_of_map_to_list. exact Hb.
Qed.


(** *** Shutdown *)

Lemma Shutdown_body_room (msg : Message) (c : nat) (st : State) (cl : Client) :
  heap st !! c = Some cl →
  closed (Send cl) = false → full (Send cl) = false →
  Shutdown_body msg c st = Done (set_heap st (<[c := shut msg cl]> (heap st))).
Proof.
  intros Hc Ho Hf. unfold Shutdown_body, send, close. rewrite Hc, Ho, Hf.
  cbn. rewrite Ho. reflexivity.
Qed.

Lemma Shutdown_body_full (msg : Message) (c : nat) (st : State) (cl : Client) :
  heap st !! c = Some cl →
  closed (Send cl) = false → full (Send cl) = true →
  Shutdown_body msg c st = Blocked.
Proof.
  intros Hc Ho Hf. unfold Shutdown_body, send. rewrite Hc, Ho, Hf. reflexivity.
Qed.

Lemma Shutdown_range_spec (msg : Message) (order : list nat) :
  ∀ st : State,
    NoDup order →
    (∀ c, c ∈ order →
       ∃ cl, heap st !! c = Some cl ∧
             closed (Send cl) = false ∧ full (Send cl) = false) →
    ∃ st',
      Shutdown_range msg order st = Done st' ∧
      clients st' = clients st ∧ broadcast st' = broadcast st ∧
      (∀ c, c ∉ order → heap st' !! c = heap st !! c) ∧
      (∀ c cl, c ∈ order → heap st !! c = Some cl →
         heap st' !! c = Some (shut msg cl)).
Proof.
  induction order as [|c order IH]; intros st Hnd Hroom.
  - exists st. repeat split; try reflexivity. intros c cl Hc. inversion Hc.
  - apply NoDup_cons in Hnd as [Hc Hnd].
    destruct (Hroom c) as (cl & Hcl & Ho & Hf); [left|].
    cbn [Shutdown_range]. rewrite (Shutdown_body_room _ _ _ _ Hcl Ho Hf).
    cbn [bind].
    set (st1 := set_heap st _).
    destruct (IH st1 Hnd) as (st' & Hrun & Hcs & Hb & Hout & Hin).
    { intros c' Hc'.
      destruct (Hroom c') as (cl' & Hcl' & Ho' & Hf'); [right; exact Hc'|].
      exists cl'. split; [|split; assumption].
      subst st1. cbn [set_heap heap]. rewrite lookup_insert_ne; [exact Hcl'|].
      intros ->. contradiction. }
    exists st'. split; [exact Hrun|]. split; [rewrite Hcs; reflexivity|].
    split; [rewrite Hb; reflexivity|]. split.
    + intros c' Hc'. apply not_elem_of_cons in Hc' as [Hne Hc'].
      rewrite (Hout c' Hc'). subst st1. cbn [set_heap heap].
      apply lookup_insert_ne. congruence.
    + intros c' cl' Hc' Hcl'. apply elem_of_cons in Hc' as [->|Hc'].
      * rewrite Hcl in Hcl'. injection Hcl' as <-.
        rewrite (Hout c Hc). subst st1. cbn [set_heap heap].
        apply lookup_insert_eq.
      * apply (Hin c' cl' Hc'). subst st1. cbn [set_heap heap].
        rewrite lookup_insert_ne; [exact Hcl'|]. intros ->. contradiction.
Qed.

(** What [Shutdown] makes of one registered client, when every queue
    has room. *)
Lemma Shutdown_closes (now : Z) (order : list nat) (st : State)
    (c : nat) (cl : Client) :
  hub_wf st → range_of st order →
  (∀ c cl, is_Some (clients st !! c) → heap st !! c = Some cl →
     full (Send cl) = false) →
  is_Some (clients st !! c) → heap st !! c = Some cl →
  ∃ st',
    Shutdown now order st = Done st' ∧
    heap st' !! c = Some (shut (shutdownMsg now) cl).
Proof.
  intros Hwf Hr Hroom Hreg Hcl. unfold Shutdown.
  destruct (Shutdown_range_spec (shutdownMsg now) order st)
    as (st' & Hrun & _ & _ & _ & Hin).
  { eapply range_of_NoDup, Hr. }
  { intros c' Hc'. apply (range_of_elem st order c' Hr) in Hc' as [b Hcb].
    destruct (Hwf c' b Hcb) as (cl' & Hcl' & Ho).
    exists cl'. split; [exact Hcl'|]. split; [exact Ho|].
    apply (Hroom c' cl'); [rewrite Hcb; eauto|exact Hcl']. }
  rewrite Hrun. cbn [bind]. eexists. split; [reflexivity|].
  cbn [set_clients heap]. apply Hin; [|exact Hcl].
  apply (range_of_elem st order c Hr). exact Hreg.
Qed.

(** X24.  [Shutdown] when every queue has room.  On a hub whose
    registered clients are allocated with open queues that all have room
    for one more message,
    and for every order of the range, [Shutdown] returns: every client
    registered at the call has the shutdown message appended to its
    queue, its queue closed and its transport closed, no other client
    is touched, and the set of clients is empty afterwards. *)
Theorem Shutdown_spec (now : Z) (order : list nat) (st : State) :
  hub_wf st → range_of st order →
  (∀ c cl, is_Some (clients st !! c) → heap st !! c = Some cl →
     full (Send cl) = false) →
  ∃ st',
    Shutdown now order st = Done st' ∧
    clients st' = ∅ ∧
    broadcast st' = broadcast st ∧
    (∀ c cl, is_Some (clients st !! c) → heap st !! c = Some cl →
       ∃ cl',
         heap st' !! c = Some cl' ∧
         buf (Send cl') = buf (Send cl) ++ [shutdownMsg now] ∧
         closed (Send cl') = true ∧
         conn_closed (Conn cl') = true ∧
         ID cl' = ID cl) ∧
    (∀ c, clients st !! c = None → heap st' !! c = heap st !! c).
Proof.
  intros Hwf Hr Hroom. unfold Shutdown.
  destruct (Shutdown_range_spec (shutdownMsg now) order st)
    as (st' & Hrun & Hcs & Hb & Hout & Hin).
  { eapply range_of_NoDup, Hr. }
  { intros c Hc. apply (range_of_elem st order c Hr) in Hc as [b Hcb].
    destruct (Hwf c b Hcb) as (cl & Hcl & Ho).
    exists cl. split; [exact Hcl|]. split; [exact Ho|].
    apply (Hroom c cl); [rewrite Hcb; eauto|exact Hcl]. }
  rewrite Hrun. cbn [bind]. eexists. split; [reflexivity|].
  cbn [set_clients clients broadcast heap].
  split; [reflexivity|]. split; [exact Hb|]. split.
  - intros c cl Hc Hcl. exists (shut (shutdownMsg now) cl).
    split; [|repeat split].
    apply Hin; [|exact Hcl]. apply (range_of_elem st order c Hr). exact Hc.
  - intros c Hc. apply Hout. intros Hin'.
    apply (range_of_elem st order c Hr) in Hin' as [b Hcb]. congruence.
Qed.

(** *** What every step of the hub keeps *)

Lemma extends_refl (st : State) : extends st st.
Proof. intros c cl Hc. exists cl, []. rewrite app_nil_r. auto. Qed.

Lemma extends_same_heap (st st' : State) :
  heap st' = heap st → extends st st'.
Proof.
  intros Hh c cl Hc. exists cl, []. rewrite Hh, app_nil_r. auto.
Qed.

Lemma extends_trans (st1 st2 st3 : State) :
  extends st1 st2 → extends st2 st3 → extends st1 st3.
Proof.
  intros H12 H23 c cl Hc.
  destruct (H12 c cl Hc) as (cl2 & m2 & Hc2 & Hb2).
  destruct (H23 c cl2 Hc2) as (cl3 & m3 & Hc3 & Hb3).
  exists cl3, (m2 ++ m3). split; [exact Hc3|].
  rewrite Hb3, Hb2, app_assoc. reflexivity.
Qed.

Lemma extends_update (st st' : State) (c : nat) (cl cl' : Client) (more : list Message) :
  heap st !! c = Some cl →
  heap st' = <[c := cl']> (heap st) →
  buf (Send cl') = buf (Send cl) ++ more →
  extends st st'.
Proof.
  intros Hc Hh Hb c0 cl0 Hc0. rewrite Hh.
  destruct (decide (c0 = c)) as [->|Hne].
  - rewrite Hc in Hc0. injection Hc0 as <-.
    exists cl', more. rewrite lookup_insert_eq. auto.
  - exists cl0, []. rewrite lookup_insert_ne, app_nil_r by congruence. auto.
Qed.

Lemma delivered_buf (m : Message) (cl : Client) :
  ∃ more, buf (Send (delivered m cl)) = buf (Send cl) ++ more.
Proof.
  unfold delivered. destruct (full (Send cl)); cbn.
  - exists []. rewrite app_nil_r. reflexivity.
  - exists [m]. reflexivity.
Qed.

(** A [Done] of the loop body is the delivery to an open queue. *)
Lemma broadcast_body_Done (m : Message) (c : nat) (st st' : State) :
  broadcast_body m c st = Done st' →
  ∃ cl,
    heap st !! c = Some cl ∧ closed (Send cl) = false ∧
    st' = {| clients := if full (Send cl) then delete c (clients st)
                        else clients st;
             broadcast := broadcast st;
             heap := <[c := delivered m cl]> (heap st) |}.
Proof.
  intros H. destruct (heap st !! c) as [cl|] eqn:Hc;
    [|unfold broadcast_body in H; rewrite Hc in H; discriminate].
  destruct (closed (Send cl)) eqn:Ho.
  - unfold broadcast_body, try_send in H. rewrite Hc, Ho in H. discriminate.
  - rewrite (broadcast_body_open m c st cl Hc Ho) in H. injection H as <-.
    exists cl. auto.
Qed.

Lemma delivery_wf (m : Message) (c : nat) (cl : Client) (cs : gmap nat bool)
    (b : chan) (h : gmap nat Client) :
  (∀ c' v, cs !! c' = Some v → c' ≠ c →
     ∃ cl', h !! c' = Some cl' ∧ closed (Send cl') = false) →
  closed (Send cl) = false →
  hub_wf {| clients := if full (Send cl) then delete c cs else cs;
            broadcast := b;
            heap := <[c := delivered m cl]> h |}.
Proof.
  intros Hothers Ho c' v Hc'. cbn [clients heap] in *.
  destruct (decide (c' = c)) as [->|Hne].
  - rewrite lookup_insert_eq. exists (delivered m cl). split; [reflexivity|].
    destruct (full (Send cl)) eqn:Hf.
    + rewrite lookup_delete_eq in Hc'. discriminate.
    + apply delivered_open; assumption.
  - rewrite lookup_insert_ne by congruence. apply (Hothers c' v); [|exact Hne].
    destruct (full (Send cl)); [|exact Hc'].
    rewrite lookup_delete_ne in Hc' by congruence. exact Hc'.
Qed.

Lemma broadcast_body_keeps (m : Message) (c : nat) (st st' : State) :
  broadcast_body m c st = Done st' →
  extends st st' ∧ (hub_wf st → hub_wf st').
Proof.
  intros H. apply broadcast_body_Done in H as (cl & Hc & Ho & ->). split.
  - destruct (delivered_buf m cl) as [more Hmore].
    eapply extends_update; [exact Hc|reflexivity|exact Hmore].
  - intros Hwf. apply delivery_wf; [|exact Ho].
    intros c' v Hc' _. exact (Hwf c' v Hc').
Qed.

Lemma broadcast_range_keeps (m : Message) (order : list nat) :
  ∀ st st' : State,
    broadcast_range m order st = Done st' →
    extends st st' ∧ (hub_wf st → hub_wf st').
Proof.
  induction order as [|c order IH]; intros st st' H.
  - injection H as <-. split; [apply extends_refl|auto].
  - cbn [broadcast_range] in H.
    destruct (broadcast_body m c st) as [st1| |] eqn:Hbody; try discriminate.
    cbn [bind] in H.
    destruct (broadcast_body_keeps m c st st1 Hbody) as [He1 Hw1].
    destruct (IH st1 st' H) as [He2 Hw2].
    split; [eapply extends_trans; eassumption|auto].
Qed.

Lemma BroadcastMessage_Done (msg : Message) (st st' : State) :
  BroadcastMessage msg st = Done st' →
  ∃ ch, st' = set_broadcast st ch.
Proof.
  unfold BroadcastMessage. destruct (send msg (broadcast st)); try discriminate.
  cbn [bind]. intros [= <-]. eauto.
Qed.

Lemma hub_step_keeps (ev : hub_event) (st st' : State) :
  hub_step ev st = Done st' →
  extends st st' ∧ (hub_wf st → hub_wf st').
Proof.
  destruct ev as [[client now|client|order|server_time now]|msg];
    cbn [hub_step Run_iteration];
    unfold register_welcome, register_insert, unregister_test,
      unregister_locked; intros H.
  - (* register *)
    cbn [set_clients heap] in H.
    destruct (heap st !! client) as [cl|] eqn:Hc; [|discriminate].
    rewrite SendToClient_eq_broadcast_body in H.
    apply broadcast_body_Done in H as (cl' & Hc' & Ho & ->).
    cbn [set_clients heap clients broadcast] in *.
    rewrite Hc in Hc'. injection Hc' as <-. split.
    + destruct (delivered_buf (welcome (ID cl) now) cl) as [more Hmore].
      eapply extends_update; [exact Hc|reflexivity|exact Hmore].
    + intros Hwf. apply delivery_wf; [|exact Ho].
      intros c' v Hc' Hne. rewrite lookup_insert_ne in Hc' by congruence.
      exact (Hwf c' v Hc').
  - (* unregister *)
    destruct (clients st !! client) as [v|] eqn:Hreg;
      [|injection H as <-; split; [apply extends_refl|auto]].
    destruct (heap st !! client) as [cl|] eqn:Hc; [|discriminate].
    unfold close in H. destruct (closed (Send cl)) eqn:Ho; [discriminate|].
    cbn [bind] in H. injection H as <-. split.
    + eapply extends_update with (more := []);
        [exact Hc|reflexivity|cbn; rewrite app_nil_r; reflexivity].
    + intros Hwf c' v' Hc'. cbn [set_heap set_clients clients heap] in *.
      apply lookup_delete_Some in Hc' as [Hne Hc'].
      rewrite lookup_insert_ne by congruence. exact (Hwf c' v' Hc').
  - (* broadcast *)
    destruct (buf (broadcast st)) as [|message rest]; [discriminate|].
    apply broadcast_range_keeps in H as [He Hw]. split.
    + intros c cl Hc. apply (He c cl). exact Hc.
    + intros Hwf. apply Hw. exact Hwf.
  - (* ticker *)
    apply BroadcastMessage_Done in H as [ch ->].
    split; [apply extends_same_heap; reflexivity|intros Hwf; exact Hwf].
  - (* a publisher *)
    apply BroadcastMessage_Done in H as [ch ->].
    split; [apply extends_same_heap; reflexivity|intros Hwf; exact Hwf].
Qed.

Lemma hub_run_keeps (evs : list hub_event) :
  ∀ st st' : State,
    hub_run evs st = Done st' →
    extends st st' ∧ (hub_wf st → hub_wf st').
Proof.
  induction evs as [|ev evs IH]; intros st st' H.
  - injection H as <-. split; [apply extends_refl|auto].
  - cbn [hub_run] in H.
    destruct (hub_step ev st) as [st1| |] eqn:Hstep; try discriminate.
    cbn [bind] in H.
    destruct (hub_step_keeps ev st st1 Hstep) as [He1 Hw1].
    destruct (IH st1 st' H) as [He2 Hw2].
    split; [eapply extends_trans; eassumption|auto].
Qed.

(** *** The same for the sections and for the other goroutines *)

Lemma Shutdown_body_Done (msg : Message) (c : nat) (st st' : State) :
  Shutdown_body msg c st = Done st' →
  ∃ cl, heap st !! c = Some cl ∧
    closed (Send cl) = false ∧ full (Send cl) = false ∧
    st' = set_heap st (<[c := shut msg cl]> (heap st)).
Proof.
  intros H. assert (H' := H). unfold Shutdown_body in H'.
  destruct (heap st !! c) as [cl|] eqn:Hc; [|discriminate].
  unfold send in H'.
  destruct (closed (Send cl)) eqn:Ho; [discriminate|].
  destruct (full (Send cl)) eqn:Hf; [discriminate|].
  rewrite (Shutdown_body_room _ _ _ _ Hc Ho Hf) in H. injection H as <-.
  exists cl. auto.
Qed.

Lemma Shutdown_range_keeps (msg : Message) (order : list nat) :
  ∀ st st' : State,
    Shutdown_range msg order st = Done st' →
    extends st st' ∧ clients st' = clients st ∧ broadcast st' = broadcast st.
Proof.
  induction order as [|c order IH]; intros st st' H.
  - injection H as <-. split; [apply extends_refl|auto].
  - cbn [Shutdown_range] in H.
    destruct (Shutdown_body msg c st) as [st1| |] eqn:Hbody; try discriminate.
    cbn [bind] in H.
    apply Shutdown_body_Done in Hbody as (cl & Hc & _ & _ & ->).
    destruct (IH _ st' H) as (He & Hcs & Hb).
    split; [|split; [rewrite Hcs|rewrite Hb]; reflexivity].
    eapply extends_trans; [|exact He].
    eapply extends_update with (more := [msg]); [exact Hc|reflexivity|].
    reflexivity.
Qed.

Lemma Shutdown_keeps (now : Z) (order : list nat) (st st' : State) :
  Shutdown now order st = Done st' →
  extends st st' ∧ hub_wf st' ∧ broadcast st' = broadcast st.
Proof.
  unfold Shutdown. intros H.
  destruct (Shutdown_range (shutdownMsg now) order st) as [st1| |] eqn:Hrun;
    try discriminate.
  cbn [bind] in H. injection H as <-.
  apply Shutdown_range_keeps in Hrun as (He & _ & Hb). split; [|split].
  - intros c cl Hc. exact (He c cl Hc).
  - intros c b Hc. cbn [set_clients clients] in Hc.
    rewrite lookup_empty in Hc. discriminate.
  - exact Hb.
Qed.

Lemma foreign_step_extends (f : foreign) (st st' : State) :
  foreign_step f st = Done st' → extends st st'.
Proof.
  destruct f as [msg|now order]; cbn [foreign_step]; intros H.
  - apply BroadcastMessage_Done in H as [ch ->].
    apply extends_same_heap. reflexivity.
  - apply (Shutdown_keeps now order st st' H).
Qed.

Lemma foreign_run_extends (fs : list foreign) :
  ∀ st st' : State, foreign_run fs st = Done st' → extends st st'.
Proof.
  induction fs as [|f fs IH]; intros st st' H.
  - injection H as <-. apply extends_refl.
  - cbn [foreign_run] in H.
    destruct (foreign_step f st) as [st1| |] eqn:Hstep; try discriminate.
    cbn [bind] in H.
    eapply extends_trans; [exact (foreign_step_extends f st st1 Hstep)|].
    exact (IH st1 st' H).
Qed.

Lemma register_welcome_extends (c : nat) (now : Z) (st st' : State) :
  register_welcome c now st = Done st' → extends st st'.
Proof.
  unfold register_welcome. intros H.
  destruct (heap st !! c) as [cl|] eqn:Hc; [|discriminate].
  rewrite SendToClient_eq_broadcast_body in H.
  apply (broadcast_body_keeps _ _ _ _ H).
Qed.

Lemma unregister_locked_extends (c : nat) (st st' : State) :
  unregister_locked c st = Done st' → extends st st'.
Proof.
  unfold unregister_locked. intros H.
  destruct (heap st !! c) as [cl|] eqn:Hc; [|discriminate].
  unfold close in H. destruct (closed (Send cl)) eqn:Ho; [discriminate|].
  cbn [bind] in H. injection H as <-.
  eapply extends_update with (more := []);
    [exact Hc|reflexivity|cbn; rewrite app_nil_r; reflexivity].
Qed.

Lemma act_extends (a : activity) (st st' : State) :
  act a st = Done st' → extends st st'.
Proof.
  destruct a as [c now between|c between|order|server_time now|f];
    cbn [act]; intros H.
  - unfold Run_register in H.
    destruct (foreign_run between (register_insert c st)) as [st0| |] eqn:Hb;
      try discriminate.
    cbn [bind] in H.
    eapply extends_trans; [|exact (register_welcome_extends c now st0 st' H)].
    intros c' cl Hc'. apply (foreign_run_extends between _ st0 Hb c' cl).
    exact Hc'.
  - unfold Run_unregister in H.
    destruct (unregister_test c st); [|injection H as <-; apply extends_refl].
    destruct (foreign_run between st) as [st0| |] eqn:Hb; try discriminate.
    cbn [bind] in H.
    eapply extends_trans; [exact (foreign_run_extends between st st0 Hb)|].
    exact (unregister_locked_extends c st0 st' H).
  - apply (hub_step_keeps (Iterate (case_broadcast order)) st st' H).
  - apply (hub_step_keeps (Iterate (case_ticker server_time now)) st st' H).
  - exact (foreign_step_extends f st st' H).
Qed.

Lemma act_run_extends (acts : list activity) :
  ∀ st st' : State, act_run acts st = Done st' → extends st st'.
Proof.
  induction acts as [|a acts IH]; intros st st' H.
  - injection H as <-. apply extends_refl.
  - cbn [act_run] in H.
    destruct (act a st) as [st1| |] eqn:Hstep; try discriminate.
    cbn [bind] in H.
    eapply extends_trans; [exact (act_extends a st st1 Hstep)|].
    exact (IH st1 st' H).
Qed.

(** *** Concrete hubs *)

Lemma NewHub_wf (h : gmap nat Client) : hub_wf (NewHub h).
Proof. intros c b Hc. cbn in Hc. rewrite lookup_empty in Hc. discriminate. Qed.

Lemma stalled_hub_reachable :
  hub_run stalled_history (NewHub two_clients) = Done stalled_hub.
Proof. vm_compute. reflexivity. Qed.

Lemma stalled_hub_wf : hub_wf stalled_hub.
Proof.
  apply (hub_run_keeps _ _ _ stalled_hub_reachable). apply NewHub_wf.
Qed.

Lemma stalled_hub_range : range_of stalled_hub [1%nat; 2%nat].
Proof. unfold range_of. vm_compute. first [reflexivity|apply perm_swap]. Qed.


(** C6.  [Shutdown] does not return on the stalled hub, a well-formed
    hub that a history of hub events reaches: client 1 holds 256 queued
    messages, its capacity, and the send [client.Send <- shutdownMsg]
    waits for a receiver while [h.mu] is held, whichever client the
    range visits first: [Shutdown] does not run to completion. *)
Lemma Shutdown_blocks_on_saturated :
  hub_run stalled_history (NewHub two_clients) = Done stalled_hub ∧
  hub_wf stalled_hub ∧
  (∀ order, range_of stalled_hub order →
     Shutdown 99 order stalled_hub = Blocked ∧
     ¬ ∃ st', Shutdown 99 order stalled_hub = Done st').
Proof.
  split; [exact stalled_hub_reachable|]. split; [exact stalled_hub_wf|].
  intros order Hr.
  assert (order = [1%nat; 2%nat] ∨ order = [2%nat; 1%nat]) as [->| ->].
  { apply Permutation_length_2_inv.
    pose proof stalled_hub_range as H12. unfold range_of in Hr, H12.
    rewrite H12, Hr. reflexivity. }
  - split; [vm_compute; reflexivity|]. intros [st' H].
    vm_compute in H. discriminate H.
  - split; [vm_compute; reflexivity|]. intros [st' H].
    vm_compute in H. discriminate H.
Qed.

Lemma greeted_hub_reachable :
  hub_run [Iterate (case_register 1%nat 0)] (NewHub two_clients)
    = Done greeted_hub.
Proof. vm_compute. reflexivity. Qed.

Lemma Shutdown_spec_witness :
  ∃ st',
    Shutdown 99 [1%nat] greeted_hub = Done st' ∧
    clients st' = ∅ ∧
    ∃ cl,
      heap st' !! 1%nat = Some cl ∧
      buf (Send cl) = [welcome "client_1" 0; shutdownMsg 99] ∧
      closed (Send cl) = true ∧ conn_closed (Conn cl) = true.
Proof.
  destruct (Shutdown_spec 99 [1%nat] greeted_hub)
    as (st' & Hrun & Hcs & _ & Hin & _).
  - apply (hub_run_keeps _ _ _ greeted_hub_reachable). apply NewHub_wf.
  - unfold range_of. vm_compute. reflexivity.
  - intros c cl [b Hb] Hcl. cbn in Hb.
    apply lookup_singleton_Some in Hb as [<- _].
    vm_compute in Hcl. injection Hcl as <-. reflexivity.
  - exists st'. split; [exact Hrun|]. split; [exact Hcs|].
    edestruct (Hin 1%nat) as (cl' & H1 & H2 & H3 & H4 & _);
      [vm_compute; eauto|vm_compute; reflexivity|].
    exists cl'. split; [exact H1|]. split; [exact H2|]. split; assumption.
Defined.

(** C3.  The welcome races with [Shutdown].  The register case of
    [Run] inserts the client under [h.mu] and sends the welcome after
    the unlock.  On the new hub, with client 1 allocated by
    [handleWebSocket]: when [Shutdown] returns between the two, the
    first message that the hub enqueues on the queue of client 1 is the
    shutdown message, the queue is closed, and the send of the welcome
    panics; when nothing runs between the two the queue holds the
    welcome alone. *)
Lemma welcome_races_with_Shutdown :
  range_of (register_insert 1%nat (NewHub two_clients)) [1%nat] ∧
  (∃ st0 cl,
     foreign_run [Shuts_down 5 [1%nat]]
       (register_insert 1%nat (NewHub two_clients)) = Done st0 ∧
     heap st0 !! 1%nat = Some cl ∧
     buf (Send cl) = [shutdownMsg 5] ∧ closed (Send cl) = true ∧
     register_welcome 1%nat 0 st0 = Panic) ∧
  Run_register 1%nat 0 [Shuts_down 5 [1%nat]] (NewHub two_clients) = Panic ∧
  Run_register 1%nat 0 [] (NewHub two_clients) = Done greeted_hub.
Proof.
  split; [unfold range_of; vm_compute; reflexivity|]. split; [|split].
  - eexists _, _. split; [vm_compute; reflexivity|].
    split; [vm_compute; reflexivity|]. split; [reflexivity|].
    split; vm_compute; reflexivity.
  - vm_compute. reflexivity.
  - vm_compute. reflexivity.
Qed.

End HubProofs.

(* ===================================================================== *)
(** ** The handlers as a client sees them                                *)
(* ===================================================================== *)

Module HandlerProofs.

Import Server StoreSpec HandlerSpec.

Local Open Scope list_scope.
Local Open Scope Z_scope.

(** *** The order on strings *)

Lemma ltb_asym (a : string) : ∀ b,
  Strings.ltb a b = true → Strings.ltb b a = false.
Proof.
  induction a as [|x a IH]; intros [|y b]; cbn; try congruence.
  destruct (Z.ltb_spec (Strings.byte_val x) (Strings.byte_val y));
    destruct (Z.ltb_spec (Strings.byte_val y) (Strings.byte_val x));
    try lia; try congruence.
  apply IH.
Qed.

Lemma ltb_cotrans (a : string) : ∀ b c,
  Strings.ltb a c = true → Strings.ltb a b = true ∨ Strings.ltb b c = true.
Proof.
  induction a as [|x a IH]; intros [|y b] [|z c]; cbn; try congruence; auto.
  destruct (Z.ltb_spec (Strings.byte_val x) (Strings.byte_val z));
    destruct (Z.ltb_spec (Strings.byte_val z) (Strings.byte_val x));
    destruct (Z.ltb_spec (Strings.byte_val x) (Strings.byte_val y));
    destruct (Z.ltb_spec (Strings.byte_val y) (Strings.byte_val x));
    destruct (Z.ltb_spec (Strings.byte_val y) (Strings.byte_val z));
    destruct (Z.ltb_spec (Strings.byte_val z) (Strings.byte_val y));
    try lia; try congruence; auto.
Qed.

Lemma ltb_le_trans (a b c : string) :
  Strings.ltb a b = false → Strings.ltb b c = false → Strings.ltb a c = false.
Proof.
  intros Hab Hbc. destruct (Strings.ltb a c) eqn:Hac; [|reflexivity].
  destruct (ltb_cotrans a b c Hac); congruence.
Qed.

(** *** The loops of the sort are a selection sort *)

Lemma insert_middle (l1 l2 : list User) (x y : User) (n : nat) :
  n = length l1 → <[n := y]> (l1 ++ x :: l2) = l1 ++ y :: l2.
Proof.
  intros ->. pose proof (insert_app_r l1 (x :: l2) 0 y) as H.
  rewrite Nat.add_0_r in H. exact H.
Qed.

Lemma inner_loop_select test (pre : list User) : ∀ todo x done fuel,
  (length todo ≤ fuel)%nat →
  inner_loop test (length pre) (S (length pre + length done)) fuel
    (pre ++ x :: done ++ todo)
  = pre ++ (select_pass test x done todo).1 :: (select_pass test x done todo).2.
Proof.
  induction todo as [|y todo IH]; intros x done fuel Hfuel.
  - cbn [select_pass fst snd]. rewrite app_nil_r.
    destruct fuel; [reflexivity|]. cbn [inner_loop].
    replace (_ <? _)%nat with false; [reflexivity|].
    symmetry. apply Nat.ltb_ge. rewrite length_app. cbn [length]. lia.
  - destruct fuel as [|fuel]; [cbn in Hfuel; lia|].
    cbn [inner_loop].
    replace (_ <? _)%nat with true
      by (symmetry; apply Nat.ltb_lt; rewrite length_app; cbn [length];
          rewrite length_app; cbn [length]; lia).
    assert (Hi : (pre ++ x :: done ++ y :: todo) !! length pre = Some x)
      by (apply list_lookup_middle; reflexivity).
    assert (Hj : (pre ++ x :: done ++ y :: todo)
                   !! S (length pre + length done) = Some y).
    { replace (pre ++ x :: done ++ y :: todo)
        with ((pre ++ x :: done) ++ y :: todo)
        by (rewrite <- app_assoc; reflexivity).
      apply list_lookup_middle. rewrite length_app. cbn [length]. lia. }
    unfold test_at, swap. rewrite Hi, Hj. cbn [select_pass].
    assert (Hlen : (length todo ≤ fuel)%nat) by (cbn [length] in Hfuel; lia).
    destruct (test x y).
    + replace (<[S (length pre + length done) := x]>
                 (<[length pre := y]> (pre ++ x :: done ++ y :: todo)))
        with (pre ++ y :: (done ++ [x]) ++ todo).
      * specialize (IH y (done ++ [x]) fuel Hlen).
        rewrite length_app in IH. cbn [length] in IH.
        replace (S (length pre + (length done + 1)))%nat
          with (S (S (length pre + length done))) in IH by lia.
        exact IH.
      * rewrite (insert_middle pre _ x y) by reflexivity.
        replace (pre ++ y :: done ++ y :: todo)
          with ((pre ++ y :: done) ++ y :: todo)
          by (rewrite <- app_assoc; reflexivity).
        rewrite (insert_middle (pre ++ y :: done) todo y x)
          by (rewrite length_app; cbn [length]; lia).
        rewrite <- !app_assoc. reflexivity.
    + specialize (IH x (done ++ [y]) fuel Hlen).
      rewrite length_app in IH. cbn [length] in IH.
      replace (S (length pre + (length done + 1)))%nat
        with (S (S (length pre + length done))) in IH by lia.
      rewrite <- app_assoc in IH. exact IH.
Qed.

Lemma select_pass_length test : ∀ todo x done,
  length (select_pass test x done todo).2 = (length done + length todo)%nat.
Proof.
  induction todo as [|y todo IH]; intros x done; cbn [select_pass].
  - cbn. lia.
  - destruct (test x y); rewrite IH, length_app; cbn [length]; lia.
Qed.

Lemma select_pass_perm test : ∀ todo x done,
  (select_pass test x done todo).1 :: (select_pass test x done todo).2
  ≡ₚ x :: done ++ todo.
Proof.
  induction todo as [|y todo IH]; intros x done; cbn [select_pass].
  - cbn. rewrite app_nil_r. reflexivity.
  - destruct (test x y); rewrite IH.
    + rewrite <- app_assoc. cbn.
      rewrite <- (Permutation_middle done todo y).
      rewrite <- (Permutation_middle done todo x).
      apply perm_swap.
    + rewrite <- app_assoc. reflexivity.
Qed.

Lemma select_pass_least test : swap_test_ok test → ∀ todo x done,
  Forall (λ d, test x d = false) done →
  Forall (λ d, test (select_pass test x done todo).1 d = false)
         (select_pass test x done todo).2.
Proof.
  intros [Hasym Htrans].
  induction todo as [|y todo IH]; intros x done Hdone; cbn [select_pass].
  - exact Hdone.
  - destruct (test x y) eqn:Hxy; apply IH.
    + apply Forall_app. split.
      * eapply Forall_impl; [exact Hdone|]. cbn. intros d Hd.
        eapply Htrans; [apply Hasym; exact Hxy | exact Hd].
      * constructor; [apply Hasym; exact Hxy | constructor].
    + apply Forall_app. split; [exact Hdone|].
      constructor; [exact Hxy | constructor].
Qed.

Lemma outer_loop_select test : ∀ fuel (pre l : list User),
  outer_loop test (length pre) fuel (pre ++ l)
  = pre ++ select_sort test fuel l.
Proof.
  induction fuel as [|fuel IH]; intros pre l; [reflexivity|].
  cbn [outer_loop select_sort]. destruct l as [|x rest].
  - rewrite app_nil_r, Nat.ltb_irrefl. reflexivity.
  - replace (_ <? _)%nat with true
      by (symmetry; apply Nat.ltb_lt; rewrite length_app; cbn [length]; lia).
    pose proof (inner_loop_select test pre rest x [] (length (pre ++ x :: rest)))
      as Hin.
    cbn [length app] in Hin. rewrite Nat.add_0_r in Hin.
    rewrite Hin by (rewrite length_app; cbn [length]; lia).
    specialize (IH (pre ++ [(select_pass test x [] rest).1])
                   (select_pass test x [] rest).2).
    rewrite length_app in IH. cbn [length] in IH.
    replace (length pre + 1)%nat with (S (length pre)) in IH by lia.
    rewrite <- !app_assoc in IH. exact IH.
Qed.

Lemma select_sort_perm test : ∀ fuel l, select_sort test fuel l ≡ₚ l.
Proof.
  induction fuel as [|fuel IH]; intros [|x rest]; cbn [select_sort];
    try reflexivity.
  rewrite IH. apply (select_pass_perm test rest x []).
Qed.

Lemma select_sort_sorted test : swap_test_ok test → ∀ fuel l,
  (length l ≤ fuel)%nat →
  StronglySorted (λ a b, test a b = false) (select_sort test fuel l).
Proof.
  intros Hok. induction fuel as [|fuel IH]; intros [|x rest] Hlen;
    cbn [select_sort]; try (cbn [length] in Hlen; lia); try constructor.
  - apply IH. rewrite select_pass_length. cbn [length] in *. lia.
  - rewrite select_sort_perm.
    apply select_pass_least; [exact Hok | constructor].
Qed.

Lemma exchange_sort_sorted test (l : list User) :
  swap_test_ok test →
  StronglySorted (λ a b, test a b = false) (exchange_sort test l).
Proof.
  intros Hok. unfold exchange_sort.
  pose proof (outer_loop_select test (length l) [] l) as H.
  cbn [length app] in H. rewrite H.
  apply select_sort_sorted; [exact Hok | lia].
Qed.

Lemma StronglySorted_weaken (R1 R2 : User → User → Prop) (l : list User) :
  (∀ a b, R1 a b → R2 a b) → StronglySorted R1 l → StronglySorted R2 l.
Proof.
  intros HR. induction 1 as [|x l Hl IH Hx]; constructor; [exact IH|].
  eapply Forall_impl; [exact Hx|]. intros b. apply HR.
Qed.

(** X1.  The sort of [getUsers] sorts: for the keys "name", "age" and
    "created" the result is in ascending order of the key, in descending
    order when the direction is "desc", and holds the same records, each
    as often as before; any other key leaves the list as it is. *)
Theorem sort_users_sorted (sortBy order : string) (l : list User) :
  sort_users sortBy order l ≡ₚ l ∧
  match sort_order sortBy order with
  | Some R => StronglySorted R (sort_users sortBy order l)
  | None => sort_users sortBy order l = l
  end.
Proof.
  split; [apply StoreProofs.sort_users_perm|].
  unfold sort_order, sort_users, name_le.
  destruct (String.eqb sortBy "name");
    [|destruct (String.eqb sortBy "age");
      [|destruct (String.eqb sortBy "created"); [|reflexivity]]];
    destruct (String.eqb order "desc");
    (eapply StronglySorted_weaken;
     [|apply exchange_sort_sorted; split]); cbn beta.
  all: try (intros a b H; exact H).
  all: try (intros a b; rewrite ?Z.ltb_ge, ?StoreProofs.gtb_false_le; lia).
  all: try (intros a b; apply ltb_asym).
  all: try (intros a b c; apply ltb_le_trans).
  all: try (intros a b c Hab Hbc; eapply ltb_le_trans; eassumption).
  all: try (intros a b;
            rewrite ?Z.ltb_lt, ?Z.ltb_ge, ?StoreProofs.gtb_true_lt,
                    ?StoreProofs.gtb_false_le; lia).
  all: try (intros a b c;
            rewrite ?Z.ltb_lt, ?Z.ltb_ge, ?StoreProofs.gtb_true_lt,
                    ?StoreProofs.gtb_false_le; lia).
Qed.

(** *** Paging *)

Lemma Atoi_range (str : string) (n : Z) :
  Strconv.Atoi str = Some n → Int.in_range n.
Proof.
  unfold Strconv.Atoi, Int.in_range. intros H.
  repeat case_match; simplify_eq; lia.
Qed.

Lemma parse_page_range (str : string) : 1 <= parse_page str <= Int.max_int.
Proof.
  unfold parse_page.
  destruct (nonempty str); [|unfold Int.max_int; lia].
  destruct (Strconv.Atoi str) as [p|] eqn:Hp; [|unfold Int.max_int; lia].
  apply Atoi_range in Hp. unfold Int.in_range in Hp.
  destruct (p >? 0) eqn:Hpos; [|unfold Int.max_int; lia].
  apply StoreProofs.gtb_true_lt in Hpos. lia.
Qed.

Lemma parse_perPage_range (str : string) : 1 <= parse_perPage str <= 100.
Proof.
  unfold parse_perPage.
  destruct (nonempty str); [|lia].
  destruct (Strconv.Atoi str) as [p|]; [|lia].
  destruct ((p >? 0) && (p <=? 100)) eqn:Hp; [|lia].
  apply andb_true_iff in Hp as [Hlo Hhi].
  apply StoreProofs.gtb_true_lt in Hlo. apply Z.leb_le in Hhi. lia.
Qed.

(** The answer of [getUsers] whenever the end of the window fits an
    [int]. *)
Lemma getUsers_returns (q : ListQuery) (visit : list (Z * User)) :
  let p := parse_page (q_page q) in
  let pp := parse_perPage (q_per_page q) in
  let l := collected q visit in
  let total := Z.of_nat (length l) in
  p * pp <= Int.max_int →
  getUsers q visit =
  Returns (respondJSON StatusOK
    {| Data := take (Z.to_nat pp) (drop (Z.to_nat ((p - 1) * pp)) l);
       Page := p; PerPage := pp; Total := total;
       TotalPages := Int.div (Int.sub (Int.add total pp) 1) pp |}).
Proof.
  intros p pp l total Hfit.
  pose proof (parse_page_range (q_page q)) as Hp.
  pose proof (parse_perPage_range (q_per_page q)) as Hpp.
  fold p in Hp. fold pp in Hpp.
  unfold getUsers. fold p pp. unfold collected in l. fold l. fold total.
  assert (Hsub : Int.sub p 1 = p - 1).
  { apply StoreProofs.wrap_id.
    unfold Int.in_range, Int.min_int, Int.max_int in *. lia. }
  assert (Hstart : Int.mul (Int.sub p 1) pp = (p - 1) * pp).
  { rewrite Hsub. apply StoreProofs.wrap_id.
    unfold Int.in_range, Int.min_int, Int.max_int in *. nia. }
  assert (Hend : Int.add (Int.mul (Int.sub p 1) pp) pp = p * pp).
  { rewrite Hstart. unfold Int.add.
    replace ((p - 1) * pp + pp) with (p * pp) by lia.
    apply StoreProofs.wrap_id.
    unfold Int.in_range, Int.min_int, Int.max_int in *. nia. }
  rewrite Hend, Hstart.
  assert (H0 : 0 <= (p - 1) * pp) by nia.
  destruct ((p - 1) * pp >=? total) eqn:Hge.
  - apply Z.geb_le in Hge. rewrite drop_ge by (subst total; lia).
    rewrite take_nil. reflexivity.
  - rewrite Z.geb_leb in Hge. apply Z.leb_gt in Hge.
    unfold slice.
    destruct (p * pp >? total) eqn:Hgt.
    + apply StoreProofs.gtb_true_lt in Hgt.
      replace ((0 <=? (p - 1) * pp) && ((p - 1) * pp <=? total)
               && (total <=? Z.of_nat (length l))) with true
        by (symmetry; rewrite !andb_true_iff, !Z.leb_le; subst total; lia).
      rewrite !take_ge; [reflexivity| |];
        rewrite length_drop; subst total; lia.
    + apply StoreProofs.gtb_false_le in Hgt.
      replace ((0 <=? (p - 1) * pp) && ((p - 1) * pp <=? p * pp)
               && (p * pp <=? Z.of_nat (length l))) with true
        by (symmetry; rewrite !andb_true_iff, !Z.leb_le; subst total; lia).
      replace (p * pp - (p - 1) * pp) with pp by lia. reflexivity.
Qed.

Lemma quot_ceil (total pp : Z) :
  0 <= total → 0 < pp →
  Z.quot (total + pp - 1) pp = pages_needed total pp.
Proof.
  intros Ht Hpp. unfold pages_needed. apply Z.quot_div_nonneg; lia.
Qed.

Lemma pages_needed_spec (total pp n : Z) :
  0 <= total → 0 < pp → (total <= n * pp ↔ pages_needed total pp <= n).
Proof.
  intros Ht Hpp. unfold pages_needed. split; intros H.
  - assert ((total + pp - 1) / pp < n + 1); [|lia].
    apply Z.div_lt_upper_bound; lia.
  - pose proof (Z.mul_div_le (total + pp - 1) pp Hpp).
    pose proof (Z.mod_pos_bound (total + pp - 1) pp Hpp).
    pose proof (Z.div_mod (total + pp - 1) pp ltac:(lia)). nia.
Qed.

(** X2.  [getUsers] on any query string.  Whatever the four parameters
    hold, the page that the handler works with is at least 1 and the
    page size between 1 and 100;
    when the end of the window fits an [int] the answer is 200 with the
    records of the collected list from position [(page - 1) * per_page]
    on, as many as there are up to [per_page]: records that follow one
    another in that list.  [total] is the length of the list and
    [total_pages] the least number of pages that hold it: that many
    pages hold [total] records and no smaller number does.  The page is
    empty exactly when it lies past the last page. *)
Theorem getUsers_any_query (q : ListQuery) (visit : list (Z * User)) :
  parse_page (q_page q) * parse_perPage (q_per_page q) <= Int.max_int →
  Z.of_nat (length visit) + 100 <= Int.max_int →
  ∃ r, getUsers q visit = Returns (respondJSON StatusOK r) ∧
    Page r = parse_page (q_page q) ∧ 1 <= Page r ∧
    PerPage r = parse_perPage (q_per_page q) ∧ 1 <= PerPage r <= 100 ∧
    Total r = Z.of_nat (length visit) ∧
    Z.of_nat (length (Data r)) <= PerPage r ∧
    Data r = take (Z.to_nat (PerPage r))
               (drop (Z.to_nat ((Page r - 1) * PerPage r))
                     (collected q visit)) ∧
    0 <= TotalPages r ∧
    Total r <= TotalPages r * PerPage r ∧
    (∀ n, Total r <= n * PerPage r → TotalPages r <= n) ∧
    (Data r = [] ↔ TotalPages r < Page r).
Proof.
  intros Hfit Hsize. rewrite (getUsers_returns q visit Hfit).
  pose proof (parse_page_range (q_page q)) as Hp.
  pose proof (parse_perPage_range (q_per_page q)) as Hpp.
  set (p := parse_page (q_page q)) in *.
  set (pp := parse_perPage (q_per_page q)) in *.
  assert (Hlen : length (collected q visit) = length visit).
  { unfold collected. destruct (nonempty (q_sort q));
      [rewrite StoreProofs.sort_users_length|]; apply length_fmap. }
  set (l := collected q visit) in *.
  assert (Htp : Int.div (Int.sub (Int.add (Z.of_nat (length l)) pp) 1) pp
                = pages_needed (Z.of_nat (length l)) pp).
  { unfold Int.add, Int.sub, Int.div.
    rewrite (StoreProofs.wrap_id (Z.of_nat (length l) + pp))
      by (unfold Int.in_range, Int.min_int, Int.max_int in *; lia).
    rewrite (StoreProofs.wrap_id (Z.of_nat (length l) + pp - 1))
      by (unfold Int.in_range, Int.min_int, Int.max_int in *; lia).
    rewrite quot_ceil by lia.
    apply StoreProofs.wrap_id. unfold pages_needed.
    assert (0 <= (Z.of_nat (length l) + pp - 1) / pp
            <= Z.of_nat (length l) + pp - 1).
    { split; [apply Z.div_pos; lia|].
      apply Z.div_le_upper_bound; [lia|]. nia. }
    unfold Int.in_range, Int.min_int, Int.max_int in *. lia. }
  eexists. split; [reflexivity|]. cbn [Page PerPage Total TotalPages Data].
  assert (Hleast : ∀ n, Z.of_nat (length l) <= n * pp ↔
                        pages_needed (Z.of_nat (length l)) pp <= n)
    by (intros n; apply pages_needed_spec; lia).
  assert (H0 : 0 <= pages_needed (Z.of_nat (length l)) pp)
    by (unfold pages_needed; apply Z.div_pos; lia).
  split_and!; try lia.
  - rewrite length_take. lia.
  - reflexivity.
  - rewrite Htp. apply Hleast. lia.
  - rewrite Htp. intros n Hn. apply Hleast. exact Hn.
  - rewrite Htp. split.
    + intros Hnil.
      assert (Hd : length (drop (Z.to_nat ((p - 1) * pp)) l) = 0%nat).
      { destruct (drop (Z.to_nat ((p - 1) * pp)) l) eqn:Hdrop; [reflexivity|].
        destruct (Z.to_nat pp) eqn:Hn; [lia|]. cbn in Hnil. discriminate. }
      rewrite length_drop in Hd.
      assert (H : Z.of_nat (length l) <= (p - 1) * pp) by nia.
      apply pages_needed_spec in H; lia.
    + intros Hlt.
      assert (H : pages_needed (Z.of_nat (length l)) pp <= p - 1) by lia.
      apply pages_needed_spec in H; [|lia|lia].
      rewrite drop_ge by lia. apply take_nil.
Qed.



(** *** Deleting, activating, deactivating *)

(** X4.  [deleteUser] after the deletion.  Deleting a stored record
    answers 200; from then on [getUser] and a second [deleteUser] of the
    same identifier answer 404 and change nothing, every other
    identifier answers as before, and the counter of identifiers is not
    moved back. *)
Theorem deleteUser_then_absent (id : Z) (s : Store) (u : User) :
  users s !! id = Some u →
  ∃ s', deleteUser (Some id) s = (s', respondJSON StatusOK "Пользователь удален") ∧
    getUser (Some id) s' = respondError StatusNotFound "Пользователь не найден" ∧
    deleteUser (Some id) s' =
      (s', respondError StatusNotFound "Пользователь не найден") ∧
    (∀ j, j ≠ id → getUser (Some j) s' = getUser (Some j) s) ∧
    nextID s' = nextID s.
Proof.
  intros Hu. eexists. unfold deleteUser at 1. rewrite Hu.
  split; [reflexivity|]. unfold getUser, deleteUser, set_users.
  cbn [users nextID]. rewrite lookup_delete_eq. split_and!; try reflexivity.
  intros j Hj. rewrite lookup_delete_ne by congruence. reflexivity.
Qed.

(** X5.  [activateUser] and [deactivateUser].  On an identifier that is
    not stored both answer 404 and leave the store alone.  On a stored
    record they set the flag and the update instant and nothing else, of
    that record only; and the last of two such calls decides: the store
    and the answer are those of the last call alone. *)
Theorem activate_deactivate_last_wins (now now' : Z) (id : Z) (s : Store)
    (flag flag' : bool) :
  let toggle (b : bool) := if b then activateUser else deactivateUser in
  match users s !! id with
  | None =>
      toggle flag now (Some id) s = (s, respondError StatusNotFound "User not found")
  | Some u =>
      let u' := set_UpdatedAt (set_Active u flag) now in
      toggle flag now (Some id) s =
        (set_users s (<[id := u']> (users s)), respondJSON StatusOK u') ∧
      toggle flag' now' (Some id) (toggle flag now (Some id) s).1 =
        toggle flag' now' (Some id) s
  end.
Proof.
  intros toggle. destruct (users s !! id) as [u|] eqn:Hu.
  - assert (Hone : ∀ b t, toggle b t (Some id) s =
      (set_users s (<[id := set_UpdatedAt (set_Active u b) t]> (users s)),
       respondJSON StatusOK (set_UpdatedAt (set_Active u b) t))).
    { intros [|] t; cbn [toggle]; unfold activateUser, deactivateUser;
        rewrite Hu; reflexivity. }
    split; [apply Hone|]. rewrite !Hone. cbn [fst].
    destruct flag'; cbn [toggle]; unfold activateUser, deactivateUser,
      set_users; cbn [users nextID stats];
      rewrite lookup_insert_eq, insert_insert_eq; reflexivity.
  - destruct flag; cbn [toggle]; unfold activateUser, deactivateUser;
      rewrite Hu; reflexivity.
Qed.

(** *** The batches *)

Lemma batch_delete_loop_spec : ∀ (ids acc : list Z) (s : Store),
  ∃ s' gone, batch_delete_loop ids acc s = (s', acc ++ gone) ∧
    NoDup gone ∧
    (∀ j, j ∈ gone ↔ j ∈ ids ∧ is_Some (users s !! j)) ∧
    (∀ j, users s' !! j = if decide (j ∈ ids) then None else users s !! j) ∧
    nextID s' = nextID s ∧ stats s' = stats s.
Proof.
  induction ids as [|id ids IH]; intros acc s.
  - exists s, []. rewrite app_nil_r. split_and!; try reflexivity.
    + constructor.
    + intros j. split; [intros H; inversion H | intros [H _]; inversion H].
  - cbn [batch_delete_loop]. destruct (users s !! id) as [u|] eqn:Hu.
    + destruct (IH (acc ++ [id]) (set_users s (delete id (users s))))
        as (s' & gone & Heq & Hnd & Hin & Hlook & Hnext & Hstats).
      cbn [set_users users nextID stats] in *.
      exists s', (id :: gone). rewrite Heq, <- app_assoc.
      split_and!; try reflexivity; try assumption.
      * constructor; [|exact Hnd]. intros Hgone. apply Hin in Hgone.
        destruct Hgone as [_ [x Hx]]. rewrite lookup_delete_eq in Hx.
        discriminate.
      * intros j. rewrite !elem_of_cons, Hin. split.
        -- intros [->|[Hj Hsome]]; [split; [auto | eexists; exact Hu]|].
           split; [auto|]. destruct (decide (id = j)) as [->|Hne];
             [rewrite lookup_delete_eq in Hsome; destruct Hsome; discriminate|].
           rewrite lookup_delete_ne in Hsome by exact Hne. exact Hsome.
        -- intros [[->|Hj] Hsome]; [auto|].
           destruct (decide (j = id)) as [->|Hne]; [auto|]. right.
           split; [exact Hj|]. rewrite lookup_delete_ne by congruence.
           exact Hsome.
      * intros j. rewrite Hlook.
        destruct (decide (j = id)) as [->|Hne].
        -- rewrite lookup_delete_eq.
           rewrite (decide_True (P := id ∈ id :: ids)) by (left).
           destruct (decide (id ∈ ids)); reflexivity.
        -- rewrite lookup_delete_ne by congruence.
           destruct (decide (j ∈ ids)) as [Hj|Hj].
           ++ rewrite decide_True by (right; exact Hj). reflexivity.
           ++ rewrite decide_False; [reflexivity|].
              rewrite elem_of_cons. intros [?|?]; contradiction.
    + destruct (IH acc s) as (s' & gone & Heq & Hnd & Hin & Hlook & Hnext & Hstats).
      exists s', gone. rewrite Heq.
      split_and!; try reflexivity; try assumption.
      * intros j. rewrite elem_of_cons, Hin. split.
        -- intros [Hj Hsome]. auto.
        -- intros [[->|Hj] Hsome]; [|auto].
           rewrite Hu in Hsome. destruct Hsome; discriminate.
      * intros j. rewrite Hlook. destruct (decide (j ∈ ids)) as [Hj|Hj].
        -- rewrite decide_True by (right; exact Hj). reflexivity.
        -- destruct (decide (j = id)) as [->|Hne].
           ++ rewrite decide_True by left. exact Hu.
           ++ rewrite decide_False; [reflexivity|].
              rewrite elem_of_cons. intros [?|?]; contradiction.
Qed.

(** X6.  [batchDeleteUsers] on a non-empty list of identifiers.  The
    answer is 200 and lists, each once, exactly the identifiers of the
    request that were stored; a repeated or unknown identifier is passed
    over without an error.  Afterwards none of the requested identifiers
    is stored and every other record is as before. *)
Theorem batchDeleteUsers_spec (ids : list Z) (s : Store) :
  ids ≠ [] →
  ∃ s' gone,
    batchDeleteUsers (Some ids) s =
      (s', respondJSON StatusOK
             {| deleted := gone; deleted_count := Z.of_nat (length gone) |}) ∧
    NoDup gone ∧
    (∀ j, j ∈ gone ↔ j ∈ ids ∧ is_Some (users s !! j)) ∧
    (∀ j, users s' !! j = if decide (j ∈ ids) then None else users s !! j) ∧
    nextID s' = nextID s.
Proof.
  intros Hne. unfold batchDeleteUsers.
  destruct ids as [|id ids]; [congruence|]. cbn [length Nat.eqb].
  destruct (batch_delete_loop_spec (id :: ids) [] s)
    as (s' & gone & Heq & Hnd & Hin & Hlook & Hnext & _).
  rewrite Heq. cbn [app]. exists s', gone. auto.
Qed.

Section Batches.

Variable unicode_lower : string -> string.

Local Abbreviation batch_accepts := (batch_accepts unicode_lower).

Lemma batch_users_length (rs : list (CreateInput * Z)) : ∀ id,
  length (batch_users id rs) = length rs.
Proof. induction rs as [|r rs IH]; intros id; cbn; [|rewrite IH]; reflexivity. Qed.

Lemma batch_users_ids (rs : list (CreateInput * Z)) : ∀ id,
  ID <$> batch_users id rs = seqZ id (Z.of_nat (length rs)).
Proof.
  induction rs as [|r rs IH]; intros id; [reflexivity|].
  cbn [batch_users length fmap list_fmap].
  rewrite Nat2Z.inj_succ, seqZ_cons by lia. cbn [ID batch_user]. f_equal.
  replace (Z.succ id) with (id + 1) by lia.
  replace (Z.pred (Z.succ (Z.of_nat (length rs)))) with (Z.of_nat (length rs))
    by lia.
  apply IH.
Qed.

Lemma batch_users_stored (rs : list (CreateInput * Z)) : ∀ id (m : gmap Z User),
  let m' := foldl (λ m u, <[ID u := u]> m) m (batch_users id rs) in
  (∀ u, u ∈ batch_users id rs → m' !! ID u = Some u) ∧
  (∀ j, j < id ∨ id + Z.of_nat (length rs) <= j → m' !! j = m !! j).
Proof.
  induction rs as [|r rs IH]; intros id m; cbn zeta.
  - split; [intros u Hu; inversion Hu | reflexivity].
  - cbn [batch_users foldl]. cbn [ID batch_user].
    destruct (IH (id + 1) (<[id := batch_user id r]> m)) as [Hin Hout].
    cbn zeta in Hin, Hout. split.
    + intros u Hu. apply elem_of_cons in Hu as [->|Hu]; [|apply Hin, Hu].
      cbn [ID batch_user]. rewrite Hout by lia. apply lookup_insert_eq.
    + intros j Hj. cbn [length] in Hj. rewrite Hout by lia.
      apply lookup_insert_ne. lia.
Qed.

Lemma batch_create_loop_spec : ∀ (reqs : list (CreateInput * Z))
    (acc : list User) (s : Store),
  Int.min_int <= nextID s →
  nextID s + Z.of_nat (length reqs) <= Int.max_int →
  let us := batch_users (nextID s) (filter (λ r, batch_accepts r = true) reqs) in
  batch_create_loop unicode_lower reqs acc s =
  ({| users := foldl (λ m u, <[ID u := u]> m) (users s) us;
      nextID := nextID s + Z.of_nat (length us);
      stats := stats s |}, acc ++ us).
Proof.
  induction reqs as [|[input now] reqs IH]; intros acc s Hmin Hmax; cbn zeta.
  - cbn. rewrite app_nil_r, Z.add_0_r. destruct s; reflexivity.
  - cbn [batch_create_loop length] in *.
    destruct (batch_accepts (input, now)) eqn:Hacc.
    + rewrite filter_cons_True by exact Hacc.
      unfold HandlerSpec.batch_accepts in Hacc. cbn [fst] in Hacc.
      apply andb_true_iff in Hacc as [Hacc Hmail].
      apply andb_true_iff in Hacc as [Hname Hemail].
      unfold nonempty in Hname, Hemail.
      apply negb_true_iff in Hname, Hemail.
      rewrite Hname, Hemail, Hmail. cbn [orb negb].
      rewrite IH; unfold set_nextID, set_users; cbn [users nextID stats];
        rewrite StoreProofs.add_1_no_overflow by lia; [|lia|lia].
      cbn [batch_users foldl length]. cbn [ID batch_user].
      rewrite <- app_assoc. cbn [app fst snd].
      f_equal. f_equal. lia.
    + rewrite filter_cons_False by (rewrite Hacc; discriminate).
      unfold HandlerSpec.batch_accepts in Hacc. cbn [fst] in Hacc.
      replace (if String.eqb (in_Name input) "" || String.eqb (in_Email input) ""
               then batch_create_loop unicode_lower reqs acc s
               else if negb (valid_email unicode_lower (in_Email input))
                    then batch_create_loop unicode_lower reqs acc s
                    else _)
        with (batch_create_loop unicode_lower reqs acc s).
      * apply IH; lia.
      * unfold nonempty in Hacc.
        destruct (String.eqb (in_Name input) ""); [reflexivity|].
        destruct (String.eqb (in_Email input) ""); [reflexivity|].
        cbn in Hacc. rewrite Hacc. reflexivity.
Qed.

(** X7.  [batchCreateUsers] on a batch of 1 to 100 requests, while the
    counter stays within [int].  The requests with a name, an email and
    an email of the accepted syntax are stored in the order of the
    request under consecutive identifiers from [nextID] on; the others
    are skipped without an error.  The answer is 201 with the stored
    records and their number, the counter advances by that number, and
    no other identifier of the table changes. *)
Theorem batchCreateUsers_spec (reqs : list (CreateInput * Z)) (s : Store) :
  (0 < length reqs <= 100)%nat →
  Int.min_int <= nextID s →
  nextID s + Z.of_nat (length reqs) <= Int.max_int →
  let accepted := filter (λ r, batch_accepts r = true) reqs in
  let us := batch_users (nextID s) accepted in
  ∃ s',
    batchCreateUsers unicode_lower (Some reqs) s =
      (s', respondJSON StatusCreated
             {| created := us;
                created_count := Z.of_nat (length accepted) |}) ∧
    ID <$> us = seqZ (nextID s) (Z.of_nat (length accepted)) ∧
    nextID s' = nextID s + Z.of_nat (length accepted) ∧
    (∀ u, u ∈ us → users s' !! ID u = Some u) ∧
    (∀ j, j < nextID s ∨ nextID s' <= j → users s' !! j = users s !! j).
Proof.
  intros Hlen Hmin Hmax accepted us. unfold batchCreateUsers.
  replace (length reqs =? 0)%nat with false
    by (symmetry; apply Nat.eqb_neq; lia).
  replace (100 <? length reqs)%nat with false
    by (symmetry; apply Nat.ltb_ge; lia).
  rewrite (batch_create_loop_spec reqs [] s Hmin Hmax). cbn [app].
  fold accepted. fold us.
  pose proof (batch_users_stored accepted (nextID s) (users s)) as [Hin Hout].
  cbn zeta in Hin, Hout. fold us in Hin, Hout.
  assert (Hus : length us = length accepted) by apply batch_users_length.
  eexists. split; [rewrite Hus; reflexivity|]. cbn [users nextID].
  split_and!.
  - apply batch_users_ids.
  - reflexivity.
  - exact Hin.
  - intros j Hj. apply Hout. exact Hj.
Qed.

Lemma batch_create_loop_sequential : ∀ (reqs : list (CreateInput * Z))
    (acc : list User) (s : Store),
  Forall (λ r, 0 <= in_Age r.1 <= 150) reqs →
  batch_create_loop unicode_lower reqs acc s =
  ((create_seq unicode_lower (as_single <$> reqs) s).1,
   acc ++ concat (created_of <$> (create_seq unicode_lower (as_single <$> reqs) s).2)).
Proof.
  induction reqs as [|[input now] reqs IH]; intros acc s Hages.
  - cbn. rewrite app_nil_r. reflexivity.
  - apply Forall_cons in Hages as [Hage Hages]. cbn [fst] in Hage.
    cbn [fmap list_fmap as_single create_seq batch_create_loop fst snd].
    unfold createUser.
    destruct (String.eqb (in_Name input) "" || String.eqb (in_Email input) "").
    { rewrite IH by exact Hages.
      destruct (create_seq unicode_lower (as_single <$> reqs) s); reflexivity. }
    destruct (negb (valid_email unicode_lower (in_Email input))).
    { rewrite IH by exact Hages.
      destruct (create_seq unicode_lower (as_single <$> reqs) s); reflexivity. }
    replace ((in_Age input <? 0) || (in_Age input >? 150)) with false
      by (symmetry; apply orb_false_iff; split;
          [apply Z.ltb_ge | apply StoreProofs.gtb_false_le]; lia).
    rewrite IH by exact Hages.
    destruct (create_seq unicode_lower (as_single <$> reqs) _).
    cbn [fst snd created_of fmap list_fmap concat app].
    rewrite <- app_assoc. reflexivity.
Qed.

(** X8.  A batch is the sequence of its single creations, when every
    age of the batch is within 0..150: [batchCreateUsers] leaves the
    store that the calls of [createUser] on the requests, one after the
    other, leave, and answers with the records that those calls
    answer with, in the same order. *)
Theorem batchCreateUsers_sequential (reqs : list (CreateInput * Z)) (s : Store) :
  (0 < length reqs <= 100)%nat →
  Forall (λ r, 0 <= in_Age r.1 <= 150) reqs →
  ∃ s' answers,
    create_seq unicode_lower (as_single <$> reqs) s = (s', answers) ∧
    batchCreateUsers unicode_lower (Some reqs) s =
      (s', respondJSON StatusCreated
             {| created := concat (created_of <$> answers);
                created_count :=
                  Z.of_nat (length (concat (created_of <$> answers))) |}).
Proof.
  intros Hlen Hages. unfold batchCreateUsers.
  replace (length reqs =? 0)%nat with false
    by (symmetry; apply Nat.eqb_neq; lia).
  replace (100 <? length reqs)%nat with false
    by (symmetry; apply Nat.ltb_ge; lia).
  rewrite (batch_create_loop_sequential reqs [] s Hages). cbn [app].
  destruct (create_seq unicode_lower (as_single <$> reqs) s) as [s' answers].
  exists s', answers. split; reflexivity.
Qed.

(** X9.  The batch does not check the age.  A request with a name and
    an accepted email whose age is outside 0..150 is refused by
    [createUser] with 400 and the store unchanged, and stored by
    [batchCreateUsers] with that age. *)
Theorem batchCreateUsers_no_age_check (input : CreateInput) (now now_msg : Z)
    (s : Store) :
  in_Name input ≠ "" → in_Email input ≠ "" →
  valid_email unicode_lower (in_Email input) = true →
  ¬ (0 <= in_Age input <= 150) →
  createUser unicode_lower now now_msg (Some input) s =
    (s, respondError StatusBadRequest "Age must be between 0 and 150", None) ∧
  ∃ s', batchCreateUsers unicode_lower (Some [(input, now)]) s =
      (s', respondJSON StatusCreated
             {| created := [created_user now input s]; created_count := 1 |}) ∧
    users s' !! nextID s = Some (created_user now input s) ∧
    Age (created_user now input s) = in_Age input.
Proof.
  intros Hname Hemail Hmail Hage.
  apply String.eqb_neq in Hname, Hemail.
  unfold createUser, batchCreateUsers. cbn [length Nat.eqb Nat.ltb Nat.leb].
  cbn [batch_create_loop]. rewrite Hname, Hemail, Hmail. cbn [orb negb].
  replace ((in_Age input <? 0) || (in_Age input >? 150)) with true.
  - split; [reflexivity|]. eexists. split; [reflexivity|].
    unfold set_nextID, set_users. cbn [users nextID].
    split; [apply lookup_insert_eq | reflexivity].
  - symmetry. apply orb_true_iff.
    destruct (Z.ltb_spec (in_Age input) 0); [auto|]. right.
    apply StoreProofs.gtb_true_lt. lia.
Qed.

(** X10.  [createUser] does not look for the email in the table.  The
    same valid input, sent twice, is stored twice: both calls answer
    201, with consecutive identifiers and the same email, and both
    records are in the table afterwards. *)
Theorem createUser_allows_duplicate_email (now now_msg now' now_msg' : Z)
    (input : CreateInput) (s : Store) :
  valid_input unicode_lower input →
  Int.min_int <= nextID s < Int.max_int →
  ∃ u1 u2 s1 s2 m1 m2,
    createUser unicode_lower now now_msg (Some input) s
      = (s1, respondJSON StatusCreated u1, m1) ∧
    createUser unicode_lower now' now_msg' (Some input) s1
      = (s2, respondJSON StatusCreated u2, m2) ∧
    Email u1 = Email u2 ∧ ID u2 = ID u1 + 1 ∧
    users s2 !! ID u1 = Some u1 ∧ users s2 !! ID u2 = Some u2.
Proof.
  intros Hvalid Hnext.
  destruct (StoreProofs.createUser_valid unicode_lower now now_msg input s Hvalid)
    as [m1 H1].
  set (s1 := {| users := _; nextID := _; stats := _ |}) in H1.
  destruct (StoreProofs.createUser_valid unicode_lower now' now_msg' input s1 Hvalid)
    as [m2 H2].
  eexists _, _, s1, _, (Some m1), (Some m2).
  split; [exact H1|]. split; [exact H2|].
  subst s1. cbn [users nextID created_user ID Email].
  rewrite StoreProofs.add_1_no_overflow by lia.
  split_and!; try reflexivity.
  - rewrite lookup_insert_ne by lia. apply lookup_insert_eq.
  - apply lookup_insert_eq.
Qed.

(** X11.  The listing follows the store.  Whatever the query and the
    orders of the two ranges, the list that [getUsers] pages after a
    successful [createUser] is the list before it with the new record
    added, and the list after a successful [deleteUser] is the list
    before it with the deleted record removed, up to the order. *)
Theorem listing_follows_store (now now_msg : Z) (input : CreateInput)
    (id : Z) (u : User) (s : Store) (q : ListQuery)
    (visit visit' visit'' : list (Z * User)) :
  range_of s visit →
  (valid_input unicode_lower input → users s !! nextID s = None →
   range_of (createUser unicode_lower now now_msg (Some input) s).1.1 visit' →
   collected q visit' ≡ₚ created_user now input s :: collected q visit) ∧
  (users s !! id = Some u →
   range_of (deleteUser (Some id) s).1 visit'' →
   collected q visit ≡ₚ u :: collected q visit'').
Proof.
  intros Hrange.
  assert (Hcol : ∀ v, collected q v ≡ₚ v.*2).
  { intros v. unfold collected. destruct (nonempty (q_sort q));
      [apply StoreProofs.sort_users_perm | reflexivity]. }
  unfold range_of in *. split.
  - intros Hvalid Hfresh Hrange'.
    destruct (StoreProofs.createUser_valid unicode_lower now now_msg input s Hvalid)
      as [msg Hc].
    rewrite Hc in Hrange'. cbn [fst users] in Hrange'.
    rewrite !Hcol, Hrange', Hrange.
    rewrite map_to_list_insert by exact Hfresh. reflexivity.
  - intros Hu Hrange''. unfold deleteUser in Hrange''. rewrite Hu in Hrange''.
    cbn [fst set_users users] in Hrange''.
    rewrite !Hcol, Hrange'', Hrange.
    rewrite <- (map_to_list_delete (users s) id u Hu). reflexivity.
Qed.

End Batches.

Lemma getUsers_any_query_witness :
  ∃ r, getUsers garbled_query seeded_visit = Returns (respondJSON StatusOK r) ∧
    Page r = 1 ∧ PerPage r = 10 ∧ Total r = 5 ∧ TotalPages r = 1 ∧
    Data r ≠ [].
Proof.
  destruct (getUsers_any_query garbled_query seeded_visit)
    as (r & Hr & Hpage & _ & Hper & _ & Htotal & _ & Hdata & Hpos & Hholds
        & Hleast & Hnil).
  - vm_compute. discriminate.
  - vm_compute. discriminate.
  - exists r. rewrite Htotal, Hper, Hpage in *.
    change (parse_page (q_page garbled_query)) with 1 in *.
    change (parse_perPage (q_per_page garbled_query)) with 10 in *.
    change (Z.of_nat (length seeded_visit)) with 5 in *.
    specialize (Hleast 1 ltac:(lia)).
    split; [exact Hr|]. split; [reflexivity|]. split; [reflexivity|].
    split; [reflexivity|]. split; [lia|].
    rewrite Hdata. vm_compute. discriminate.
Defined.


Lemma deleteUser_then_absent_witness :
  ∃ s', deleteUser (Some 3) (fresh_server 0 0) =
          (s', respondJSON StatusOK "Пользователь удален") ∧
    getUser (Some 3) s' = respondError StatusNotFound "Пользователь не найден" ∧
    deleteUser (Some 3) s' =
      (s', respondError StatusNotFound "Пользователь не найден") ∧
    (∀ j, j ≠ 3 → getUser (Some j) s' = getUser (Some j) (fresh_server 0 0)) ∧
    nextID s' = nextID (fresh_server 0 0).
Proof.
  eapply (deleteUser_then_absent 3 (fresh_server 0 0)).
  vm_compute. reflexivity.
Defined.

Lemma batchDeleteUsers_spec_witness :
  ∃ s' gone,
    batchDeleteUsers (Some [3; 9; 3]) (fresh_server 0 0) =
      (s', respondJSON StatusOK
             {| deleted := gone; deleted_count := Z.of_nat (length gone) |}) ∧
    NoDup gone ∧
    (∀ j, j ∈ gone ↔ j ∈ [3; 9; 3] ∧ is_Some (users (fresh_server 0 0) !! j)) ∧
    (∀ j, users s' !! j =
          if decide (j ∈ [3; 9; 3]) then None
          else users (fresh_server 0 0) !! j) ∧
    nextID s' = nextID (fresh_server 0 0).
Proof.
  apply (batchDeleteUsers_spec [3; 9; 3] (fresh_server 0 0)). discriminate.
Defined.

Lemma batchCreateUsers_spec_witness :
  ∃ s',
    batchCreateUsers no_unicode (Some mixed_batch) (fresh_server 0 0) =
      (s', respondJSON StatusCreated
             {| created := [batch_user 6 (alice, 10); batch_user 7 (bob, 12)];
                created_count := 2 |}) ∧
    nextID s' = 8.
Proof.
  destruct (batchCreateUsers_spec no_unicode mixed_batch (fresh_server 0 0))
    as (s' & Hs' & _ & Hnext & _).
  - cbn. lia.
  - vm_compute. discriminate.
  - vm_compute. discriminate.
  - exists s'. split; [exact Hs' | exact Hnext].
Defined.

Lemma batchCreateUsers_sequential_witness :
  ∃ s' answers,
    create_seq no_unicode (as_single <$> mixed_batch) (fresh_server 0 0)
      = (s', answers) ∧
    batchCreateUsers no_unicode (Some mixed_batch) (fresh_server 0 0) =
      (s', respondJSON StatusCreated
             {| created := concat (created_of <$> answers);
                created_count :=
                  Z.of_nat (length (concat (created_of <$> answers))) |}).
Proof.
  apply (batchCreateUsers_sequential no_unicode mixed_batch (fresh_server 0 0)).
  - cbn. lia.
  - repeat constructor; vm_compute; discriminate.
Defined.

Lemma batchCreateUsers_no_age_check_witness :
  createUser no_unicode 10 11 (Some methuselah) (fresh_server 0 0) =
    (fresh_server 0 0,
     respondError StatusBadRequest "Age must be between 0 and 150", None) ∧
  ∃ s', batchCreateUsers no_unicode (Some [(methuselah, 10)]) (fresh_server 0 0) =
      (s', respondJSON StatusCreated
             {| created := [created_user 10 methuselah (fresh_server 0 0)];
                created_count := 1 |}) ∧
    users s' !! nextID (fresh_server 0 0)
      = Some (created_user 10 methuselah (fresh_server 0 0)) ∧
    Age (created_user 10 methuselah (fresh_server 0 0)) = in_Age methuselah.
Proof.
  apply (batchCreateUsers_no_age_check no_unicode methuselah 10 11
           (fresh_server 0 0)).
  - discriminate.
  - discriminate.
  - vm_compute. reflexivity.
  - cbn. lia.
Defined.

Lemma createUser_allows_duplicate_email_witness :
  ∃ u1 u2 s1 s2 m1 m2,
    createUser no_unicode 10 11 (Some alice) (fresh_server 0 0)
      = (s1, respondJSON StatusCreated u1, m1) ∧
    createUser no_unicode 20 21 (Some alice) s1
      = (s2, respondJSON StatusCreated u2, m2) ∧
    Email u1 = Email u2 ∧ ID u2 = ID u1 + 1 ∧
    users s2 !! ID u1 = Some u1 ∧ users s2 !! ID u2 = Some u2.
Proof.
  apply (createUser_allows_duplicate_email no_unicode 10 11 20 21 alice
           (fresh_server 0 0)).
  - apply StoreProofs.alice_valid.
  - vm_compute. split; [discriminate|reflexivity].
Defined.

Lemma listing_follows_store_witness :
  collected second_page_by_age
    (map_to_list (users (createUser no_unicode 10 11 (Some alice)
                           (fresh_server 0 0)).1.1))
  ≡ₚ created_user 10 alice (fresh_server 0 0)
     :: collected second_page_by_age seeded_visit ∧
  collected second_page_by_age seeded_visit
  ≡ₚ john :: collected second_page_by_age
               (map_to_list (users (deleteUser (Some 4) (fresh_server 0 0)).1)).
Proof.
  destruct (listing_follows_store no_unicode 10 11 alice 4 john
              (fresh_server 0 0) second_page_by_age seeded_visit
              (map_to_list (users (createUser no_unicode 10 11 (Some alice)
                                     (fresh_server 0 0)).1.1))
              (map_to_list (users (deleteUser (Some 4) (fresh_server 0 0)).1)))
    as [Hcreate Hdelete].
  - unfold range_of. reflexivity.
  - split.
    + apply Hcreate.
      * apply StoreProofs.alice_valid.
      * vm_compute. reflexivity.
      * unfold range_of. reflexivity.
    + apply Hdelete.
      * vm_compute. reflexivity.
      * unfold range_of. reflexivity.
Defined.

End HandlerProofs.

(* ===================================================================== *)
(** ** The reports                                                        *)
(* ===================================================================== *)

Module ReportProofs.

Import Server Reports StoreSpec ReportSpec.

Local Open Scope list_scope.
Local Open Scope Z_scope.

(** *** Counting *)

Lemma count_where_nil (P : User → bool) : count_where P [] = 0.
Proof. reflexivity. Qed.

Lemma count_where_cons (P : User → bool) (u : User) (l : list User) :
  count_where P (u :: l) = (if P u then 1 else 0) + count_where P l.
Proof.
  unfold count_where. destruct (P u) eqn:HP.
  - rewrite filter_cons_True by exact HP. cbn [length]. lia.
  - rewrite filter_cons_False by (rewrite HP; discriminate). lia.
Qed.

Lemma count_where_bounds (P : User → bool) (l : list User) :
  0 <= count_where P l <= Z.of_nat (length l).
Proof.
  unfold count_where. pose proof (length_filter (λ u, P u = true) l). lia.
Qed.

Lemma count_where_perm (P : User → bool) (l1 l2 : list User) :
  l1 ≡ₚ l2 → count_where P l1 = count_where P l2.
Proof. intros H. unfold count_where. rewrite H. reflexivity. Qed.

Lemma count_where_split (P : User → bool) (l : list User) :
  count_where P l + count_where (λ u, negb (P u)) l = Z.of_nat (length l).
Proof.
  induction l as [|u l IH]; [reflexivity|].
  rewrite !count_where_cons. cbn [length]. destruct (P u); cbn [negb]; lia.
Qed.

Lemma age_total_cons (u : User) (l : list User) :
  age_total (u :: l) = (if has_age u then Age u else 0) + age_total l.
Proof.
  unfold age_total. destruct (has_age u) eqn:HP.
  - rewrite filter_cons_True by exact HP. reflexivity.
  - rewrite filter_cons_False by (rewrite HP; discriminate). reflexivity.
Qed.

Lemma age_total_nonneg (l : list User) : 0 <= age_total l.
Proof.
  induction l as [|u l IH]; [reflexivity|]. rewrite age_total_cons.
  unfold has_age. destruct (Age u >? 0) eqn:H; [|lia].
  apply StoreProofs.gtb_true_lt in H. lia.
Qed.

Lemma age_total_perm (l1 l2 : list User) :
  l1 ≡ₚ l2 → age_total l1 = age_total l2.
Proof.
  induction 1 as [|u l1 l2 _ IH|u v l|l1 l2 l3 _ IH1 _ IH2].
  - reflexivity.
  - rewrite !age_total_cons, IH. reflexivity.
  - rewrite !age_total_cons. lia.
  - congruence.
Qed.

(** [has_age] holds of at least as many records as the sum counts. *)
Lemma age_total_ge_count (l : list User) : count_where has_age l <= age_total l.
Proof.
  induction l as [|u l IH]; [reflexivity|].
  rewrite age_total_cons, count_where_cons. unfold has_age in *.
  destruct (Age u >? 0) eqn:H; [|lia].
  apply StoreProofs.gtb_true_lt in H. lia.
Qed.

Ltac in_range := unfold Int.in_range, Int.min_int, Int.max_int in *; lia.

Lemma add_small (a b : Z) :
  0 <= a → 0 <= b → a + b <= Int.max_int → Int.add a b = a + b.
Proof. intros Ha Hb Hab. apply StoreProofs.wrap_id. in_range. Qed.

(** *** The loops *)

Lemma active_loop (l : list User) : ∀ n,
  0 <= n → n + Z.of_nat (length l) <= Int.max_int →
  foldl (λ activeUsers user,
           if Active user then Int.add activeUsers 1 else activeUsers) n l
  = n + count_where Active l.
Proof.
  induction l as [|u l IH]; intros n Hn Hmax; cbn [foldl].
  - rewrite count_where_nil. lia.
  - rewrite count_where_cons. cbn [length] in Hmax.
    destruct (Active u).
    + rewrite add_small by lia. rewrite IH by lia. lia.
    + rewrite IH by lia. lia.
Qed.

(** The entries of a country map after the loop over [l], from the
    map [m]. *)
Lemma country_loop (l : list User) : ∀ (m : gmap string Z) (c : string),
  (∀ c, 0 <= default 0 (m !! c)) →
  (∀ c, default 0 (m !! c) + Z.of_nat (length l) <= Int.max_int) →
  foldl (λ m u, if nonempty (Country u) then incr (Country u) m else m) m l
    !! c =
  if decide (c ≠ "" ∧ 0 < count_where (in_country c) l)
  then Some (default 0 (m !! c) + count_where (in_country c) l)
  else m !! c.
Proof.
  induction l as [|u l IH]; intros m c Hm Hmax; cbn [foldl].
  - rewrite count_where_nil. rewrite decide_False by lia. reflexivity.
  - cbn [length] in Hmax. rewrite count_where_cons.
    change (in_country c u) with (String.eqb (Country u) c).
    pose proof (count_where_bounds (in_country c) l) as Hc.
    destruct (nonempty (Country u)) eqn:Hne.
    + apply StoreProofs.nonempty_true in Hne.
      assert (Hm1 : ∀ c, 0 <= default 0 (incr (Country u) m !! c)).
      { intros d. unfold incr. destruct (decide (Country u = d)) as [->|Hd].
        - rewrite lookup_insert_eq. cbn. specialize (Hm d). specialize (Hmax d).
          rewrite add_small by lia. lia.
        - rewrite lookup_insert_ne by exact Hd. apply Hm. }
      assert (Hmax1 : ∀ c, default 0 (incr (Country u) m !! c)
                           + Z.of_nat (length l) <= Int.max_int).
      { intros d. unfold incr. destruct (decide (Country u = d)) as [->|Hd].
        - rewrite lookup_insert_eq. cbn. specialize (Hm d). specialize (Hmax d).
          rewrite add_small by lia. lia.
        - rewrite lookup_insert_ne by exact Hd. specialize (Hmax d). lia. }
      rewrite (IH _ c Hm1 Hmax1). unfold incr.
      destruct (String.eqb_spec (Country u) c) as [Heq|Hneq]; cbv iota.
      * subst c. rewrite lookup_insert_eq. cbn [from_option id].
        specialize (Hm (Country u)). specialize (Hmax (Country u)).
        rewrite add_small by lia.
        rewrite (decide_True (P := Country u ≠ "" ∧ 0 < 1 + _)) by (split; [exact Hne|lia]).
        destruct (decide (Country u ≠ "" ∧ 0 < count_where (in_country (Country u)) l))
          as [_|Hz].
        -- f_equal. lia.
        -- f_equal. assert (count_where (in_country (Country u)) l = 0)
             by (destruct (decide (0 < count_where (in_country (Country u)) l));
                 [exfalso; apply Hz; auto | lia]).
           lia.
      * rewrite lookup_insert_ne by exact Hneq. rewrite Z.add_0_l.
        reflexivity.
    + apply StoreProofs.nonempty_false in Hne.
      rewrite (IH m c Hm) by (intros d; specialize (Hmax d); lia).
      destruct (String.eqb_spec (Country u) c) as [Heq|Hneq]; cbv iota.
      * subst c. rewrite !decide_False; [reflexivity | tauto | tauto].
      * rewrite Z.add_0_l. reflexivity.
Qed.

Lemma country_loop_empty (l : list User) (c : string) :
  Z.of_nat (length l) <= Int.max_int →
  foldl (λ m u, if nonempty (Country u) then incr (Country u) m else m) ∅ l
    !! c = country_entry c l.
Proof.
  intros Hmax. rewrite country_loop.
  - unfold country_entry. rewrite lookup_empty. cbn [default].
    destruct (decide _); [f_equal; lia | reflexivity].
  - intros d. rewrite lookup_empty. cbn. lia.
  - intros d. rewrite lookup_empty. cbn. lia.
Qed.

Lemma getStats_loop (l : list User) : ∀ st : Stats,
  0 <= ActiveUsers st →
  ActiveUsers st + Z.of_nat (length l) <= Int.max_int →
  foldl getStats_body st l =
  set_UsersByCountry
    (set_ActiveUsers st (ActiveUsers st + count_where Active l))
    (foldl (λ m u, if nonempty (Country u) then incr (Country u) m else m)
           (UsersByCountry st) l).
Proof.
  induction l as [|u l IH]; intros st Hlo Hhi; cbn [foldl].
  - rewrite count_where_nil, Z.add_0_r. destruct st; reflexivity.
  - cbn [length] in Hhi. rewrite count_where_cons. unfold getStats_body at 2.
    destruct (Active u), (nonempty (Country u)); rewrite IH;
      unfold set_UsersByCountry, set_ActiveUsers;
      cbn [ActiveUsers UsersByCountry TotalRequests TotalUsers RequestsByPath
           StartTime Uptime];
      rewrite ?add_small by lia; try lia;
      f_equal; lia.
Qed.

Lemma analytics_loop (l : list User) : ∀ t : Tally,
  0 <= activeUsers t → 0 <= inactiveUsers t →
  0 <= ageSum t → 0 <= ageCount t →
  activeUsers t + Z.of_nat (length l) <= Int.max_int →
  inactiveUsers t + Z.of_nat (length l) <= Int.max_int →
  ageCount t + Z.of_nat (length l) <= Int.max_int →
  ageSum t + age_total l <= Int.max_int →
  foldl analytics_body t l =
  {| activeUsers := activeUsers t + count_where Active l;
     inactiveUsers := inactiveUsers t + count_where (λ u, negb (Active u)) l;
     byCountry :=
       foldl (λ m u, if nonempty (Country u) then incr (Country u) m else m)
             (byCountry t) l;
     ageSum := ageSum t + age_total l;
     ageCount := ageCount t + count_where has_age l |}.
Proof.
  induction l as [|u l IH]; intros t Ha Hi Hs Hc Hamax Himax Hcmax Hsmax;
    cbn [foldl].
  - rewrite !count_where_nil. unfold age_total. cbn.
    rewrite !Z.add_0_r. destruct t; reflexivity.
  - cbn [length] in *. rewrite age_total_cons in Hsmax.
    rewrite !count_where_cons, age_total_cons.
    pose proof (age_total_nonneg l) as Hnn.
    unfold analytics_body at 2. unfold has_age in *.
    destruct (Active u), (Age u >? 0) eqn:Hage; cbn [negb];
      try (apply StoreProofs.gtb_true_lt in Hage);
      rewrite IH; cbn [activeUsers inactiveUsers byCountry ageSum ageCount];
      rewrite ?add_small by lia; try lia;
      f_equal; lia.
Qed.

(** X12.  [getUserAnalytics] counts the table, whatever the order in
    which the [range] visits it (while the sum of the ages fits an
    [int]).  The active and the inactive records add up to the total;
    a country has an entry exactly when it is not empty and some record
    names it, with the number of those records; the average age is the
    sum of the positive ages divided by their number, rounded toward
    zero, and 0 when no record has a positive age: a record of age 0 is
    not counted. *)
Theorem getUserAnalytics_spec (now : Z) (visit : list (Z * User)) (s : Store) :
  range_of s visit →
  Z.of_nat (size (users s)) <= Int.max_int →
  age_total (records s) <= Int.max_int →
  ∃ r, getUserAnalytics now visit s = respondJSON StatusOK r ∧
    total_users r = Z.of_nat (size (users s)) ∧
    active_users r = count_where Active (records s) ∧
    inactive_users r = count_where (λ u, negb (Active u)) (records s) ∧
    active_users r + inactive_users r = total_users r ∧
    (∀ c, users_by_country r !! c = country_entry c (records s)) ∧
    average_age r =
      (if 0 <? count_where has_age (records s)
       then Z.quot (age_total (records s)) (count_where has_age (records s))
       else 0) ∧
    analytics_timestamp r = now.
Proof.
  intros Hrange Hsize Hages.
  assert (Hperm : visit.*2 ≡ₚ records s)
    by (unfold records; rewrite Hrange; reflexivity).
  assert (Hlen : length visit.*2 = size (users s)).
  { rewrite Hperm. unfold records. rewrite length_fmap.
    apply length_map_to_list. }
  unfold getUserAnalytics.
  rewrite analytics_loop
    by (cbn [activeUsers inactiveUsers byCountry ageSum ageCount];
        rewrite ?Hlen, ?(age_total_perm _ _ Hperm); lia).
  cbn [activeUsers inactiveUsers byCountry ageSum ageCount].
  rewrite !Z.add_0_l.
  rewrite !(count_where_perm _ _ _ Hperm), (age_total_perm _ _ Hperm).
  eexists. split; [reflexivity|].
  cbn [total_users active_users inactive_users users_by_country average_age
       analytics_timestamp].
  split_and!; try reflexivity.
  - rewrite count_where_split. unfold records. rewrite length_fmap.
    rewrite length_map_to_list. reflexivity.
  - intros c. rewrite country_loop_empty by lia.
    unfold country_entry. rewrite !(count_where_perm _ _ _ Hperm).
    reflexivity.
  - rewrite Z.gtb_ltb.
    destruct (0 <? count_where has_age (records s)) eqn:Hpos; [|reflexivity].
    apply Z.ltb_lt in Hpos. unfold Int.div. apply StoreProofs.wrap_id.
    pose proof (age_total_nonneg (records s)).
    assert (0 <= Z.quot (age_total (records s)) (count_where has_age (records s))
            <= age_total (records s)).
    { split; [apply Z.quot_pos; lia|].
      apply Z.quot_le_upper_bound; [lia|]. nia. }
    in_range.
Qed.

Section WithClock.

Variable Since : Z -> Z -> Z.
Variable Round_Second : Z -> Z.
Variable Duration_String : Z -> string.

(** X13.  [getStats] and [healthCheck] count the same table: whatever
    the orders of their two [range]s, both report the size of the table
    as the total and the number of active records as the active users;
    [getStats] reports the countries as [getUserAnalytics] does, copies
    the request counters and the start time from the store, and reports
    the number of registered clients of the hub when there is one. *)
Theorem getStats_healthCheck_agree (now now_ws now_h now_since : Z)
    (visit visit' : list (Z * User)) (hub : option Websocket.State)
    (s : Store) :
  range_of s visit → range_of s visit' →
  Z.of_nat (size (users s)) <= Int.max_int →
  ∃ r h,
    getStats Since Round_Second Duration_String now now_ws visit hub s
      = respondJSON StatusOK r ∧
    healthCheck Since Duration_String now_h now_since visit' s
      = respondJSON StatusOK h ∧
    TotalUsers (http r) = Z.of_nat (size (users s)) ∧
    health_total_users h = Z.of_nat (size (users s)) ∧
    ActiveUsers (http r) = count_where Active (records s) ∧
    health_active_users h = count_where Active (records s) ∧
    (∀ c, UsersByCountry (http r) !! c = country_entry c (records s)) ∧
    TotalRequests (http r) = TotalRequests (stats s) ∧
    RequestsByPath (http r) = RequestsByPath (stats s) ∧
    StartTime (http r) = StartTime (stats s) ∧
    websocket r =
      (λ st, {| Pumps.total_clients := Z.of_nat (size (Websocket.clients st));
                Pumps.timestamp := now_ws |}) <$> hub ∧
    status h = "healthy".
Proof.
  intros Hrange Hrange' Hsize.
  assert (Hperm : visit.*2 ≡ₚ records s)
    by (unfold records; rewrite Hrange; reflexivity).
  assert (Hperm' : visit'.*2 ≡ₚ records s)
    by (unfold records; rewrite Hrange'; reflexivity).
  assert (Hrec : length (records s) = size (users s)).
  { unfold records. rewrite length_fmap. apply length_map_to_list. }
  unfold getStats, healthCheck.
  rewrite getStats_loop
    by (unfold set_UsersByCountry, set_ActiveUsers, set_TotalUsers, set_Uptime;
        cbn [ActiveUsers]; rewrite ?Hperm, ?Hrec; lia).
  unfold set_UsersByCountry, set_ActiveUsers, set_TotalUsers, set_Uptime.
  cbn [ActiveUsers UsersByCountry TotalRequests TotalUsers RequestsByPath
       StartTime Uptime].
  rewrite (count_where_perm _ _ _ Hperm).
  rewrite active_loop by (rewrite ?Hperm', ?Hrec; lia).
  rewrite (count_where_perm _ _ _ Hperm'). rewrite !Z.add_0_l.
  eexists. eexists. split; [reflexivity|]. split; [reflexivity|].
  cbn [http websocket ActiveUsers UsersByCountry TotalRequests TotalUsers
       RequestsByPath StartTime Uptime status health_total_users
       health_active_users].
  split_and!; try reflexivity.
  - intros c. rewrite country_loop_empty by (rewrite ?Hperm, ?Hrec; lia).
    unfold country_entry. rewrite !(count_where_perm _ _ _ Hperm).
    reflexivity.
Qed.

End WithClock.

(** *** The stored statistics *)

Lemma batch_create_loop_stats (unicode_lower : string → string) :
  ∀ (reqs : list (CreateInput * Z)) (acc : list User) (s : Store),
  stats (batch_create_loop unicode_lower reqs acc s).1 = stats s.
Proof.
  induction reqs as [|[input now] reqs IH]; intros acc s; [reflexivity|].
  cbn [batch_create_loop].
  destruct (String.eqb (in_Name input) "" || String.eqb (in_Email input) "");
    [apply IH|].
  destruct (negb (valid_email unicode_lower (in_Email input))); [apply IH|].
  rewrite IH. reflexivity.
Qed.

Lemma batch_delete_loop_stats : ∀ (ids acc : list Z) (s : Store),
  stats (batch_delete_loop ids acc s).1 = stats s.
Proof.
  induction ids as [|id ids IH]; intros acc s; [reflexivity|].
  cbn [batch_delete_loop]. destruct (users s !! id); rewrite IH; reflexivity.
Qed.

Lemma handle_stats (unicode_lower : string → string) (r : request) (s : Store) :
  stats (handle unicode_lower r s).1 = stats s.
Proof.
  destruct r as [now now_msg body|now id body|id|now id|now id|body|body];
    cbn [handle].
  - destruct (createUser unicode_lower now now_msg body s) as [[s' resp] msg]
      eqn:Hc. cbn [fst]. unfold createUser in Hc.
    repeat case_match; simplify_eq; reflexivity.
  - unfold updateUser. repeat case_match; reflexivity.
  - unfold deleteUser. repeat case_match; reflexivity.
  - unfold activateUser. repeat case_match; reflexivity.
  - unfold deactivateUser. repeat case_match; reflexivity.
  - destruct (batchCreateUsers unicode_lower body s) as [s' resp] eqn:Hb.
    cbn [fst]. unfold batchCreateUsers in Hb.
    destruct body as [reqs|]; [|simplify_eq; reflexivity].
    destruct (length reqs =? 0)%nat; [simplify_eq; reflexivity|].
    destruct (100 <? length reqs)%nat; [simplify_eq; reflexivity|].
    pose proof (batch_create_loop_stats unicode_lower reqs [] s) as Hst.
    destruct (batch_create_loop unicode_lower reqs [] s). simplify_eq.
    exact Hst.
  - unfold batchDeleteUsers.
    destruct body as [ids|]; [|reflexivity].
    destruct (length ids =? 0)%nat; [reflexivity|].
    pose proof (batch_delete_loop_stats ids [] s) as Hst.
    destruct (batch_delete_loop ids [] s). exact Hst.
Qed.

(** X14.  The request statistics never move.  No handler of the store
    writes [store.stats]: after any sequence of requests the stored
    counters are those of the start, so [getStats] reports
    [total_requests] 0 and an empty [requests_by_path] for ever. *)
Theorem request_counters_never_move (unicode_lower : string → string)
    (Since : Z → Z → Z) (Round_Second : Z → Z) (Duration_String : Z → string)
    (w : World) (now now_ws : Z) (visit : list (Z * User))
    (hub : option Websocket.State) :
  reachable unicode_lower w →
  ∃ r, getStats Since Round_Second Duration_String now now_ws visit hub
         (w_store w) = respondJSON StatusOK r ∧
    TotalRequests (http r) = 0 ∧ RequestsByPath (http r) = ∅ ∧
    TotalRequests (stats (w_store w)) = 0 ∧
    RequestsByPath (stats (w_store w)) = ∅ ∧
    TotalUsers (stats (w_store w)) = 0 ∧
    ActiveUsers (stats (w_store w)) = 0.
Proof.
  intros Hreach.
  assert (Hst : ∃ start, stats (w_store w) = stats (store start)).
  { induction Hreach as [start now0|r w Hreach [start IH] _ _].
    - exists start. reflexivity.
    - exists start. rewrite <- IH. unfold step.
      pose proof (handle_stats unicode_lower r (w_store w)) as H.
      destruct (handle unicode_lower r (w_store w)). exact H. }
  destruct Hst as [start Hst].
  pose proof (getStats_loop visit.*2) as Hloop.
  unfold getStats. rewrite Hst.
  set (st0 := set_UsersByCountry _ _).
  assert (Hfields : ∀ (l : list User) (st : Stats),
            TotalRequests (foldl getStats_body st l) = TotalRequests st ∧
            RequestsByPath (foldl getStats_body st l) = RequestsByPath st).
  { induction l as [|u l IHl]; intros st; [split; reflexivity|].
    cbn [foldl]. destruct (IHl (getStats_body st u)) as [-> ->].
    unfold getStats_body. destruct (Active u), (nonempty (Country u));
      split; reflexivity. }
  destruct (Hfields visit.*2 st0) as [Htr Hrp].
  eexists. split; [reflexivity|]. cbn [http]. rewrite Htr, Hrp.
  split_and!; reflexivity.
Qed.

(** *** trackPerformance *)

Lemma sum_bounds (bound : Z) (l : list Z) :
  Forall (λ d, - bound <= d <= bound) l →
  - (Z.of_nat (length l) * bound) <= foldr Z.add 0 l
  <= Z.of_nat (length l) * bound.
Proof.
  induction 1 as [|d l Hd _ IH]; cbn [foldr length]; [lia|].
  rewrite Nat2Z.inj_succ. lia.
Qed.

Lemma foldr_min_snoc (d0 d : Z) (ds : list Z) :
  foldr Z.min d0 (ds ++ [d]) = Z.min d (foldr Z.min d0 ds).
Proof.
  induction ds as [|x ds IH]; cbn [foldr app]; [lia|]. rewrite IH. lia.
Qed.

Lemma foldr_max_snoc (d0 d : Z) (ds : list Z) :
  foldr Z.max d0 (ds ++ [d]) = Z.max d (foldr Z.max d0 ds).
Proof.
  induction ds as [|x ds IH]; cbn [foldr app]; [lia|]. rewrite IH. lia.
Qed.

Lemma foldr_add_snoc (d : Z) (ds : list Z) :
  foldr Z.add 0 (ds ++ [d]) = foldr Z.add 0 ds + d.
Proof.
  induction ds as [|x ds IH]; cbn [foldr app]; [lia|]. rewrite IH. lia.
Qed.

Lemma min_sum_max (d0 : Z) (ds : list Z) :
  Z.of_nat (length (d0 :: ds)) * foldr Z.min d0 ds
    <= foldr Z.add 0 (d0 :: ds)
    <= Z.of_nat (length (d0 :: ds)) * foldr Z.max d0 ds.
Proof.
  induction ds as [|d ds IH]; cbn [foldr length] in *; [lia|].
  rewrite !Nat2Z.inj_succ in *.
  pose proof (Z.le_min_l d (foldr Z.min d0 ds)).
  pose proof (Z.le_min_r d (foldr Z.min d0 ds)).
  pose proof (Z.le_max_l d (foldr Z.max d0 ds)).
  pose proof (Z.le_max_r d (foldr Z.max d0 ds)).
  nia.
Qed.

Lemma quot_between (lo hi total n : Z) :
  0 < n → n * lo <= total <= n * hi → lo <= Z.quot total n <= hi.
Proof.
  intros Hn [Hlo Hhi]. destruct (Z.le_gt_cases 0 total) as [Hpos|Hneg].
  - rewrite Z.quot_div_nonneg by lia. split.
    + apply Z.div_le_lower_bound; lia.
    + assert (total / n < hi + 1); [|lia].
      apply Z.div_lt_upper_bound; lia.
  - replace total with (- (- total)) by lia.
    rewrite Z.quot_opp_l by lia. rewrite Z.quot_div_nonneg by lia. split.
    + assert ((- total) / n < - lo + 1); [|lia].
      apply Z.div_lt_upper_bound; lia.
    + assert (- hi <= (- total) / n); [|lia].
      apply Z.div_le_lower_bound; lia.
Qed.

Lemma quot_abs_le (total n : Z) :
  0 < n → - Z.abs total <= Z.quot total n <= Z.abs total.
Proof.
  intros Hn. apply quot_between; [exact Hn | nia].
Qed.

Lemma track_all_from (path : string) (d0 bound : Z) :
  ∀ (rest done : list Z) (t : Tracked) (m : PerformanceMetrics),
  metrics t !! path = Some m →
  tracks path d0 done m →
  RequestsByPath (stats (tracked_store t)) !! path
    = Some (Z.of_nat (length (d0 :: done))) →
  Forall (λ d, - bound <= d <= bound) (d0 :: done ++ rest) →
  Z.of_nat (length (d0 :: done ++ rest)) <= Int.max_int →
  Z.of_nat (length (d0 :: done ++ rest)) * bound <= Int.max_int →
  ∃ t' m',
    track_all path rest t = Returns t' ∧
    metrics t' = <[path := m']> (metrics t) ∧
    tracks path d0 (done ++ rest) m' ∧
    RequestsByPath (stats (tracked_store t')) !! path
      = Some (Z.of_nat (length (d0 :: done ++ rest))) ∧
    (∀ p, p ≠ path →
       RequestsByPath (stats (tracked_store t')) !! p
       = RequestsByPath (stats (tracked_store t)) !! p) ∧
    users (tracked_store t') = users (tracked_store t) ∧
    nextID (tracked_store t') = nextID (tracked_store t).
Proof.
  induction rest as [|d rest IH]; intros done t m Hm Htr Hreq Hall Hlen Hbound.
  - exists t, m. rewrite app_nil_r in *. cbn [track_all].
    split_and!; try reflexivity; try assumption.
    rewrite insert_id by exact Hm. reflexivity.
  - cbn [track_all]. unfold trackPerformance. rewrite Hm.
    destruct Htr as (Hpath & Hcount & Htotal & Havg & Hmin & Hmax).
    assert (Hre : d0 :: done ++ d :: rest = d0 :: (done ++ [d]) ++ rest)
      by (rewrite <- app_assoc; reflexivity).
    rewrite Hre in Hall, Hlen, Hbound.
    assert (Hld0 : Z.of_nat (length (d0 :: done)) = Z.of_nat (length done) + 1)
      by (cbn [length]; lia).
    assert (Hld : Z.of_nat (length (d0 :: done ++ [d]))
                  = Z.of_nat (length done) + 2)
      by (cbn [length]; rewrite length_app; cbn [length]; lia).
    assert (Hn : Z.of_nat (length done) + 2
                 <= Z.of_nat (length (d0 :: (done ++ [d]) ++ rest)))
      by (cbn [length]; rewrite !length_app; cbn [length]; lia).
    assert (Hprefix : Forall (λ d, - bound <= d <= bound) (d0 :: done ++ [d])).
    { apply Forall_cons in Hall as [H0 Hall]. apply Forall_app in Hall as [H1 _].
      constructor; assumption. }
    pose proof (sum_bounds bound _ Hprefix) as Hsum. rewrite Hld in Hsum.
    assert (Hb0 : 0 <= bound).
    { apply Forall_cons in Hprefix as [H0 _]. lia. }
    assert (Hnb : (Z.of_nat (length done) + 2) * bound <= Int.max_int) by nia.
    assert (Hcnt : Int.add (Count m) 1 = Z.of_nat (length done) + 2).
    { rewrite Hcount, Hld0. unfold Int.add.
      rewrite StoreProofs.wrap_id; [lia | in_range]. }
    assert (Htot : Int.add (TotalTime m) d = foldr Z.add 0 (d0 :: done ++ [d])).
    { rewrite Htotal. cbn [foldr]. rewrite foldr_add_snoc.
      cbn [foldr] in Hsum. rewrite foldr_add_snoc in Hsum.
      unfold Int.add. rewrite StoreProofs.wrap_id; [lia | in_range]. }
    rewrite Hcnt, Htot.
    replace (Z.of_nat (length done) + 2 =? 0) with false
      by (symmetry; apply Z.eqb_neq; lia).
    match goal with
    | |- ∃ t' m', track_all _ _ ?t0 = _ ∧ _ => set (t1 := t0)
    end.
    destruct (IH (done ++ [d]) t1 _ (lookup_insert_eq _ _ _))
      as (t' & m' & Hrun & Hmet & Htr' & Hreq' & Hother & Husers & Hnext).
    + unfold tracks.
      cbn [Path Count TotalTime AverageTime MinTime MaxTime].
      split_and!; try reflexivity.
      * exact Hpath.
      * symmetry. exact Hld.
      * unfold Int.div. apply StoreProofs.wrap_id.
        pose proof (quot_abs_le (foldr Z.add 0 (d0 :: done ++ [d]))
                      (Z.of_nat (length done) + 2) ltac:(lia)).
        in_range.
      * rewrite foldr_min_snoc, Hmin.
        destruct (Z.ltb_spec d (foldr Z.min d0 done)); lia.
      * rewrite foldr_max_snoc, Hmax. rewrite Z.gtb_ltb.
        destruct (Z.ltb_spec (foldr Z.max d0 done) d); lia.
    + subst t1.
      cbn [tracked_store set_stats stats set_RequestsByPath RequestsByPath].
      unfold incr. rewrite lookup_insert_eq, Hreq. cbn [from_option id].
      f_equal. rewrite Hld0, Hld. unfold Int.add.
      rewrite StoreProofs.wrap_id; [lia | in_range].
    + exact Hall.
    + exact Hlen.
    + exact Hbound.
    + exists t', m'. rewrite Hre. split_and!; try assumption.
      * rewrite Hmet. subst t1. cbn [metrics]. apply insert_insert_eq.
      * rewrite <- app_assoc in Htr'. exact Htr'.
      * intros p Hp. rewrite (Hother p Hp). subst t1.
        cbn [tracked_store set_stats stats set_RequestsByPath RequestsByPath].
        unfold incr. apply lookup_insert_ne. congruence.
Qed.

Lemma tracks_order (path : string) (d0 : Z) (ds : list Z)
    (m : PerformanceMetrics) :
  tracks path d0 ds m → MinTime m <= AverageTime m <= MaxTime m.
Proof.
  intros (_ & Hcount & Htotal & Havg & Hmin & Hmax).
  rewrite Havg, Hmin, Hmax, Htotal, Hcount.
  apply quot_between; [cbn [length]; lia | apply min_sum_max].
Qed.

(** X15.  [trackPerformance], called for the durations [d0], [ds] of a
    path that was not tracked before (while the sums fit an [int64]),
    leaves in the cell of the path the number of calls, the sum of the
    durations, the sum divided by the number rounded toward zero, the
    least and the greatest duration; the average lies between the least
    and the greatest; the request counter of the path is the number of
    calls, and neither another path nor the table of users is
    touched. *)
Theorem trackPerformance_tracks (path : string) (d0 bound : Z) (ds : list Z)
    (t : Tracked) :
  metrics t !! path = None →
  RequestsByPath (stats (tracked_store t)) !! path = None →
  Forall (λ d, - bound <= d <= bound) (d0 :: ds) →
  Z.of_nat (length (d0 :: ds)) <= Int.max_int →
  Z.of_nat (length (d0 :: ds)) * bound <= Int.max_int →
  ∃ t' m,
    track_all path (d0 :: ds) t = Returns t' ∧
    metrics t' = <[path := m]> (metrics t) ∧
    tracks path d0 ds m ∧
    MinTime m <= AverageTime m <= MaxTime m ∧
    RequestsByPath (stats (tracked_store t')) !! path
      = Some (Z.of_nat (length (d0 :: ds))) ∧
    (∀ p, p ≠ path →
       RequestsByPath (stats (tracked_store t')) !! p
       = RequestsByPath (stats (tracked_store t)) !! p) ∧
    users (tracked_store t') = users (tracked_store t) ∧
    nextID (tracked_store t') = nextID (tracked_store t).
Proof.
  intros Hnone Hreq Hall Hlen Hbound.
  assert (Hd0 : - bound <= d0 <= bound)
    by (apply Forall_cons in Hall as [H _]; exact H).
  assert (Hlen1 : 1 <= Z.of_nat (length (d0 :: ds))) by (cbn [length]; lia).
  cbn [track_all]. unfold trackPerformance at 1. rewrite Hnone.
  cbn [Count TotalTime MinTime MaxTime Path].
  assert (Hadd : Int.add 0 d0 = d0).
  { unfold Int.add. apply StoreProofs.wrap_id. cbn [Z.add].
    assert (bound <= Int.max_int) by nia. in_range. }
  rewrite Hadd. change (Int.add 0 1) with 1. cbn [Z.eqb].
  rewrite Z.ltb_irrefl, Z.gtb_ltb, Z.ltb_irrefl.
  match goal with
  | |- ∃ t' m', track_all _ _ ?t0 = _ ∧ _ => set (t1 := t0)
  end.
  destruct (track_all_from path d0 bound ds [] t1 _ (lookup_insert_eq _ _ _))
    as (t' & m' & Hrun & Hmet & Htr' & Hreq' & Hother & Husers & Hnext).
  - unfold tracks. cbn [Path Count TotalTime AverageTime MinTime MaxTime].
    split_and!; try reflexivity.
    + cbn [foldr]. lia.
    + unfold Int.div. rewrite Z.quot_1_r. apply StoreProofs.wrap_id.
      assert (bound <= Int.max_int) by nia. in_range.
  - subst t1.
    cbn [tracked_store set_stats stats set_RequestsByPath RequestsByPath].
    unfold incr. rewrite lookup_insert_eq, Hreq. reflexivity.
  - exact Hall.
  - exact Hlen.
  - exact Hbound.
  - cbn [app] in *. exists t', m'.
    pose proof (tracks_order _ _ _ _ Htr') as [Hlo Hhi].
    split_and!; try assumption.
    + rewrite Hmet. subst t1. cbn [metrics]. apply insert_insert_eq.
    + intros p Hp. rewrite (Hother p Hp). subst t1.
      cbn [tracked_store set_stats stats set_RequestsByPath RequestsByPath].
      unfold incr. apply lookup_insert_ne. congruence.
Qed.

Lemma getUserAnalytics_spec_witness :
  ∃ r, getUserAnalytics 7 (map_to_list (users (fresh_server 0 0)))
         (fresh_server 0 0) = respondJSON StatusOK r ∧
    total_users r = 5 ∧ active_users r = 4 ∧ inactive_users r = 1 ∧
    users_by_country r !! "Russia" = Some 2 ∧
    users_by_country r !! "France" = None ∧
    average_age r = 30.
Proof.
  destruct (getUserAnalytics_spec 7 (map_to_list (users (fresh_server 0 0)))
              (fresh_server 0 0))
    as (r & Hr & Ht & Ha & Hi & _ & Hc & Havg & _).
  - unfold range_of. reflexivity.
  - vm_compute. discriminate.
  - vm_compute. discriminate.
  - exists r. rewrite Ht, Ha, Hi, !Hc, Havg.
    split; [exact Hr|]. vm_compute. split_and!; reflexivity.
Defined.

Lemma getStats_healthCheck_agree_witness :
  ∃ r h,
    getStats since_example round_example string_example 7 8
      (map_to_list (users (fresh_server 0 0))) (Some HubSpec.greeted_hub)
      (fresh_server 0 0) = respondJSON StatusOK r ∧
    healthCheck since_example string_example 9 10
      (reverse (map_to_list (users (fresh_server 0 0)))) (fresh_server 0 0)
      = respondJSON StatusOK h ∧
    ActiveUsers (http r) = 4 ∧ health_active_users h = 4 ∧
    websocket r = Some {| Pumps.total_clients := 1; Pumps.timestamp := 8 |}.
Proof.
  destruct (getStats_healthCheck_agree since_example round_example
              string_example 7 8 9 10
              (map_to_list (users (fresh_server 0 0)))
              (reverse (map_to_list (users (fresh_server 0 0))))
              (Some HubSpec.greeted_hub) (fresh_server 0 0))
    as (r & h & Hr & Hh & _ & _ & Ha & Hha & _ & _ & _ & _ & Hws & _).
  - unfold range_of. reflexivity.
  - unfold range_of. apply reverse_Permutation.
  - vm_compute. discriminate.
  - exists r, h. rewrite Ha, Hha, Hws.
    split; [exact Hr|]. split; [exact Hh|]. vm_compute.
    split_and!; reflexivity.
Defined.

Lemma request_counters_never_move_witness :
  ∃ r, getStats since_example round_example string_example 20 21
         (map_to_list (users (w_store alice_world))) None
         (w_store alice_world) = respondJSON StatusOK r ∧
    TotalRequests (http r) = 0 ∧ RequestsByPath (http r) = ∅.
Proof.
  destruct (request_counters_never_move no_unicode since_example round_example
              string_example alice_world 20 21
              (map_to_list (users (w_store alice_world))) None)
    as (r & Hr & Htr & Hrp & _).
  - apply reach_step; [apply reach_init | |].
    + repeat constructor; vm_compute; discriminate.
    + vm_compute. discriminate.
  - exists r. auto.
Defined.

Lemma trackPerformance_tracks_witness :
  ∃ t' m,
    track_all "/api/users" [5; 3; 10] untracked = Returns t' ∧
    metrics t' !! "/api/users" = Some m ∧
    Count m = 3 ∧ TotalTime m = 18 ∧ AverageTime m = 6 ∧
    MinTime m = 3 ∧ MaxTime m = 10.
Proof.
  destruct (trackPerformance_tracks "/api/users" 5 10 [3; 10] untracked)
    as (t' & m & Hrun & Hmet & Htr & _).
  - reflexivity.
  - reflexivity.
  - repeat constructor; lia.
  - vm_compute. discriminate.
  - vm_compute. discriminate.
  - exists t', m. destruct Htr as (_ & Hc & Ht & Ha & Hmin & Hmax).
    rewrite Hmet, lookup_insert_eq, Ha, Ht, Hc, Hmin, Hmax.
    split; [exact Hrun|]. vm_compute. split_and!; reflexivity.
Defined.

End ReportProofs.

(* ===================================================================== *)
(** ** The hub and the pumps                                              *)
(* ===================================================================== *)

Module PumpProofs.

Import Websocket HubSpec Pumps PumpSpec.

Local Open Scope list_scope.
Local Open Scope Z_scope.

Lemma range_open (st : State) (order : list nat) :
  hub_wf st → range_of st order →
  ∀ c, c ∈ order → ∃ cl, heap st !! c = Some cl ∧ closed (Send cl) = false.
Proof.
  intros Hwf Hrange c Hc.
  apply (HubProofs.range_of_elem st order c Hrange) in Hc as [b Hb].
  exact (Hwf c b Hb).
Qed.

(** *** No iteration panics, unless [Shutdown] cuts it in two *)

Lemma hub_waits_dec (ev : hub_event) (st : State) :
  hub_waits ev st ∨ ¬ hub_waits ev st.
Proof.
  destruct ev as [[c now|c|order|server_time now]|msg]; cbn [hub_waits];
    try (right; tauto).
  - destruct (buf (broadcast st)); [left; reflexivity|right; discriminate].
  - destruct (full (broadcast st)); [left; reflexivity|right; discriminate].
  - destruct (full (broadcast st)); [left; reflexivity|right; discriminate].
Qed.

(** An iteration of [Run] in which no other goroutine runs, and a
    [BroadcastMessage], complete or wait. *)
Lemma hub_step_progress (ev : hub_event) (st : State) :
  hub_wf st → closed (broadcast st) = false → admissible ev st →
  (hub_waits ev st → hub_step ev st = Blocked) ∧
  (¬ hub_waits ev st →
   ∃ st', hub_step ev st = Done st' ∧
     hub_wf st' ∧ closed (broadcast st') = false).
Proof.
  intros Hwf Hopen Hadm.
  assert (Hkeep : ∀ st', hub_step ev st = Done st' → hub_wf st').
  { intros st' H. apply (HubProofs.hub_step_keeps ev st st' H). exact Hwf. }
  destruct ev as [[c now|c|order|server_time now]|msg];
    cbn [hub_step Run_iteration hub_waits admissible] in *;
    unfold register_welcome, register_insert, unregister_test,
      unregister_locked in *.
  - split; [contradiction|]. intros _. destruct Hadm as (cl & Hcl & Hcopen).
    cbn [set_clients heap] in *. rewrite Hcl in *.
    rewrite HubProofs.SendToClient_eq_broadcast_body in *.
    rewrite (HubProofs.broadcast_body_open _ c _ cl) in * by assumption.
    eexists. split; [reflexivity|]. split; [apply Hkeep; reflexivity|].
    exact Hopen.
  - split; [contradiction|]. intros _.
    destruct (clients st !! c) as [b|] eqn:Hreg; [|eauto].
    destruct (Hwf c b Hreg) as (cl & Hcl & Hcopen).
    rewrite Hcl in *. unfold close in *. rewrite Hcopen in *. cbn [bind] in *.
    eexists. split; [reflexivity|]. split; [apply Hkeep; reflexivity|].
    exact Hopen.
  - destruct (buf (broadcast st)) as [|message rest] eqn:Hbuf.
    + split; [reflexivity|]. intros H. contradiction.
    + split; [discriminate|]. intros _.
      set (st1 := set_broadcast st _) in *.
      destruct (HubProofs.broadcast_range_spec message order st1)
        as (st' & Hrun & Hb & _).
      * eapply HubProofs.range_of_NoDup. exact Hadm.
      * apply (range_open st order Hwf Hadm).
      * exists st'. split; [exact Hrun|]. split; [apply Hkeep; exact Hrun|].
        rewrite Hb. exact Hopen.
  - unfold BroadcastMessage, send in *. rewrite Hopen in *.
    destruct (full (broadcast st)) eqn:Hfull.
    + split; [reflexivity|]. intros H. contradiction.
    + split; [discriminate|]. intros _. cbn [bind] in *.
      eexists. split; [reflexivity|]. split; [apply Hkeep; reflexivity|].
      exact Hopen.
  - unfold BroadcastMessage, send in *. rewrite Hopen in *.
    destruct (full (broadcast st)) eqn:Hfull.
    + split; [reflexivity|]. intros H. contradiction.
    + split; [discriminate|]. intros _. cbn [bind] in *.
      eexists. split; [reflexivity|]. split; [apply Hkeep; reflexivity|].
      exact Hopen.
Qed.

Lemma hub_step_safe (ev : hub_event) (st : State) :
  hub_wf st → closed (broadcast st) = false → admissible ev st →
  hub_step ev st ≠ Panic ∧
  ∀ st', hub_step ev st = Done st' →
         hub_wf st' ∧ closed (broadcast st') = false.
Proof.
  intros Hwf Hopen Hadm.
  destruct (hub_step_progress ev st Hwf Hopen Hadm) as [Hw Hn].
  destruct (hub_waits_dec ev st) as [H|H].
  - rewrite (Hw H). split; [discriminate|]. intros st' H'. discriminate.
  - destruct (Hn H) as (st1 & -> & Hwf1 & Ho1). split; [discriminate|].
    intros st' [= <-]. auto.
Qed.

Lemma append_nil (st : State) :
  set_broadcast st (append [] (broadcast st)) = st.
Proof.
  destruct st as [cs [b cp cl] h]. unfold set_broadcast, append.
  cbn [clients heap broadcast buf cap closed]. rewrite app_nil_r. reflexivity.
Qed.

Lemma append_push (m : Message) (ms : list Message) (ch : chan) :
  append ms (push m ch) = append (m :: ms) ch.
Proof.
  unfold append, push. cbn [buf cap closed]. rewrite <- app_assoc. reflexivity.
Qed.

(** Publishers between two sections: they all return, or one waits. *)
Lemma publishers_run_cases (ms : list Message) : ∀ st : State,
  closed (broadcast st) = false →
  foreign_run (Publishes <$> ms) st = Blocked ∨
  foreign_run (Publishes <$> ms) st
  = Done (set_broadcast st (append ms (broadcast st))).
Proof.
  induction ms as [|m ms IH]; intros st Hopen.
  - right. cbn [fmap list_fmap foreign_run]. rewrite append_nil. reflexivity.
  - cbn [fmap list_fmap foreign_run foreign_step].
    unfold BroadcastMessage, send. rewrite Hopen.
    destruct (full (broadcast st)); [left; reflexivity|]. cbn [bind].
    destruct (IH (set_broadcast st (push m (broadcast st))) Hopen) as [->| ->];
      [left; reflexivity|right].
    cbn [set_broadcast clients heap broadcast]. rewrite append_push.
    reflexivity.
Qed.

(** Publishers that have returned have appended their messages to
    [h.broadcast] and touched nothing else. *)
Lemma publishers_run_Done (ms : list Message) : ∀ st st0 : State,
  foreign_run (Publishes <$> ms) st = Done st0 →
  st0 = set_broadcast st (append ms (broadcast st)).
Proof.
  induction ms as [|m ms IH]; intros st st0 H.
  - cbn [fmap list_fmap foreign_run] in H. injection H as <-.
    rewrite append_nil. reflexivity.
  - cbn [fmap list_fmap foreign_run foreign_step] in H.
    unfold BroadcastMessage, send in H.
    destruct (closed (broadcast st)); [discriminate|].
    destruct (full (broadcast st)); [discriminate|].
    cbn [bind] in H. apply IH in H. rewrite H.
    cbn [set_broadcast clients heap broadcast]. rewrite append_push.
    reflexivity.
Qed.

Lemma publishers_only (fs : list foreign) :
  Forall (λ f, is_publish f = true) fs → ∃ ms, fs = Publishes <$> ms.
Proof.
  induction 1 as [|f fs Hf _ [ms ->]]; [exists []; reflexivity|].
  destruct f as [m|now order]; [|discriminate].
  exists (m :: ms). reflexivity.
Qed.

Lemma Shutdown_range_safe (msg : Message) (order : list nat) :
  ∀ st : State,
    NoDup order →
    (∀ c, c ∈ order → ∃ cl, heap st !! c = Some cl ∧ closed (Send cl) = false) →
    Shutdown_range msg order st ≠ Panic.
Proof.
  induction order as [|c order IH]; intros st Hnd Hopen; [discriminate|].
  apply NoDup_cons in Hnd as [Hc Hnd].
  destruct (Hopen c) as (cl & Hcl & Ho); [left|].
  cbn [Shutdown_range].
  destruct (full (Send cl)) eqn:Hf.
  - rewrite (HubProofs.Shutdown_body_full _ _ _ _ Hcl Ho Hf). discriminate.
  - rewrite (HubProofs.Shutdown_body_room _ _ _ _ Hcl Ho Hf). cbn [bind].
    apply IH; [exact Hnd|]. intros c' Hc'.
    destruct (Hopen c') as (cl' & Hcl' & Ho'); [right; exact Hc'|].
    exists cl'. split; [|exact Ho']. cbn [set_heap heap].
    rewrite lookup_insert_ne; [exact Hcl'|]. intros ->. contradiction.
Qed.

Lemma Shutdown_safe (now : Z) (order : list nat) (st : State) :
  hub_wf st → range_of st order →
  Shutdown now order st ≠ Panic ∧
  ∀ st', Shutdown now order st = Done st' →
         hub_wf st' ∧ broadcast st' = broadcast st.
Proof.
  intros Hwf Hr. split.
  - unfold Shutdown.
    pose proof (Shutdown_range_safe (shutdownMsg now) order st
                  (HubProofs.range_of_NoDup st order Hr)
                  (range_open st order Hwf Hr)) as Hsafe.
    destruct (Shutdown_range (shutdownMsg now) order st);
      [discriminate|contradiction|discriminate].
  - intros st' H. apply (HubProofs.Shutdown_keeps now order st st' H).
Qed.

(** X16.  The loop of the hub panics only when [Shutdown] cuts an
    iteration in two.  On a hub whose registered clients are allocated
    with open queues and whose [broadcast] channel is open: an iteration
    of [Run], with publishers returning from [BroadcastMessage] between
    the two sections of its register or unregister case, a
    [BroadcastMessage] and a [Shutdown] between two iterations do not
    panic, and when they complete they leave such a hub: no channel is
    closed twice and none is sent to after its close.  An iteration
    during which no other goroutine runs, and a [BroadcastMessage],
    complete or wait; they wait exactly when the broadcast case finds no
    message, or when the heartbeat of the ticker or a publisher finds
    the buffer of [h.broadcast] full. *)
Theorem hub_never_panics (a : activity) (ev : hub_event) (st : State) :
  hub_wf st → closed (broadcast st) = false →
  (possible a st → undisturbed a →
   act a st ≠ Panic ∧
   ∀ st', act a st = Done st' →
          hub_wf st' ∧ closed (broadcast st') = false) ∧
  (admissible ev st →
   (hub_waits ev st → hub_step ev st = Blocked) ∧
   (¬ hub_waits ev st →
    ∃ st', hub_step ev st = Done st' ∧
      hub_wf st' ∧ closed (broadcast st') = false)).
Proof.
  intros Hwf Hopen. split; [|apply hub_step_progress; assumption].
  intros Hposs Hund.
  destruct a as [c now between|c between|order|server_time now|[msg|now order]];
    cbn [act possible undisturbed foreign_step] in *.
  - apply publishers_only in Hund as [ms ->]. unfold Run_register.
    destruct (publishers_run_cases ms (register_insert c st) Hopen) as [->| ->].
    + split; [discriminate|]. intros st' H. discriminate.
    + cbn [bind].
      apply (hub_step_safe (Iterate (case_register c now))
               (set_broadcast st (append ms (broadcast st)))).
      * exact Hwf.
      * exact Hopen.
      * exact Hposs.
  - apply publishers_only in Hund as [ms ->]. unfold Run_unregister.
    destruct (unregister_test c st) eqn:Htest;
      [|split; [discriminate|]; intros st' [= <-]; auto].
    destruct (publishers_run_cases ms st Hopen) as [->| ->].
    + split; [discriminate|]. intros st' H. discriminate.
    + cbn [bind].
      pose proof (hub_step_safe (Iterate (case_unregister c))
                    (set_broadcast st (append ms (broadcast st)))
                    Hwf Hopen I) as Hsafe.
      cbn [hub_step Run_iteration] in Hsafe.
      change (unregister_test c (set_broadcast st (append ms (broadcast st))))
        with (unregister_test c st) in Hsafe.
      rewrite Htest in Hsafe. exact Hsafe.
  - apply (hub_step_safe (Iterate (case_broadcast order)) st Hwf Hopen Hposs).
  - apply (hub_step_safe (Iterate (case_ticker server_time now)) st Hwf Hopen I).
  - apply (hub_step_safe (Publish msg) st Hwf Hopen I).
  - destruct (Shutdown_safe now order st Hwf Hposs) as [Hsafe Hdone].
    split; [exact Hsafe|]. intros st' H. destruct (Hdone st' H) as [Hwf' Hb].
    split; [exact Hwf'|]. rewrite Hb. exact Hopen.
Qed.

Lemma unregister_done (c : nat) (st : State) :
  hub_wf st →
  ∃ st', Run_iteration (case_unregister c) st = Done st' ∧
    clients st' = delete c (clients st) ∧
    broadcast st' = broadcast st ∧
    (∀ c', c' ≠ c → heap st' !! c' = heap st !! c') ∧
    heap st' !! c =
      match clients st !! c with
      | Some _ => (λ cl, set_Send cl (closed_chan (Send cl))) <$> heap st !! c
      | None => heap st !! c
      end.
Proof.
  intros Hwf. cbn [Run_iteration]. unfold unregister_test, unregister_locked.
  destruct (clients st !! c) as [b|] eqn:Hreg.
  - destruct (Hwf c b Hreg) as (cl & Hcl & Hcopen).
    rewrite Hcl. unfold close. rewrite Hcopen. cbn [bind].
    eexists. split; [reflexivity|].
    cbn [set_heap set_clients clients heap broadcast].
    rewrite lookup_insert_eq.
    split_and!; try reflexivity.
    intros c' Hne. apply lookup_insert_ne. congruence.
  - exists st. split_and!; try reflexivity.
    symmetry. apply delete_id. exact Hreg.
Qed.

(** X17.  The unregister case of [Run], which tests [h.clients[client]]
    before it takes [h.mu].  For a client that is not registered, in
    particular one that a broadcast dropped or that was unregistered
    before, it changes nothing, whatever runs beside it.  For a
    registered client, with publishers that return between the test and
    the lock, it completes: the client is not registered afterwards, its
    queue is closed, nothing else has changed but for the published
    messages, and a second unregister changes nothing.  When [Shutdown]
    returns between the test and the lock, the case closes the queue
    that [Shutdown] closed: it panics. *)
Theorem unregister_spec (c : nat) (st : State) :
  hub_wf st →
  (clients st !! c = None →
   ∀ between, Run_unregister c between st = Done st) ∧
  (is_Some (clients st !! c) →
   ∀ published st0,
     foreign_run (Publishes <$> published) st = Done st0 →
     ∃ st' cl,
       heap st !! c = Some cl ∧
       Run_unregister c (Publishes <$> published) st = Done st' ∧
       clients st' = delete c (clients st) ∧
       broadcast st' = append published (broadcast st) ∧
       (∀ c', c' ≠ c → heap st' !! c' = heap st !! c') ∧
       heap st' !! c = Some (set_Send cl (closed_chan (Send cl))) ∧
       ∀ between, Run_unregister c between st' = Done st') ∧
  (is_Some (clients st !! c) →
   ∀ now order,
     range_of st order →
     (∀ c' cl', is_Some (clients st !! c') → heap st !! c' = Some cl' →
        full (Send cl') = false) →
     ∃ st0 cl0,
       Shutdown now order st = Done st0 ∧
       heap st0 !! c = Some cl0 ∧ closed (Send cl0) = true ∧
       unregister_locked c st0 = Panic ∧
       Run_unregister c [Shuts_down now order] st = Panic).
Proof.
  intros Hwf. split; [|split].
  - intros Hnone between. unfold Run_unregister, unregister_test.
    rewrite Hnone. reflexivity.
  - intros [b Hreg] published st0 Hpub.
    destruct (Hwf c b Hreg) as (cl & Hcl & Hcopen).
    unfold Run_unregister at 1. unfold unregister_test at 1. rewrite Hreg.
    rewrite Hpub. apply publishers_run_Done in Hpub as ->. cbn [bind].
    unfold unregister_locked. cbn [set_broadcast heap]. rewrite Hcl.
    unfold close. rewrite Hcopen. cbn [bind].
    eexists _, cl. split; [reflexivity|]. split; [reflexivity|].
    cbn [set_heap set_clients clients heap broadcast].
    split; [reflexivity|]. split; [reflexivity|]. split; [|split].
    + intros c' Hne. apply lookup_insert_ne. congruence.
    + apply lookup_insert_eq.
    + intros between. unfold Run_unregister, unregister_test.
      cbn [clients set_heap set_clients set_broadcast].
      rewrite lookup_delete_eq. reflexivity.
  - intros [b Hreg] now order Hr Hroom.
    destruct (Hwf c b Hreg) as (cl & Hcl & _).
    destruct (HubProofs.Shutdown_closes now order st c cl Hwf Hr Hroom
                (ex_intro _ b Hreg) Hcl) as (st0 & Hsd & Hcl0).
    assert (Hlocked : unregister_locked c st0 = Panic).
    { unfold unregister_locked. rewrite Hcl0. reflexivity. }
    exists st0, (shut (shutdownMsg now) cl).
    split_and!; try assumption; try reflexivity.
    unfold Run_unregister, unregister_test. rewrite Hreg.
    cbn [foreign_run foreign_step]. rewrite Hsd. cbn [bind]. exact Hlocked.
Qed.

(** *** The welcome is first *)

Lemma service_queue (c : nat) :
  ∀ (msgs : list Message) (orders : list (list nat)) (st : State)
    (cl : Client) (b : bool),
    hub_wf st →
    clients st !! c = Some b → heap st !! c = Some cl →
    buf (broadcast st) = msgs →
    length orders = length msgs →
    serviced_by orders st →
    (length (buf (Send cl)) + length msgs <= cap (Send cl))%nat →
    ∃ st' cl',
      hub_run (Iterate ∘ case_broadcast <$> orders) st = Done st' ∧
      is_Some (clients st' !! c) ∧
      heap st' !! c = Some cl' ∧
      buf (Send cl') = buf (Send cl) ++ msgs.
Proof.
  induction msgs as [|m rest IH];
    intros [|o os] st cl b Hwf Hreg Hcl Hbuf Hlen Hserv Hroom;
    try discriminate Hlen.
  - exists st, cl. split; [reflexivity|]. split; [eauto|].
    split; [exact Hcl|]. rewrite app_nil_r. reflexivity.
  - destruct Hserv as [Hr Hnext].
    assert (Hiter : ∃ st1,
              Run_iteration (case_broadcast o) st = Done st1 ∧
              buf (broadcast st1) = rest ∧
              clients st1 !! c = Some b ∧
              heap st1 !! c = Some (set_Send cl (push m (Send cl)))).
    { cbn [Run_iteration]. rewrite Hbuf.
      set (st0 := set_broadcast st _).
      destruct (HubProofs.broadcast_range_spec m o st0)
        as (st1 & Hrun & Hb & _ & Hin).
      { eapply HubProofs.range_of_NoDup. exact Hr. }
      { apply (range_open st o Hwf Hr). }
      exists st1. split; [exact Hrun|]. split; [rewrite Hb; reflexivity|].
      assert (Hc : c ∈ o)
        by (apply (HubProofs.range_of_elem st o c Hr); eauto).
      destruct (Hin c cl Hc Hcl) as [Hh Hcs].
      assert (Hfull : full (Send cl) = false).
      { unfold full. apply Nat.leb_gt. cbn [length] in Hroom. lia. }
      rewrite Hfull in Hcs. rewrite Hcs, Hh. unfold delivered.
      rewrite Hfull. split; [exact Hreg|reflexivity]. }
    destruct Hiter as (st1 & Hrun & Hb1 & Hreg1 & Hcl1).
    destruct (IH os st1 (set_Send cl (push m (Send cl))) b)
      as (st' & cl' & Hrest & Hreg' & Hcl' & Hbuf').
    + apply (HubProofs.hub_step_keeps (Iterate (case_broadcast o)) st st1 Hrun).
      exact Hwf.
    + exact Hreg1.
    + exact Hcl1.
    + exact Hb1.
    + cbn [length] in Hlen. lia.
    + apply Hnext. exact Hrun.
    + cbn [set_Send Send push buf cap]. rewrite length_app.
      cbn [length] in *. lia.
    + exists st', cl'. cbn [fmap list_fmap hub_run hub_step compose].
      rewrite Hrun. cbn [bind]. split; [exact Hrest|].
      split; [exact Hreg'|]. split; [exact Hcl'|].
      rewrite Hbuf'. cbn [set_Send Send push buf].
      rewrite <- app_assoc. reflexivity.
Qed.

(** X25.  The welcome is the first message of a client's queue.  A
    client as [handleWebSocket] allocates it is registered by the
    register case of [Run], whatever broadcasts are pending, and with
    publishers that return from [BroadcastMessage] between the
    insertion and the welcome: after the iteration the client is
    registered and its queue holds the welcome alone.  Whatever happens to the hub afterwards, iterations of [Run],
    publishers or [Shutdown], the welcome stays the first message of the
    queue.  A [BroadcastMessage X] that follows, once the iterations of
    the broadcast case have serviced the pending messages and [X], each
    for every order of its range, leaves the queue with the welcome, the
    pending messages and [X], in that order: with nothing pending, the
    welcome and [X].  The one exception is a [Shutdown] that returns
    between the insertion and the welcome: the queue then holds the
    shutdown message alone and is closed, and the send of the welcome
    panics. *)
Theorem welcome_precedes_broadcast (c : nat) (id : string) (now : Z)
    (X : Message) (published : list Message) (st st0 : State) :
  hub_wf st →
  heap st !! c = Some (new_client id) →
  foreign_run (Publishes <$> published) (register_insert c st) = Done st0 →
  (∃ st1 cl1,
     Run_register c now (Publishes <$> published) st = Done st1 ∧
     is_Some (clients st1 !! c) ∧
     heap st1 !! c = Some cl1 ∧ buf (Send cl1) = [welcome id now] ∧
     buf (broadcast st1) = buf (broadcast st) ++ published ∧
     (∀ acts st',
        act_run acts st1 = Done st' →
        ∃ cl more,
          heap st' !! c = Some cl ∧
          buf (Send cl) = welcome id now :: more) ∧
     (∀ st2 orders,
        BroadcastMessage X st1 = Done st2 →
        serviced_by orders st2 →
        length orders = length (buf (broadcast st2)) →
        (length (buf (broadcast st2)) < 256)%nat →
        ∃ st3 cl,
          hub_run (Iterate ∘ case_broadcast <$> orders) st2 = Done st3 ∧
          is_Some (clients st3 !! c) ∧
          heap st3 !! c = Some cl ∧
          buf (Send cl) = welcome id now :: buf (broadcast st1) ++ [X])) ∧
  (∀ t order,
     range_of (register_insert c st) order →
     (∀ c' cl', is_Some (clients st !! c') → heap st !! c' = Some cl' →
        full (Send cl') = false) →
     ∃ st_shut cl0,
       foreign_run [Shuts_down t order] (register_insert c st)
         = Done st_shut ∧
       heap st_shut !! c = Some cl0 ∧
       buf (Send cl0) = [shutdownMsg t] ∧ closed (Send cl0) = true ∧
       Run_register c now [Shuts_down t order] st = Panic).
Proof.
  intros Hwf Hc Hpub. split.
  - set (cl1 := set_Send (new_client id)
                  (push (welcome id now) (make_chan 256))).
    set (st1 := {| clients := <[c := true]> (clients st);
                   broadcast := append published (broadcast st);
                   heap := <[c := cl1]> (heap st) |}).
    assert (Hstep : Run_iteration (case_register c now)
                      (set_broadcast st (append published (broadcast st)))
                    = Done st1).
    { cbn [Run_iteration]. unfold register_welcome, register_insert.
      cbn [set_clients set_broadcast heap clients broadcast]. rewrite Hc.
      rewrite HubProofs.SendToClient_eq_broadcast_body.
      rewrite (HubProofs.broadcast_body_open _ c _ (new_client id));
        [reflexivity|exact Hc|reflexivity]. }
    assert (Hreg : Run_register c now (Publishes <$> published) st = Done st1).
    { unfold Run_register. rewrite Hpub.
      apply publishers_run_Done in Hpub as ->. cbn [bind]. exact Hstep. }
    assert (Hwf1 : hub_wf st1).
    { apply (HubProofs.hub_step_keeps (Iterate (case_register c now)) _ st1 Hstep).
      exact Hwf. }
    assert (Hcl1 : heap st1 !! c = Some cl1)
      by (subst st1; cbn [heap]; apply lookup_insert_eq).
    exists st1, cl1. split; [exact Hreg|].
    split; [subst st1; cbn [clients]; rewrite lookup_insert_eq; eauto|].
    split; [exact Hcl1|]. split; [reflexivity|]. split; [reflexivity|]. split.
    + intros acts st' Hrun.
      destruct (HubProofs.act_run_extends acts st1 st' Hrun c cl1 Hcl1)
        as (cl & more & Hcl & Hbuf).
      exists cl, more. split; [exact Hcl|]. rewrite Hbuf. reflexivity.
    + intros st2 orders HX Hserv Hlen Hfit.
      assert (Hst2 : st2 = set_broadcast st1 (push X (broadcast st1))).
      { unfold BroadcastMessage, send in HX.
        destruct (closed (broadcast st1)); [discriminate|].
        destruct (full (broadcast st1)); [discriminate|].
        cbn [bind] in HX. injection HX as <-. reflexivity. }
      subst st2.
      destruct (service_queue c (buf (broadcast st1) ++ [X]) orders
                  (set_broadcast st1 (push X (broadcast st1))) cl1 true)
        as (st3 & cl & Hrun & Hreg3 & Hcl3 & Hbuf3).
      * exact Hwf1.
      * subst st1. cbn [set_broadcast clients]. apply lookup_insert_eq.
      * exact Hcl1.
      * reflexivity.
      * exact Hlen.
      * exact Hserv.
      * cbn [set_broadcast broadcast push buf] in Hfit.
        subst cl1. cbn [set_Send Send push make_chan buf cap app length].
        lia.
      * exists st3, cl. split; [exact Hrun|]. split; [exact Hreg3|].
        split; [exact Hcl3|]. rewrite Hbuf3. reflexivity.
  - intros t order Hr Hrooms.
    assert (Hwf0 : hub_wf (register_insert c st)).
    { intros c' b Hc'. cbn [register_insert set_clients clients heap] in *.
      destruct (decide (c' = c)) as [->|Hne].
      - exists (new_client id). split; [exact Hc|reflexivity].
      - rewrite lookup_insert_ne in Hc' by congruence. exact (Hwf c' b Hc'). }
    destruct (HubProofs.Shutdown_closes t order (register_insert c st) c
                (new_client id) Hwf0 Hr) as (st_shut & Hsd & Hcl0).
    { intros c' cl' Hreg Hcl'.
      cbn [register_insert set_clients clients heap] in *.
      destruct (decide (c' = c)) as [->|Hne].
      - rewrite Hc in Hcl'. injection Hcl' as <-. reflexivity.
      - rewrite lookup_insert_ne in Hreg by congruence.
        exact (Hrooms c' cl' Hreg Hcl'). }
    { cbn [register_insert set_clients clients]. rewrite lookup_insert_eq.
      eauto. }
    { exact Hc. }
    exists st_shut, (shut (shutdownMsg t) (new_client id)).
    assert (Hrun : foreign_run [Shuts_down t order] (register_insert c st)
                   = Done st_shut).
    { cbn [foreign_run foreign_step]. rewrite Hsd. reflexivity. }
    split; [exact Hrun|]. split; [exact Hcl0|].
    split; [reflexivity|]. split; [reflexivity|].
    unfold Run_register. rewrite Hrun. cbn [bind].
    unfold register_welcome. rewrite Hcl0.
    unfold SendToClient. rewrite Hcl0. reflexivity.
Qed.

(** *** Fan-out in order *)

Lemma publish_all (evs : list hub_event) : ∀ (ms : list Message) (st : State),
  closed (broadcast st) = false →
  (length (buf (broadcast st)) + length ms <= cap (broadcast st))%nat →
  hub_run ((Publish <$> ms) ++ evs) st
  = hub_run evs (set_broadcast st (append ms (broadcast st))).
Proof.
  induction ms as [|m ms IH]; intros st Hopen Hroom.
  - cbn [fmap list_fmap app]. unfold append. rewrite app_nil_r.
    destruct st as [cs [b cp cl] h]. reflexivity.
  - cbn [fmap list_fmap app hub_run hub_step].
    unfold BroadcastMessage, send, full. rewrite Hopen.
    cbn [length] in Hroom.
    replace (cap (broadcast st) <=? length (buf (broadcast st)))%nat
      with false by (symmetry; apply Nat.leb_gt; lia).
    cbn [bind]. rewrite IH.
    + unfold set_broadcast, append, push.
      cbn [clients heap broadcast buf cap closed].
      rewrite <- app_assoc. reflexivity.
    + exact Hopen.
    + cbn [set_broadcast broadcast push buf cap]. rewrite length_app.
      cbn [length]. lia.
Qed.

Lemma service_one (message : Message) (rest : list Message)
    (order : list nat) (st : State) :
  hub_wf st → range_of st order →
  buf (broadcast st) = message :: rest →
  (∀ c b cl, clients st !! c = Some b → heap st !! c = Some cl →
     (length (buf (Send cl)) < cap (Send cl))%nat) →
  ∃ st', Run_iteration (case_broadcast order) st = Done st' ∧
    broadcast st' = {| buf := rest; cap := cap (broadcast st);
                       closed := closed (broadcast st) |} ∧
    fanned [message] st st'.
Proof.
  intros Hwf Hrange Hbuf Hroom. cbn [Run_iteration]. rewrite Hbuf.
  set (st1 := set_broadcast st _).
  destruct (HubProofs.broadcast_range_spec message order st1)
    as (st' & Hrun & Hb & Hout & Hin).
  { eapply HubProofs.range_of_NoDup. exact Hrange. }
  { apply (range_open st order Hwf Hrange). }
  exists st'. split; [exact Hrun|]. split; [rewrite Hb; reflexivity|].
  assert (Hcell : ∀ c, (clients st' !! c = clients st !! c) ∧
            heap st' !! c =
            match clients st !! c with
            | Some _ =>
                (λ cl, set_Send cl (append [message] (Send cl))) <$> heap st !! c
            | None => heap st !! c
            end).
  { intros c. destruct (clients st !! c) as [b|] eqn:Hreg.
    - destruct (Hwf c b Hreg) as (cl & Hcl & Hcopen).
      assert (Hc : c ∈ order)
        by (apply (HubProofs.range_of_elem st order c Hrange); eauto).
      destruct (Hin c cl Hc Hcl) as [Hh Hc'].
      assert (Hfull : full (Send cl) = false).
      { unfold full. apply Nat.leb_gt. eapply Hroom; eassumption. }
      rewrite Hfull in Hc'. rewrite Hc', Hh, Hcl.
      subst st1. cbn [set_broadcast clients]. split; [exact Hreg|].
      unfold delivered. rewrite Hfull. reflexivity.
    - assert (Hc : c ∉ order).
      { intros Hc. apply (HubProofs.range_of_elem st order c Hrange) in Hc.
        rewrite Hreg in Hc. destruct Hc; discriminate. }
      destruct (Hout c Hc) as [Hc' Hh]. rewrite Hc', Hh.
      subst st1. cbn [set_broadcast clients heap]. auto. }
  split.
  - apply map_eq. intros c. apply Hcell.
  - intros c. apply Hcell.
Qed.

Lemma service_all : ∀ (ms : list Message) (orders : list (list nat))
    (pending : list Message) (st : State),
  hub_wf st → length orders = length ms →
  Forall (range_of st) orders →
  buf (broadcast st) = ms ++ pending →
  (∀ c b cl, clients st !! c = Some b → heap st !! c = Some cl →
     (length (buf (Send cl)) + length ms <= cap (Send cl))%nat) →
  ∃ st', hub_run (Iterate ∘ case_broadcast <$> orders) st = Done st' ∧
    broadcast st' = {| buf := pending; cap := cap (broadcast st);
                       closed := closed (broadcast st) |} ∧
    fanned ms st st'.
Proof.
  induction ms as [|m ms IH]; intros orders pending st Hwf Hlen Hranges Hbuf Hroom.
  - destruct orders; [|discriminate]. exists st. split; [reflexivity|].
    split; [cbn in Hbuf; rewrite <- Hbuf; destruct (broadcast st); reflexivity|].
    split; [reflexivity|]. intros c.
    destruct (clients st !! c); [|reflexivity].
    destruct (heap st !! c) as [cl|]; [|reflexivity].
    cbn. unfold set_Send, append. rewrite app_nil_r.
    destruct cl as [i cn [bf cp cd]]. reflexivity.
  - destruct orders as [|order orders]; [discriminate|].
    apply Forall_cons in Hranges as [Hrange Hranges].
    destruct (service_one m (ms ++ pending) order st Hwf Hrange Hbuf)
      as (st1 & Hrun1 & Hb1 & Hcs1 & Hheap1).
    { intros c b cl Hreg Hcl. specialize (Hroom c b cl Hreg Hcl).
      cbn [length] in Hroom. lia. }
    assert (Hwf1 : hub_wf st1).
    { apply (HubProofs.hub_step_keeps (Iterate (case_broadcast order)) st st1
               Hrun1). exact Hwf. }
    destruct (IH orders pending st1 Hwf1) as (st' & Hrun & Hb & Hcs & Hheap).
    + cbn [length] in Hlen. lia.
    + eapply Forall_impl; [exact Hranges|]. intros o Ho.
      unfold range_of in *. rewrite Hcs1. exact Ho.
    + rewrite Hb1. reflexivity.
    + intros c b cl1 Hreg Hcl1. rewrite Hcs1 in Hreg.
      specialize (Hheap1 c). rewrite Hreg, Hcl1 in Hheap1.
      destruct (heap st !! c) as [cl|] eqn:Hcl; [|discriminate].
      cbn in Hheap1. injection Hheap1 as ->.
      specialize (Hroom c b cl Hreg Hcl). cbn [length] in Hroom.
      cbn [set_Send Send append buf cap]. rewrite length_app. cbn [length]. lia.
    + exists st'. cbn [fmap list_fmap hub_run hub_step compose].
      rewrite Hrun1. cbn [bind]. split; [exact Hrun|].
      split; [rewrite Hb, Hb1; reflexivity|].
      split; [rewrite Hcs, Hcs1; reflexivity|].
      intros c. rewrite Hheap, Hcs1, Hheap1.
      destruct (clients st !! c); [|reflexivity].
      destruct (heap st !! c) as [cl|]; [|reflexivity].
      cbn. unfold set_Send, append. cbn [Send buf cap closed ID Conn].
      rewrite <- app_assoc. reflexivity.
Qed.

(** X18.  The hub fans messages out in the order of their publication.
    On an idle hub whose registered clients all have room for them, the
    messages [ms], published one after the other and then serviced by as
    many iterations of [Run], each in any order of the range, arrive in
    the queue of every registered client after what it held, in the
    order of publication; no client is dropped, and the cells of the
    clients that are not registered are not touched. *)
Theorem broadcast_fan_out_in_order (ms : list Message)
    (orders : list (list nat)) (st : State) :
  hub_wf st → closed (broadcast st) = false → buf (broadcast st) = [] →
  (length ms <= cap (broadcast st))%nat →
  length orders = length ms → Forall (range_of st) orders →
  (∀ c b cl, clients st !! c = Some b → heap st !! c = Some cl →
     (length (buf (Send cl)) + length ms <= cap (Send cl))%nat) →
  ∃ st',
    hub_run ((Publish <$> ms) ++ (Iterate ∘ case_broadcast <$> orders)) st
      = Done st' ∧
    clients st' = clients st ∧ broadcast st' = broadcast st ∧
    (∀ c b cl, clients st !! c = Some b → heap st !! c = Some cl →
       heap st' !! c = Some (set_Send cl (append ms (Send cl)))) ∧
    (∀ c, clients st !! c = None → heap st' !! c = heap st !! c).
Proof.
  intros Hwf Hopen Hidle Hcap Hlen Hranges Hroom.
  rewrite publish_all by (rewrite ?Hidle; cbn [length]; assumption || lia).
  set (st0 := set_broadcast st (append ms (broadcast st))).
  destruct (service_all ms orders [] st0) as (st' & Hrun & Hb & Hcs & Hheap).
  - exact Hwf.
  - exact Hlen.
  - exact Hranges.
  - subst st0. cbn [set_broadcast broadcast append buf]. rewrite Hidle.
    rewrite app_nil_r. reflexivity.
  - exact Hroom.
  - exists st'. split; [exact Hrun|]. split; [exact Hcs|].
    split.
    + rewrite Hb. subst st0. cbn [set_broadcast broadcast append cap closed].
      rewrite <- Hidle. destruct (broadcast st); reflexivity.
    + split.
      * intros c b cl Hreg Hcl. rewrite Hheap.
        subst st0. cbn [set_broadcast clients heap]. rewrite Hreg, Hcl.
        reflexivity.
      * intros c Hreg. rewrite Hheap.
        subst st0. cbn [set_broadcast clients heap]. rewrite Hreg.
        reflexivity.
Qed.

(** *** The pumps *)

Lemma payload_app (fs gs : list frame) :
  payload (fs ++ gs) = payload fs ++ payload gs.
Proof. apply filter_app. Qed.

(** X19.  The write pump drains a closed queue and says goodbye.  Once
    the queue of a client is closed (by the unregister case, by a
    broadcast that found it full, or by [Shutdown]) and while the
    transport reports no error, [WritePump] writes the messages that
    the queue still holds, in the order of the queue, then one close
    frame; it then closes the connection and returns, whatever pings the
    ticker adds in between.  The hub itself is not touched. *)
Theorem WritePump_drains_closed_queue (c : nat) : ∀ (cases : list pump_case)
    (ms : list Message) (w : Writer) (cl : Client),
  heap (hub w) !! c = Some cl →
  buf (Send cl) = ms → closed (Send cl) = true →
  Forall (λ pc, succeeds pc = true) cases →
  length (filter (λ pc, is_Send pc = true) cases) = S (length ms) →
  ∃ w', WritePump c cases w = Done (w', Returned) ∧
    payload (wire w') =
      payload (wire w) ++ (TextMessage <$> ms) ++ [CloseMessage] ∧
    heap (hub w') =
      <[c := {| ID := ID cl; Conn := {| conn_closed := true |};
                Send := {| buf := []; cap := cap (Send cl);
                           closed := true |} |}]> (heap (hub w)) ∧
    clients (hub w') = clients (hub w) ∧
    broadcast (hub w') = broadcast (hub w).
Proof.
  induction cases as [|pc cases IH]; intros ms w cl Hcl Hbuf Hclosed Hok Hcount.
  - cbn in Hcount. discriminate.
  - apply Forall_cons in Hok as [Hpc Hok]. cbn [WritePump].
    destruct pc as [marshal_ok write_ok|write_ok]; cbn [succeeds] in Hpc.
    + apply andb_true_iff in Hpc as [-> ->].
      rewrite filter_cons_True in Hcount by reflexivity.
      cbn [length] in Hcount.
      unfold WritePump_iteration, WritePump_receive. rewrite Hcl.
      unfold recv. rewrite Hbuf. destruct ms as [|m rest].
      * rewrite Hclosed. cbn [bind negb]. unfold close_Conn.
        cbn [hub set_heap heap]. rewrite lookup_insert_eq. cbn [bind].
        eexists. split; [reflexivity|]. cbn [wire hub heap clients broadcast
          set_heap].
        split; [rewrite payload_app; reflexivity|].
        split; [|split; reflexivity].
        rewrite insert_insert_eq. f_equal.
        destruct cl as [i cn [bf cp cd]]. cbn in *. subst. reflexivity.
      * cbn [bind negb].
        set (w1 := {| hub := _; wire := _ |}).
        destruct (IH rest w1
                    (set_Send cl {| buf := rest; cap := cap (Send cl);
                                    closed := closed (Send cl) |}))
          as (w' & Hrun & Hwire & Hheap & Hcs & Hb).
        -- subst w1. cbn [hub set_heap heap]. apply lookup_insert_eq.
        -- reflexivity.
        -- exact Hclosed.
        -- exact Hok.
        -- cbn [length] in Hcount. lia.
        -- exists w'. split; [exact Hrun|]. rewrite Hwire, Hheap, Hcs, Hb.
           subst w1. cbn [wire hub set_heap heap clients broadcast set_Send
                          ID Send cap].
           rewrite payload_app, insert_insert_eq, <- app_assoc.
           split_and!; reflexivity.
    + subst write_ok.
      rewrite filter_cons_False in Hcount by (cbn; discriminate).
      cbn [WritePump_iteration negb bind].
      set (w1 := {| hub := _; wire := _ |}).
      destruct (IH ms w1 cl) as (w' & Hrun & Hwire & Hheap & Hcs & Hb);
        try assumption.
      exists w'. split; [exact Hrun|]. rewrite Hwire, Hheap, Hcs, Hb.
      subst w1. cbn [wire hub]. rewrite payload_app. cbn.
      rewrite app_nil_r. split_and!; reflexivity.
Qed.

(** X20.  The write pump writes in the order of the queue.  While
    the transport reports no error, the iterations of [WritePump] that
    take the receive case write the messages at the head of the queue
    of the client, oldest first, whether or not the queue has been
    closed; the pump stays in its loop, the rest of the queue stays
    queued, and the connection and the hub are not touched. *)
Theorem WritePump_writes_in_order (c : nat) (cases : list pump_case) :
  ∀ (ms rest : list Message) (w : Writer) (cl : Client),
  heap (hub w) !! c = Some cl →
  buf (Send cl) = ms ++ rest →
  Forall (λ pc, succeeds pc = true) cases →
  length (filter (λ pc, is_Send pc = true) cases) = length ms →
  ∃ w', WritePump c cases w = Done (w', Reading) ∧
    payload (wire w') = payload (wire w) ++ (TextMessage <$> ms) ∧
    heap (hub w') =
      <[c := set_Send cl {| buf := rest; cap := cap (Send cl);
                            closed := closed (Send cl) |}]> (heap (hub w)) ∧
    clients (hub w') = clients (hub w) ∧
    broadcast (hub w') = broadcast (hub w).
Proof.
  induction cases as [|pc cases IH]; intros ms rest w cl Hcl Hbuf Hok Hcount.
  - destruct ms; [|discriminate]. cbn [app] in Hbuf.
    exists w. cbn [WritePump fmap list_fmap]. rewrite app_nil_r.
    split_and!; try reflexivity.
    rewrite insert_id; [reflexivity|]. rewrite Hcl. f_equal.
    destruct cl as [i cn [bf cp cd]]. cbn in *. subst. reflexivity.
  - apply Forall_cons in Hok as [Hpc Hok]. cbn [WritePump].
    destruct pc as [marshal_ok write_ok|write_ok]; cbn [succeeds] in Hpc.
    + apply andb_true_iff in Hpc as [-> ->].
      rewrite filter_cons_True in Hcount by reflexivity.
      destruct ms as [|m ms]; [discriminate|]. cbn [length] in Hcount.
      unfold WritePump_iteration, WritePump_receive. rewrite Hcl.
      unfold recv. rewrite Hbuf. cbn [app bind negb].
      set (w1 := {| hub := _; wire := _ |}).
      destruct (IH ms rest w1
                  (set_Send cl {| buf := ms ++ rest; cap := cap (Send cl);
                                  closed := closed (Send cl) |}))
        as (w' & Hrun & Hwire & Hheap & Hcs & Hb).
      * subst w1. cbn [hub set_heap heap]. apply lookup_insert_eq.
      * reflexivity.
      * exact Hok.
      * lia.
      * exists w'. split; [exact Hrun|]. rewrite Hwire, Hheap, Hcs, Hb.
        subst w1. cbn [wire hub set_heap heap clients broadcast set_Send
                       ID Send Conn cap closed fmap list_fmap].
        rewrite payload_app, insert_insert_eq, <- app_assoc.
        split_and!; reflexivity.
    + subst write_ok.
      rewrite filter_cons_False in Hcount by (cbn; discriminate).
      cbn [WritePump_iteration negb bind].
      set (w1 := {| hub := _; wire := _ |}).
      destruct (IH ms rest w1 cl) as (w' & Hrun & Hwire & Hheap & Hcs & Hb);
        try assumption.
      exists w'. split; [exact Hrun|]. rewrite Hwire, Hheap, Hcs, Hb.
      subst w1. cbn [wire hub]. rewrite payload_app. cbn.
      rewrite app_nil_r. split_and!; reflexivity.
Qed.

(** X21.  The read pump echoes, then takes its leave.  While
    [h.broadcast] has room, [ReadPump] publishes for every message read,
    in the order of the reads, one message of type "echo" that carries
    the message read, stamped with the time of the read, and the
    identifier of the client.  At the first read error it stops reading:
    it has the hub unregister its client, which closes the queue of the
    client if it was still registered, closes the connection and
    returns; what the transport would deliver after the error is never
    echoed, and no other client is touched. *)
Theorem ReadPump_echoes_then_leaves (c : nat) (rs : list (Message * Z * Z))
    (later : list read_result) (st : State) (cl : Client) :
  hub_wf st → heap st !! c = Some cl → closed (broadcast st) = false →
  (length (buf (broadcast st)) + length rs <= cap (broadcast st))%nat →
  ∃ st', ReadPump c ((as_read <$> rs) ++ read_error :: later) st
           = Done (st', Returned) ∧
    broadcast st' = append (echo_of (ID cl) <$> rs) (broadcast st) ∧
    clients st' = delete c (clients st) ∧
    heap st' !! c =
      Some (set_Conn
              match clients st !! c with
              | Some _ => set_Send cl (closed_chan (Send cl))
              | None => cl
              end {| conn_closed := true |}) ∧
    (∀ c', c' ≠ c → heap st' !! c' = heap st !! c').
Proof.
  revert st.
  induction rs as [|[[msg now] now'] rs IH]; intros st Hwf Hcl Hopen Hroom.
  - cbn [fmap list_fmap app ReadPump].
    destruct (unregister_done c st Hwf) as (st1 & Hrun & Hcs & Hb & Hout & Hin).
    rewrite Hrun. cbn [bind]. unfold close_Conn. rewrite Hin, Hcl.
    assert (Hcell : ∃ cl1, match clients st !! c with
              | Some _ => (λ cl, set_Send cl (closed_chan (Send cl))) <$> Some cl
              | None => Some cl
              end = Some cl1 ∧
              cl1 = match clients st !! c with
                    | Some _ => set_Send cl (closed_chan (Send cl))
                    | None => cl
                    end).
    { destruct (clients st !! c); eexists; split; reflexivity. }
    destruct Hcell as (cl1 & -> & Hcl1). cbn [bind].
    eexists. split; [reflexivity|].
    cbn [set_heap broadcast clients heap]. rewrite lookup_insert_eq.
    split_and!.
    + rewrite Hb. unfold append. cbn [fmap list_fmap]. rewrite app_nil_r.
      destruct (broadcast st); reflexivity.
    + exact Hcs.
    + rewrite Hcl1. destruct (clients st !! c); reflexivity.
    + intros c' Hne. rewrite lookup_insert_ne by congruence. apply Hout, Hne.
  - cbn [fmap list_fmap app ReadPump as_read fst snd]. rewrite Hcl.
    unfold BroadcastMessage, send, full. rewrite Hopen.
    cbn [length] in Hroom.
    replace (cap (broadcast st) <=? length (buf (broadcast st)))%nat
      with false by (symmetry; apply Nat.leb_gt; lia).
    cbn [bind].
    set (st1 := set_broadcast st _).
    destruct (IH st1) as (st' & Hrun & Hb & Hcs & Hin & Hout).
    + exact Hwf.
    + exact Hcl.
    + exact Hopen.
    + subst st1. cbn [set_broadcast broadcast push buf cap].
      rewrite length_app. cbn [length]. lia.
    + exists st'. split; [exact Hrun|]. split_and!; try assumption.
      rewrite Hb. subst st1. unfold append, push, echo_of.
      cbn [set_broadcast broadcast buf cap closed fmap list_fmap fst snd].
      rewrite <- app_assoc. reflexivity.
Qed.

Lemma greeted_hub_wf : hub_wf greeted_hub.
Proof.
  apply (HubProofs.hub_run_keeps _ _ _ HubProofs.greeted_hub_reachable).
  apply HubProofs.NewHub_wf.
Qed.

Lemma greeted_hub_range : range_of greeted_hub [1%nat].
Proof. unfold range_of. vm_compute. reflexivity. Qed.

Lemma greeted_hub_room (c : nat) (b : bool) (cl : Client) (n : nat) :
  (n <= 255)%nat →
  clients greeted_hub !! c = Some b → heap greeted_hub !! c = Some cl →
  (length (buf (Send cl)) + n <= cap (Send cl))%nat.
Proof.
  intros Hn Hb Hcl. cbn in Hb. apply lookup_singleton_Some in Hb as [<- _].
  vm_compute in Hcl. injection Hcl as <-. cbn. lia.
Qed.

Lemma hub_never_panics_witness :
  act (Registers 1%nat 0 [Publishes (note 3)]) (NewHub two_clients) ≠ Panic ∧
  act (Calls (Shuts_down 9 [1%nat])) greeted_hub ≠ Panic ∧
  hub_step (Iterate (case_ticker "2024-05-01T10:00:00Z" 5)) jammed_hub
    = Blocked ∧
  ∃ st', hub_step (Iterate (case_broadcast [])) jammed_hub = Done st' ∧
    hub_wf st' ∧ closed (broadcast st') = false.
Proof.
  assert (Hwf : hub_wf jammed_hub).
  { intros c b Hc. cbn in Hc. rewrite lookup_empty in Hc. discriminate. }
  split; [|split; [|split]].
  - apply (hub_never_panics (Registers 1%nat 0 [Publishes (note 3)])
             (Publish (note 0)) (NewHub two_clients)
             (HubProofs.NewHub_wf two_clients) eq_refl).
    + vm_compute. eauto.
    + repeat constructor.
  - apply (hub_never_panics (Calls (Shuts_down 9 [1%nat]))
             (Publish (note 0)) greeted_hub greeted_hub_wf eq_refl).
    + exact greeted_hub_range.
    + exact I.
  - apply (hub_never_panics (Ticks "" 0)
             (Iterate (case_ticker "2024-05-01T10:00:00Z" 5)) jammed_hub Hwf
             eq_refl).
    + exact I.
    + vm_compute. reflexivity.
  - apply (hub_never_panics (Ticks "" 0)
             (Iterate (case_broadcast [])) jammed_hub Hwf eq_refl).
    + unfold admissible, range_of. vm_compute. reflexivity.
    + cbn. discriminate.
Defined.

Lemma unregister_spec_witness :
  (∃ st',
     Run_unregister 1%nat [Publishes (note 3)] greeted_hub = Done st' ∧
     clients st' = delete 1%nat (clients greeted_hub) ∧
     buf (broadcast st') = [note 3] ∧
     (closed ∘ Send) <$> heap st' !! 1%nat = Some true ∧
     Run_unregister 1%nat [Shuts_down 9 []] st' = Done st') ∧
  Run_unregister 1%nat [Shuts_down 9 [1%nat]] greeted_hub = Panic.
Proof.
  destruct (unregister_spec 1%nat greeted_hub greeted_hub_wf)
    as (_ & Hpub & Hrace).
  split.
  - edestruct (Hpub ltac:(vm_compute; eauto) [note 3])
      as (st' & cl & _ & Hrun & Hcs & Hb & _ & Hcl & Hagain).
    + vm_compute. reflexivity.
    + exists st'. split; [exact Hrun|]. split; [exact Hcs|].
      split; [rewrite Hb; reflexivity|]. split; [rewrite Hcl; reflexivity|].
      apply Hagain.
  - destruct (Hrace ltac:(vm_compute; eauto) 9 [1%nat])
      as (st0 & cl0 & _ & _ & _ & _ & Hpanic).
    + exact greeted_hub_range.
    + intros c cl [b Hb] Hcl. cbn in Hb.
      apply lookup_singleton_Some in Hb as [<- _].
      vm_compute in Hcl. injection Hcl as <-. reflexivity.
    + exact Hpanic.
Defined.

Lemma welcome_precedes_broadcast_witness :
  (∃ st1 st2 st3 cl,
     Run_register 1%nat 0 [Publishes (note 3)] (NewHub two_clients)
       = Done st1 ∧
     BroadcastMessage (note 7) st1 = Done st2 ∧
     hub_run [Iterate (case_broadcast [1%nat]);
              Iterate (case_broadcast [1%nat])] st2 = Done st3 ∧
     heap st3 !! 1%nat = Some cl ∧
     buf (Send cl) = [welcome "client_1" 0; note 3; note 7]) ∧
  Run_register 1%nat 0 [Shuts_down 5 [1%nat]] (NewHub two_clients) = Panic.
Proof.
  edestruct (welcome_precedes_broadcast 1%nat "client_1" 0 (note 7) [note 3]
               (NewHub two_clients)) as [Hok Hrace].
  - apply HubProofs.NewHub_wf.
  - vm_compute. reflexivity.
  - vm_compute. reflexivity.
  - split.
    + destruct Hok as (st1 & cl1 & Hreg & _ & _ & _ & Hb1 & _ & Hnext).
      assert (Hreg' := Hreg). vm_compute in Hreg'. injection Hreg' as <-.
      destruct (Hnext _ [[1%nat]; [1%nat]] eq_refl)
        as (st3 & cl & Hrun & _ & Hcl & Hbuf).
      * split; [unfold range_of; vm_compute; reflexivity|].
        intros st' H. vm_compute in H. injection H as <-.
        split; [unfold range_of; vm_compute; reflexivity|].
        intros st'' _. exact I.
      * reflexivity.
      * cbn. lia.
      * eexists _, _, st3, cl. split; [reflexivity|].
        split; [reflexivity|]. split; [exact Hrun|]. split; [exact Hcl|].
        exact Hbuf.
    + destruct (Hrace 5 [1%nat]) as (st0 & cl0 & _ & _ & _ & _ & Hpanic).
      * unfold range_of. vm_compute. reflexivity.
      * intros c' cl' [b Hb]. cbn in Hb. rewrite lookup_empty in Hb.
        discriminate.
      * exact Hpanic.
Defined.

Lemma broadcast_fan_out_in_order_witness :
  ∃ st',
    hub_run [Publish (note 1); Publish (note 2);
             Iterate (case_broadcast [1%nat]);
             Iterate (case_broadcast [1%nat])] greeted_hub = Done st' ∧
    clients st' = clients greeted_hub ∧
    Send <$> heap st' !! 1%nat =
      Some {| buf := [welcome "client_1" 0; note 1; note 2]; cap := 256;
              closed := false |}.
Proof.
  destruct (broadcast_fan_out_in_order [note 1; note 2] [[1%nat]; [1%nat]]
              greeted_hub greeted_hub_wf)
    as (st' & Hrun & Hcs & _ & Hin & _).
  - reflexivity.
  - reflexivity.
  - cbn. lia.
  - reflexivity.
  - repeat constructor; apply greeted_hub_range.
  - intros c b cl. apply greeted_hub_room. cbn. lia.
  - exists st'. split; [exact Hrun|]. split; [exact Hcs|].
    erewrite Hin; [|vm_compute; reflexivity|vm_compute; reflexivity].
    reflexivity.
Defined.

Lemma WritePump_drains_closed_queue_witness :
  ∃ w',
    WritePump 1%nat [case_tick true; case_Send true true; case_Send true true]
      {| hub := leaving_hub; wire := [] |} = Done (w', Returned) ∧
    payload (wire w') = [TextMessage (welcome "client_1" 0); CloseMessage] ∧
    (conn_closed ∘ Conn) <$> heap (hub w') !! 1%nat = Some true.
Proof.
  edestruct (WritePump_drains_closed_queue 1%nat
               [case_tick true; case_Send true true; case_Send true true]
               [welcome "client_1" 0]
               {| hub := leaving_hub; wire := [] |})
    as (w' & Hrun & Hwire & Hheap & _).
  - vm_compute. reflexivity.
  - reflexivity.
  - reflexivity.
  - repeat constructor.
  - reflexivity.
  - exists w'. split; [exact Hrun|]. split; [exact Hwire|].
    rewrite Hheap, lookup_insert_eq. reflexivity.
Defined.

Lemma WritePump_writes_in_order_witness :
  ∃ w',
    WritePump 1%nat [case_Send true true; case_tick true]
      {| hub := HubSpec.stalled_hub; wire := [] |} = Done (w', Reading) ∧
    payload (wire w') = [TextMessage (welcome "client_1" 0)] ∧
    length ∘ buf ∘ Send <$> heap (hub w') !! 1%nat = Some 255%nat.
Proof.
  edestruct (WritePump_writes_in_order 1%nat
               [case_Send true true; case_tick true]
               [welcome "client_1" 0] (replicate 255 (note 0))
               {| hub := HubSpec.stalled_hub; wire := [] |})
    as (w' & Hrun & Hwire & Hheap & _).
  - vm_compute. reflexivity.
  - reflexivity.
  - repeat constructor.
  - reflexivity.
  - exists w'. split; [exact Hrun|]. split; [exact Hwire|].
    rewrite Hheap, lookup_insert_eq. reflexivity.
Defined.

Lemma ReadPump_echoes_then_leaves_witness :
  ∃ st',
    ReadPump 1%nat [read_message (note 1) 5 6; read_error;
                    read_message (note 2) 7 8] greeted_hub
      = Done (st', Returned) ∧
    buf (broadcast st') = [echo "client_1" (set_Timestamp (note 1) 5) 6] ∧
    clients st' = ∅ ∧
    (closed ∘ Send) <$> heap st' !! 1%nat = Some true ∧
    (conn_closed ∘ Conn) <$> heap st' !! 1%nat = Some true.
Proof.
  edestruct (ReadPump_echoes_then_leaves 1%nat [(note 1, 5, 6)]
               [read_message (note 2) 7 8] greeted_hub)
    as (st' & Hrun & Hb & Hcs & Hin & _).
  - exact greeted_hub_wf.
  - vm_compute. reflexivity.
  - reflexivity.
  - cbn. lia.
  - exists st'. split; [exact Hrun|]. rewrite Hb, Hcs, Hin.
    split; [reflexivity|]. split; [vm_compute; reflexivity|].
    split; reflexivity.
Defined.

End PumpProofs.

(* ===================================================================== *)
(** ** The handlers and the hub together                                  *)
(* ===================================================================== *)

Module NotifyProofs.

Import Server StoreSpec Reports PumpSpec.

Local Open Scope list_scope.
Local Open Scope Z_scope.

Section WithLower.

Variable unicode_lower : string -> string.

Lemma createUser_publishes (now now_msg : Z) (input : CreateInput) (s : Store) :
  valid_input unicode_lower input →
  createUser unicode_lower now now_msg (Some input) s =
    ({| users := <[nextID s := created_user now input s]> (users s);
        nextID := Int.add (nextID s) 1;
        stats := stats s |},
     respondJSON StatusCreated (created_user now input s),
     Some (user_created (created_user now input s) now_msg)).
Proof.
  intros (Hn & He & Hv & Ha). unfold createUser.
  apply String.eqb_neq in Hn. apply String.eqb_neq in He.
  rewrite Hn, He, Hv. cbn [orb negb].
  replace ((in_Age input <? 0) || (in_Age input >? 150)) with false
    by (symmetry; apply orb_false_iff; split;
        [apply Z.ltb_ge | apply StoreProofs.gtb_false_le]; lia).
  reflexivity.
Qed.




(** X22.  [createUser] stores before it notifies.  For an input that
    passes the checks the record is in the store when the message
    "user_created", which carries the record, is handed to the hub.
    When the buffer of [h.broadcast] has room the message is its last
    element and the answer is 201; when the buffer is full the handler
    waits in the send, having written no answer, with the record
    already stored.  Without a hub the answer is 201 at once.  An input
    that fails a check is answered 400 and reaches neither the store
    nor the hub. *)
Theorem createUser_stores_then_notifies (now now_msg : Z)
    (input : CreateInput) (s : Store) (h : Websocket.State) :
  Websocket.closed (Websocket.broadcast h) = false →
  (valid_input unicode_lower input →
   let user := created_user now input s in
   ∃ s', users s' !! nextID s = Some user ∧
     createUser_notify unicode_lower now now_msg (Some input) s (Some h) =
       (s', if Websocket.full (Websocket.broadcast h) then Websocket.Blocked
            else Websocket.Done
                   (respondJSON StatusCreated user,
                    Some (Websocket.set_broadcast h
                            (append [user_created user now_msg]
                                    (Websocket.broadcast h))))) ∧
     createUser_notify unicode_lower now now_msg (Some input) s None =
       (s', Websocket.Done (respondJSON StatusCreated user, None))) ∧
  (¬ valid_input unicode_lower input →
   ∃ message,
     createUser_notify unicode_lower now now_msg (Some input) s (Some h) =
       (s, Websocket.Done (respondError StatusBadRequest message, Some h))).
Proof.
  intros Hopen. split.
  - intros Hvalid user. unfold createUser_notify.
    rewrite (createUser_publishes now now_msg input s Hvalid).
    eexists. split; [|split; [|reflexivity]].
    + cbn [users]. apply lookup_insert_eq.
    + unfold Websocket.BroadcastMessage, Websocket.send. rewrite Hopen.
      destruct (Websocket.full (Websocket.broadcast h)); reflexivity.
  - intros Hinvalid. unfold createUser_notify.
    destruct (StoreProofs.valid_input_cases unicode_lower input) as [Hv|Hbad];
      [contradiction|].
    destruct (StoreProofs.createUser_invalid unicode_lower now now_msg input s Hbad)
      as [message ->].
    exists message. reflexivity.
Qed.

(** X23.  A created user is announced to every registered client.  On
    an idle, well-formed hub whose registered clients have room, a
    successful [createUser] followed by the iteration of [Run] that
    services its message leaves that message, with the stored record as
    its data, at the end of the queue of every registered client, for
    every order of the range; no client is dropped. *)
Theorem created_user_is_announced (now now_msg : Z) (input : CreateInput)
    (s : Store) (h : Websocket.State) (order : list nat) :
  valid_input unicode_lower input →
  Websocket.hub_wf h →
  Websocket.closed (Websocket.broadcast h) = false →
  Websocket.buf (Websocket.broadcast h) = [] →
  (0 < Websocket.cap (Websocket.broadcast h))%nat →
  Websocket.range_of h order →
  (∀ c b cl, Websocket.clients h !! c = Some b →
     Websocket.heap h !! c = Some cl →
     (length (Websocket.buf (Websocket.Send cl))
      < Websocket.cap (Websocket.Send cl))%nat) →
  let user := created_user now input s in
  ∃ s' h1 h2,
    createUser_notify unicode_lower now now_msg (Some input) s (Some h) =
      (s', Websocket.Done (respondJSON StatusCreated user, Some h1)) ∧
    users s' !! nextID s = Some user ∧
    Websocket.Run_iteration (Websocket.case_broadcast order) h1
      = Websocket.Done h2 ∧
    Websocket.clients h2 = Websocket.clients h ∧
    Websocket.buf (Websocket.broadcast h2) = [] ∧
    (∀ c b cl, Websocket.clients h !! c = Some b →
       Websocket.heap h !! c = Some cl →
       Websocket.heap h2 !! c =
         Some (Websocket.set_Send cl
                 (append [user_created user now_msg] (Websocket.Send cl)))).
Proof.
  intros Hvalid Hwf Hopen Hidle Hcap Hrange Hroom user.
  unfold createUser_notify.
  rewrite (createUser_publishes now now_msg input s Hvalid).
  unfold Websocket.BroadcastMessage, Websocket.send, Websocket.full.
  rewrite Hopen, Hidle. cbn [length].
  replace (Websocket.cap (Websocket.broadcast h) <=? 0)%nat with false
    by (symmetry; apply Nat.leb_gt; exact Hcap).
  cbn [Websocket.bind].
  set (h1 := Websocket.set_broadcast h _).
  destruct (PumpProofs.service_one (user_created user now_msg) [] order h1)
    as (h2 & Hrun & Hb & Hcs & Hheap).
  - exact Hwf.
  - exact Hrange.
  - subst h1. cbn. rewrite Hidle. reflexivity.
  - exact Hroom.
  - eexists. exists h1, h2. split; [reflexivity|]. cbn [users].
    split; [apply lookup_insert_eq|]. split; [exact Hrun|].
    split; [exact Hcs|]. split; [rewrite Hb; reflexivity|].
    intros c b cl Hreg Hcl. rewrite Hheap.
    subst h1. cbn [Websocket.set_broadcast Websocket.clients Websocket.heap].
    rewrite Hreg, Hcl. reflexivity.
Qed.

End WithLower.



Lemma createUser_stores_then_notifies_witness :
  (∃ s', users s' !! 6 = Some (created_user 10 alice (fresh_server 0 0)) ∧
     createUser_notify no_unicode 10 11 (Some alice) (fresh_server 0 0)
       (Some jammed_hub) = (s', Websocket.Blocked)) ∧
  (∃ message,
     createUser_notify no_unicode 10 11 (Some eve) (fresh_server 0 0)
       (Some jammed_hub)
     = (fresh_server 0 0,
        Websocket.Done (respondError StatusBadRequest message, Some jammed_hub))).
Proof.
  destruct (createUser_stores_then_notifies no_unicode 10 11 alice
              (fresh_server 0 0) jammed_hub eq_refl) as [Hok _].
  destruct (createUser_stores_then_notifies no_unicode 10 11 eve
              (fresh_server 0 0) jammed_hub eq_refl) as [_ Hbad].
  split.
  - destruct (Hok (StoreProofs.alice_valid no_unicode)) as (s' & Hs' & Hrun & _).
    exists s'. split; [exact Hs'|exact Hrun].
  - apply Hbad. intros (_ & _ & Hv & _). vm_compute in Hv. discriminate.
Defined.

Lemma created_user_is_announced_witness :
  ∃ s' h1 h2,
    createUser_notify no_unicode 10 11 (Some alice) (fresh_server 0 0)
      (Some HubSpec.greeted_hub) =
      (s', Websocket.Done
             (respondJSON StatusCreated (created_user 10 alice (fresh_server 0 0)),
              Some h1)) ∧
    Websocket.Run_iteration (Websocket.case_broadcast [1%nat]) h1
      = Websocket.Done h2 ∧
    Websocket.buf ∘ Websocket.Send <$> Websocket.heap h2 !! 1%nat =
      Some [Websocket.welcome "client_1" 0;
            user_created (created_user 10 alice (fresh_server 0 0)) 11].
Proof.
  destruct (created_user_is_announced no_unicode 10 11 alice (fresh_server 0 0)
              HubSpec.greeted_hub [1%nat])
    as (s' & h1 & h2 & Hrun & _ & Hiter & _ & _ & Hin).
  - apply StoreProofs.alice_valid.
  - apply PumpProofs.greeted_hub_wf.
  - reflexivity.
  - reflexivity.
  - cbn. lia.
  - apply PumpProofs.greeted_hub_range.
  - intros c b cl Hb Hcl.
    pose proof (PumpProofs.greeted_hub_room c b cl 1 ltac:(lia) Hb Hcl). lia.
  - exists s', h1, h2. split; [exact Hrun|]. split; [exact Hiter|].
    erewrite Hin; [|vm_compute; reflexivity|vm_compute; reflexivity].
    reflexivity.
Defined.

End NotifyProofs.
